(** * Storm runtime and commands (synapse/lib/storm.py, synapse/cmds/auth.py)

    A shallow embedding of the query runtime ([Runtime]), of the storm
    commands [help], [limit], [uniq], [delnode], [sudo], [movetag],
    [count], [iden] and [noderefs], and of the message forming of the
    [auth] command, followed by the properties proved about them.

    Conventions.  A Python generator is a state together with the effect of
    one [next()] call; [None] stands for StopIteration.  An exception is the
    [Raise] branch of [result].  Output written with [snap.printf] is a list
    of lines carried in the state.  Python sets and dicts are [gset] and
    [gmap]; where iteration order is observable a list is used. *)

From stdpp Require Import gmap strings list fin_maps pretty sorting.
From Stdlib Require Import ZArith Lia Ascii.

Set Warnings "-clear-no-such-hyp".



(* ===================================================================== *)
(** * Part I: definitions                                                 *)
(* ===================================================================== *)

(** ** Exceptions (synapse.exc) and results *)

Inductive exc :=
| AuthDeny (mesg perm user : option string)
| BadOperArg (mesg arg : string)
| Canceled.

Inductive result (A : Type) :=
| Ok (a : A)
| Raise (e : exc).
Arguments Ok {A} a.
Arguments Raise {A} e.

Definition is_AuthDeny (e : exc) : bool :=
  match e with AuthDeny _ _ _ => true | _ => false end.

Definition is_BadOperArg (e : exc) : bool :=
  match e with BadOperArg _ _ => true | _ => false end.

Definition raises_AuthDeny {A} (r : result A) : bool :=
  match r with Raise e => is_AuthDeny e | Ok _ => false end.

Definition raises_BadOperArg {A} (r : result A) : bool :=
  match r with Raise e => is_BadOperArg e | Ok _ => false end.

(** ** Upstream generators

    [unext u] is one [next()] on an upstream generator in state [u]. A list
    is the generator that yields its elements in order. *)

Definition list_next {A} (l : list A) : option (A * list A) :=
  match l with
  | [] => None
  | x :: rest => Some (x, rest)
  end.

(** ** class Runtime *)

Module Runtime.

(** The principal attached by the auth subsystem.  Its class is not part of
    this file's sources; the runtime reads [user.name], [user.admin] and
    calls [user.allowed(args, elev=False)], which is the field [rules]: the
    decision of the principal's current rule set on a permission path. *)
Record User := {
  name : string;
  admin : bool;
  rules : list string → bool;
}.

(** The fields of [Runtime] that permission checks read and write.
    [memo] is the cache that the decorator of [allowed] keeps; [evals]
    counts the calls made to [user.allowed] (a ghost counter: the code has
    no such field, it makes re-evaluation observable). *)
Record t := {
  user : option User;
  canceled : bool;
  elevated : bool;
  memo : gset (list string);
  evals : nat;
}.

Definition init (u : option User) : t :=
  {| user := u; canceled := false; elevated := false; memo := ∅; evals := 0 |}.

Definition elevate (rt : t) : result t :=
  let ok := Ok {| user := user rt; canceled := canceled rt; elevated := true;
                  memo := memo rt; evals := evals rt |} in
  match user rt with
  | Some u =>
      if negb (admin u)
      then Raise (AuthDeny (Some "user is not admin") None (Some (name u)))
      else ok
  | None => ok
  end.

Definition tick (rt : t) : result unit :=
  if canceled rt then Raise Canceled else Ok ().

Definition cancel (rt : t) : t :=
  {| user := user rt; canceled := true; elevated := elevated rt;
     memo := memo rt; evals := evals rt |}.

(** The body of [allowed], without its decorator. *)
Definition allowed_body (rt : t) (args : list string) : result unit * t :=
  match user rt with
  | None => (Ok (), rt)
  | Some u =>
      if elevated rt then (Ok (), rt)
      else
        let rt' := {| user := user rt; canceled := canceled rt;
                      elevated := elevated rt; memo := memo rt;
                      evals := S (evals rt) |} in
        if rules u args then (Ok (), rt')
        else (Raise (AuthDeny None (Some (String.concat "." args)) (Some (name u))), rt')
  end.

(** Modelled from the spec: the decorator [s_cache.memoize] (module
    synapse.lib.cache) is missing from the sources; it is applied as
    [memoize(size=100)].  The spec gives the cache no bound and describes it
    as a permission-decision cache owned by the running query, "memoized
    only on success, keyed by the exact ordered permission path", a cached
    success being "kept for the query's lifetime".  A call whose key is
    cached returns the cached result without running the body; a call that
    returns is cached under its argument tuple; a call that raises leaves
    the cache as it was. *)
Definition memoize (body : t → list string → result unit * t)
    (rt : t) (args : list string) : result unit * t :=
  if decide (args ∈ memo rt) then (Ok (), rt)
  else
    match body rt args with
    | (Ok r, rt') =>
        (Ok r, {| user := user rt'; canceled := canceled rt';
                  elevated := elevated rt'; memo := {[args]} ∪ memo rt';
                  evals := evals rt' |})
    | (Raise e, rt') => (Raise e, rt')
    end.

Definition allowed : t → list string → result unit * t := memoize allowed_body.

(** What can happen to a runtime during one query: the commands call
    [allowed], [elevate] and [cancel]; the auth subsystem may change the
    attached principal's [admin] flag and rules at any time (the attached
    object is shared with it).  A principal is never attached or detached
    in mid query. *)
Inductive event :=
| CallAllowed (args : list string)
| CallElevate
| CallCancel
| PrincipalChanged (adm : bool) (r : list string → bool).

Definition step (rt : t) (ev : event) : t :=
  match ev with
  | CallAllowed args => (allowed rt args).2
  | CallElevate => match elevate rt with Ok rt' => rt' | Raise _ => rt end
  | CallCancel => cancel rt
  | PrincipalChanged adm r =>
      {| user := (λ u, {| name := name u; admin := adm; rules := r |}) <$> user rt;
         canceled := canceled rt; elevated := elevated rt;
         memo := memo rt; evals := evals rt |}
  end.

Definition run (evs : list event) (rt : t) : t := foldl step rt evs.

End Runtime.

(** ** class LimitCmd *)

Module LimitCmd.

(** The frame of the generator [runStormCmd]: the upstream generator, the
    index [enumerate] hands out next, whether the generator has returned,
    and what it printed.  [pulled] is a ghost counter of the items obtained
    from upstream. *)
Record state (U : Type) := {
  genr : U;
  count : Z;
  finished : bool;
  printed : list string;
  pulled : nat;
}.
Arguments genr {U} _.
Arguments count {U} _.
Arguments finished {U} _.
Arguments printed {U} _.
Arguments pulled {U} _.

Definition start {U} (g : U) : state U :=
  {| genr := g; count := 0; finished := false; printed := []; pulled := 0 |}.

(** One [next()] on the generator; [opts_count] is [self.opts.count]. *)
Definition next {A U} (unext : U → option (A * U)) (opts_count : Z)
    (st : state U) : option A * state U :=
  if finished st then (None, st)
  else
    match unext (genr st) with
    | None =>
        (None, {| genr := genr st; count := count st; finished := true;
                  printed := printed st; pulled := pulled st |})
    | Some (item, g') =>
        if (opts_count <=? count st)%Z
        then (None, {| genr := g'; count := count st; finished := true;
                       printed := printed st ++ ["limit reached: " +:+ pretty opts_count];
                       pulled := S (pulled st) |})
        else (Some item, {| genr := g'; count := (count st + 1)%Z; finished := false;
                            printed := printed st; pulled := S (pulled st) |})
    end.

(** A downstream [for] loop that asks for at most [fuel] items and stops at
    StopIteration. *)
Fixpoint consume {A U} (unext : U → option (A * U)) (opts_count : Z)
    (fuel : nat) (st : state U) : list A * state U :=
  match fuel with
  | 0 => ([], st)
  | S fuel' =>
      match next unext opts_count st with
      | (None, st') => ([], st')
      | (Some item, st') =>
          let '(items, st'') := consume unext opts_count fuel' st' in
          (item :: items, st'')
      end
  end.

(** [runStormCmd] over a list as upstream, drained by its consumer: the
    items it yields and the frame it ends in. *)
Definition runStormCmd {A} (opts_count : Z) (genr : list A)
    : list A * state (list A) :=
  consume list_next opts_count (S (length genr)) (start genr).

End LimitCmd.

(** ** class CountCmd *)

Module CountCmd.

Record state (U : Type) := {
  genr : U;
  i : Z;
  finished : bool;
  printed : list string;
}.
Arguments genr {U} _.
Arguments i {U} _.
Arguments finished {U} _.
Arguments printed {U} _.

Definition start {U} (g : U) : state U :=
  {| genr := g; i := 0; finished := false; printed := [] |}.

(** One [next()] on the generator.  [enumerate(genr, 1)] numbers the items
    from 1, so each item sets [i] to one more than before. *)
Definition next {A U} (unext : U → option (A * U)) (st : state U)
    : option A * state U :=
  if finished st then (None, st)
  else
    match unext (genr st) with
    | None =>
        (None, {| genr := genr st; i := i st; finished := true;
                  printed := printed st ++ ["Counted " +:+ pretty (i st) +:+ " nodes."] |})
    | Some (item, g') =>
        (Some item, {| genr := g'; i := (i st + 1)%Z; finished := false;
                       printed := printed st |})
    end.

Fixpoint consume {A U} (unext : U → option (A * U)) (fuel : nat) (st : state U)
    : list A * state U :=
  match fuel with
  | 0 => ([], st)
  | S fuel' =>
      match next unext st with
      | (None, st') => ([], st')
      | (Some item, st') =>
          let '(items, st'') := consume unext fuel' st' in
          (item :: items, st'')
      end
  end.

(** [runStormCmd] over a list as upstream, drained by its consumer. *)
Definition runStormCmd {A} (genr : list A) : list A * state (list A) :=
  consume list_next (S (length genr)) (start genr).

End CountCmd.

(** ** class NoderefsCmd *)

Module NoderefsCmd.

(** *** Nodes, the data model and the storage session, as [getRefs] uses them *)

(** Property values: strings, integers and tuples.  An ndef is the tuple
    (form name, value); the value of a NodeProp property is the tuple
    (property name, value). *)
Inductive Valu :=
| VStr (s : string)
| VInt (z : Z)
| VTuple (a b : Valu).

#[global] Instance Valu_eq_dec : EqDecision Valu.
Proof. solve_decision. Defined.

(** What the [isinstance] tests of [getRefs] ask of a type. *)
Inductive TypeClass := IsNdef | IsNodeProp | IsEdge | IsOther.

#[global] Instance TypeClass_eq_dec : EqDecision TypeClass.
Proof. solve_decision. Defined.

Record Type_ := { tname : string; tclass : TypeClass }.

Record Prop_ := { pname : string; full : string; ptype : Type_ }.

Record Form := { fname : string; ftype : Type_; fprops : gmap string Prop_ }.

Record Node := {
  buid : N;
  ndef : string * Valu;
  props : list (string * Valu);
  tags : gmap string (option (Z * Z));
  form : Form;
}.

#[global] Instance Type_eq_dec : EqDecision Type_.
Proof. solve_decision. Defined.
#[global] Instance Prop_eq_dec : EqDecision Prop_.
Proof. solve_decision. Defined.
#[global] Instance Form_eq_dec : EqDecision Form.
Proof. solve_decision. Defined.
#[global] Instance Node_eq_dec : EqDecision Node.
Proof. solve_decision. Defined.

(** [node.ndef] as a value, and [node.get(name)]. *)
Definition ndef_valu (n : Node) : Valu := VTuple (VStr (ndef n).1) (ndef n).2.

Definition node_get (n : Node) (name : string) : option Valu :=
  (list_to_map (props n) : gmap string Valu) !! name.

(** Modelled from the spec: synapse.lib.node.Path is missing from the
    sources.  A path is the "ordered, immutable sequence of visited nodes
    (the hop chain)"; forking appends one hop and leaves the parent as it
    was. *)
Abbreviation Path := (list Node).

Definition fork (path : Path) (node : Node) : Path := path ++ [node].

(** [snap.model] and [snap], the storage collaborators: a record of the
    lookups that [getRefs] calls.  The storage is not written to during a
    traversal, so the lookups are functions. *)
Record Model := {
  forms : gmap string Form;
  propsbytype : gmap string (list Prop_);
  model_props : list Prop_;
}.

Record Snap := {
  model : Model;
  getNodeByNdef : Valu → option Node;
  getNodesBy : string → Valu → list Node;
}.

(** *** The command *)

(** [self.opts] as argparse fills it. *)
Record Opts := {
  degrees : Z;
  traverse_edge : bool;
  join : bool;
  omit_traversal_form : list string;
  omit_traversal_tag : list string;
  omit_form : list string;
  omit_tag : list string;
  unique : bool;
}.

(** The attributes that [runStormCmd] sets on [self] before it traverses. *)
Record Cmd := {
  opts : Opts;
  snap : Snap;
  omit_traversal_forms : gset string;
  omit_traversal_tags : gset string;
  omit_forms : gset string;
  omit_tags : gset string;
  ndef_props : list Prop_;
}.

Definition setup (o : Opts) (sn : Snap) : Cmd :=
  {| opts := o; snap := sn;
     omit_traversal_forms := list_to_set (omit_traversal_form o);
     omit_traversal_tags := list_to_set (omit_traversal_tag o);
     omit_forms := list_to_set (omit_form o);
     omit_tags := list_to_set (omit_tag o);
     ndef_props :=
       filter (λ prop, tclass (ptype prop) = IsNdef) (model_props (model sn)) |}.

(** [yield pivo, srcpath.fork(pivo)] *)
Definition pivot (srcpath : Path) (pivo : Node) : Node * Path :=
  (pivo, fork srcpath pivo).

(** First loop of [getRefs]: pivot out to secondary properties which are
    forms.  A property that the form does not declare is logged and
    skipped.  The NodeProp branch has no [continue], so it falls through to
    the lookup of the form named like the type; the value of such a
    property is the pair that [qprop, qvalu = valu] unpacks. *)
Definition refs_out (self : Cmd) (srcnode : Node) (srcpath : Path)
    : list (Node * Path) :=
  '(name, valu) ← props srcnode;
  match fprops (form srcnode) !! name with
  | None => []
  | Some prop =>
      match tclass (ptype prop) with
      | IsNdef =>
          pivot srcpath <$> option_list (getNodeByNdef (snap self) valu)
      | cls =>
          (match cls, valu with
           | IsNodeProp, VTuple (VStr qprop) qvalu =>
               pivot srcpath <$> getNodesBy (snap self) qprop qvalu
           | _, _ => []
           end) ++
          match forms (model (snap self)) !! tname (ptype prop) with
          | None => []
          | Some form' =>
              pivot srcpath <$>
                option_list (getNodeByNdef (snap self) (VTuple (VStr (fname form')) valu))
          end
      end
  end.

(** Second loop: pivot in, to the nodes that have a secondary property of
    the source's type and value. *)
Definition refs_in (self : Cmd) (srcnode : Node) (srcpath : Path)
    : list (Node * Path) :=
  prop ← default [] (propsbytype (model (snap self)) !! (ndef srcnode).1);
  pivot srcpath <$> getNodesBy (snap self) (full prop) (ndef srcnode).2.

(** Third loop: the Ndef properties that hold the source's ndef; with
    [--traverse-edge] an edge node is crossed to its other side. *)
Definition refs_ndef (self : Cmd) (srcnode : Node) (srcpath : Path)
    : list (Node * Path) :=
  prop ← ndef_props self;
  pivo ← getNodesBy (snap self) (full prop) (ndef_valu srcnode);
  if traverse_edge (opts self) && bool_decide (tclass (ftype (form pivo)) = IsEdge)
  then
    if decide (node_get pivo "n1" = Some (ndef_valu srcnode)) then
      pivot srcpath <$> option_list (node_get pivo "n2" ≫= getNodeByNdef (snap self))
    else if decide (node_get pivo "n2" = Some (ndef_valu srcnode)) then
      pivot srcpath <$> option_list (node_get pivo "n1" ≫= getNodeByNdef (snap self))
    else []
  else [pivot srcpath pivo].

Definition getRefs (self : Cmd) (srcnode : Node) (srcpath : Path)
    : list (Node * Path) :=
  refs_out self srcnode srcpath ++ refs_in self srcnode srcpath
    ++ refs_ndef self srcnode srcpath.

(** The two tests before the [yield] of [doRefs], and the two after it. *)
Definition omitted (self : Cmd) (pnode : Node) : bool :=
  bool_decide ((ndef pnode).1 ∈ omit_forms self)
  || bool_decide (omit_tags self ∩ dom (tags pnode) ≠ ∅).

Definition no_traversal (self : Cmd) (pnode : Node) : bool :=
  bool_decide ((ndef pnode).1 ∈ omit_traversal_forms self)
  || bool_decide (omit_traversal_tags self ∩ dom (tags pnode) ≠ ∅).

(** What a stretch of the traversal has done: the pairs it yielded, in
    order; the [visited] set and the [newqueue] it leaves; and the entries
    it popped from [srcqueue], on which it called [getRefs] (a ghost
    record: the code keeps no such list). *)
Record walk := {
  yielded : list (Node * Path);
  visited : gset N;
  newqueue : list (Node * Path);
  pivoted : list (Node * Path);
}.

(** The [for pnode, ppath in self.getRefs(snode, spath)] loop. *)
Fixpoint refs_loop (self : Cmd) (cands : list (Node * Path))
    (vis : gset N) (queue : list (Node * Path)) : walk :=
  match cands with
  | [] => {| yielded := []; visited := vis; newqueue := queue; pivoted := [] |}
  | (pnode, ppath) :: rest =>
      if decide (buid pnode ∈ vis) then refs_loop self rest vis queue
      else
        let vis := {[buid pnode]} ∪ vis in
        if omitted self pnode then refs_loop self rest vis queue
        else
          let queue :=
            if no_traversal self pnode then queue else queue ++ [(pnode, ppath)] in
          let w := refs_loop self rest vis queue in
          {| yielded := (pnode, ppath) :: yielded w; visited := visited w;
             newqueue := newqueue w; pivoted := pivoted w |}
  end.

(** The [while True] loop: [stack] lists [srcqueue] in the order in which
    [srcqueue.pop()] hands out its entries, the right end first. *)
Fixpoint queue_loop (self : Cmd) (stack : list (Node * Path))
    (vis : gset N) (queue : list (Node * Path)) : walk :=
  match stack with
  | [] => {| yielded := []; visited := vis; newqueue := queue; pivoted := [] |}
  | (snode, spath) :: rest =>
      let w1 := refs_loop self (getRefs self snode spath) vis queue in
      let w2 := queue_loop self rest (visited w1) (newqueue w1) in
      {| yielded := yielded w1 ++ yielded w2; visited := visited w2;
         newqueue := newqueue w2; pivoted := (snode, spath) :: pivoted w2 |}
  end.

(** The [while degrees] loop, for a count that has passed the test of
    [runStormCmd]: each round empties [srcqueue] and continues with the
    [newqueue] it built. *)
Fixpoint rounds (self : Cmd) (degs : nat) (srcqueue : list (Node * Path))
    (vis : gset N) : walk :=
  match degs with
  | 0 => {| yielded := []; visited := vis; newqueue := srcqueue; pivoted := [] |}
  | S degs' =>
      let w1 := queue_loop self (reverse srcqueue) vis [] in
      let w2 := rounds self degs' (newqueue w1) (visited w1) in
      {| yielded := yielded w1 ++ yielded w2; visited := visited w2;
         newqueue := newqueue w2; pivoted := pivoted w1 ++ pivoted w2 |}
  end.

Definition doRefs (self : Cmd) (srcnode : Node) (srcpath : Path) (vis : gset N)
    : walk :=
  rounds self (Z.to_nat (degrees (opts self))) [(srcnode, srcpath)] vis.

(** One turn of the [for node, path in genr] loop of [runStormCmd]: what
    [--join] emits for the source, and the traversal from it. *)
Record source_run := {
  source : Node * Path;
  joined : list (Node * Path);
  found : walk;
}.

Fixpoint run_sources (self : Cmd) (genr : list (Node * Path)) (vis : gset N)
    : list source_run :=
  match genr with
  | [] => []
  | (node, path) :: rest =>
      let vis := if unique (opts self) then vis else ∅ in
      let vis := {[buid node]} ∪ vis in
      let w := doRefs self node path vis in
      {| source := (node, path);
         joined := if join (opts self) then [(node, path)] else [];
         found := w |}
        :: run_sources self rest (visited w)
  end.

(** The stream that the command yields to a consumer that drains it; one
    that stops early has received a prefix of it. *)
Definition output (runs : list source_run) : list (Node * Path) :=
  r ← runs; joined r ++ yielded (found r).

Definition runStormCmd (o : Opts) (sn : Snap) (genr : list (Node * Path))
    : result (list (Node * Path)) :=
  let self := setup o sn in
  if (degrees o <? 1)%Z
  then Raise (BadOperArg "degrees must be greater than or equal to 1" "degrees")
  else Ok (output (run_sources self genr ∅)).

(** [reach self k s c]: [c] is found from [s] by [k] successive [getRefs]
    pivots, each forking the path by one hop. *)
Inductive reach (self : Cmd) : nat → Node * Path → Node * Path → Prop :=
| reach_here s : reach self 0 s s
| reach_hop k s m c :
    reach self k s m → c ∈ getRefs self m.1 m.2 → reach self (S k) s c.

(** A node that the storage hands out. *)
Definition stored (sn : Snap) (n : Node) : Prop :=
  (∃ v, getNodeByNdef sn v = Some n) ∨ (∃ prop v, n ∈ getNodesBy sn prop v).

(** The data model's invariant: a buid identifies one node. *)
Definition buid_identifies (sn : Snap) : Prop :=
  ∀ n1 n2, stored sn n1 → stored sn n2 → buid n1 = buid n2 → n1 = n2.

(** *** Vocabulary of the properties *)

Definition buids (l : list (Node * Path)) : list N := (λ y, buid y.1) <$> l.

Definition candidates (self : Cmd) (srcs : list (Node * Path)) : list (Node * Path) :=
  s ← srcs; getRefs self s.1 s.2.

(** The nodes found by the traversals, without the sources that [--join]
    emits. *)
Definition traversal_yields (runs : list source_run) : list (Node * Path) :=
  r ← runs; yielded (found r).

Definition hops_bounded (self : Cmd) (r : source_run) : Prop :=
  ∀ y, y ∈ yielded (found r) →
    ∃ k, 1 ≤ k ≤ Z.to_nat (degrees (opts self)) ∧
         reach self k (source r) y ∧
         length y.2 = length (source r).2 + k.

(** What one pass over a list of candidates establishes. *)
Record loop_spec (self : Cmd) (cands : list (Node * Path)) (vis : gset N)
    (queue : list (Node * Path)) (w : walk) : Prop := {
  ls_mono : vis ⊆ visited w;
  ls_cands : ∀ c, c ∈ cands → buid c.1 ∈ visited w;
  ls_seen : ∀ b, b ∈ visited w → b ∈ vis ∨ ∃ c, c ∈ cands ∧ buid c.1 = b;
  ls_nodup : NoDup (buids (yielded w));
  ls_yield : ∀ y, y ∈ yielded w →
      y ∈ cands ∧ (buid y.1 ∉ vis) ∧ omitted self y.1 = false;
  ls_queue : newqueue w =
      queue ++ filter (λ y, no_traversal self y.1 = false) (yielded w);
  ls_first : ∀ c, c ∈ cands → buid c.1 ∉ vis →
      ∃ c', c' ∈ cands ∧ buid c'.1 = buid c.1 ∧
            (omitted self c'.1 = false → c' ∈ yielded w);
  ls_pivoted : pivoted w = [];
}.

(** What [degs] rounds from [srcqueue] establish. *)
Record rounds_spec (self : Cmd) (degs : nat) (srcqueue : list (Node * Path)) (vis : gset N)
    (w : walk) : Prop := {
  rs_mono : vis ⊆ visited w;
  rs_nodup : NoDup (buids (yielded w));
  rs_yield : ∀ y, y ∈ yielded w →
      (buid y.1 ∉ vis) ∧ buid y.1 ∈ visited w ∧ omitted self y.1 = false ∧
      ∃ k s, 1 ≤ k ≤ degs ∧ s ∈ srcqueue ∧ reach self k s y;
  rs_pivoted : ∀ m, m ∈ pivoted w →
      m ∈ srcqueue ∨ (m ∈ yielded w ∧ no_traversal self m.1 = false);
  rs_cand : ∀ m c, m ∈ pivoted w → c ∈ getRefs self m.1 m.2 →
      buid c.1 ∈ visited w ∧
      (buid c.1 ∉ vis →
       ∃ m' c', m' ∈ pivoted w ∧ c' ∈ getRefs self m'.1 m'.2 ∧
                buid c'.1 = buid c.1 ∧
                (omitted self c'.1 = false → c' ∈ yielded w));
  rs_sources : 0 < degs → ∀ s, s ∈ srcqueue → s ∈ pivoted w;
}.

End NoderefsCmd.

(** ** class MoveTagCmd *)

Module MoveTagCmd.

(** *** Tag names *)

(** [tagstr[n:]] *)
Fixpoint string_drop (n : nat) (s : string) : string :=
  match n, s with
  | 0, _ => s
  | S n', String _ s' => string_drop n' s'
  | S _, EmptyString => EmptyString
  end.

(** [t] is [old] or lies under it in the tag tree: [old] is a dotted-path
    prefix of [t]. *)
Definition tag_under (old t : string) : Prop :=
  t = old ∨ ∃ suffix, t = old +:+ "." +:+ suffix.

Definition tag_underb (old t : string) : bool :=
  bool_decide (t = old) || String.prefix (old +:+ ".") t.

(** [newstr + tagstr[oldsize:]] *)
Definition renamed (oldstr newstr tagstr : string) : string :=
  newstr +:+ string_drop (String.length oldstr) tagstr.

(** *** The store *)

(** The value of a tag application: null or a time interval. *)
Abbreviation TagValu := (option (Z * Z)).

(** The [syn:tag] nodes by name, each with its secondary properties
    ([doc], [title], [isnow]), and the data nodes by buid, each with its tag
    applications. *)
Record Store := {
  tagdefs : gmap string (gmap string string);
  nodes : gmap N (gmap string TagValu);
}.

(** Modelled from the spec: the storage session is missing from the
    sources ([snap.addNode], [snap.getNodesBy], [node.set], [node.get],
    [node.addTag], [node.delTag]).  The spec lists them as
    "addNode(form,value) -> Node", "getNodesBy(selector, value, comparator)"
    and the mutators "set(prop,value), addTag(name,value), delTag(name)".
    [addNode] returns the tag-definition of that name and creates it, with
    no properties, if it is absent ("create the renamed tag-definition if
    absent"); the second component is [ndef[1]] of the node, the name
    given. *)
Definition addNode (st : Store) (name : string) : Store * string :=
  match tagdefs st !! name with
  | Some _ => (st, name)
  | None => ({| tagdefs := <[name := ∅]> (tagdefs st); nodes := nodes st |}, name)
  end.

(** Modelled from the spec: [node.set(prop, valu)] and [node.get(prop)] on
    the tag-definition called [tag]. *)
Definition node_set (st : Store) (tag prop valu : string) : Store :=
  {| tagdefs := alter (insert prop valu) tag (tagdefs st); nodes := nodes st |}.

Definition node_get (st : Store) (tag prop : string) : option string :=
  tagdefs st !! tag ≫= (.!! prop).

(** Modelled from the spec: the lookup
    [snap.getNodesBy('syn:tag', oldtag, cmpr='^=')] gives "every existing
    tag-definition whose name equals oldtag or has oldtag as a dotted-path
    prefix".  The loop runs over the definitions that exist when the lookup
    is made. *)
Definition tags_by_prefix (st : Store) (oldtag : string) : list string :=
  filter (λ t, tag_underb oldtag t = true) (map_to_list (tagdefs st)).*1.

(** Modelled from the spec: the lookup [snap.getNodesBy('#' + oldstr)]
    gives "every node carrying oldtag (matched by prefix across the whole
    subtree using the original oldtag)". *)
Definition carries (oldstr : string) (tags : gmap string TagValu) : Prop :=
  set_Exists (λ t, tag_underb oldstr t = true) (dom tags).

#[global] Instance carries_dec oldstr tags : Decision (carries oldstr tags).
Proof. unfold carries. apply _. Defined.

Definition nodes_by_tag (st : Store) (oldstr : string) : list N :=
  (map_to_list (filter (λ kv, carries oldstr kv.2) (nodes st))).*1.

(** Modelled from the spec: [node.delTag(name)] removes the application of
    that name, [node.addTag(name, valu=valu)] adds the application with that
    value. *)
Definition delTag (name : string) (tags : gmap string TagValu) : gmap string TagValu :=
  delete name tags.

Definition addTag (name : string) (valu : TagValu) (tags : gmap string TagValu)
    : gmap string TagValu :=
  <[name := valu]> tags.

(** *** The command *)

(** One turn of the first loop of [runStormCmd], for the definition called
    [tagstr]. *)
Definition isnow_step (oldstr newstr : string)
    (acc : Store * gmap string string) (tagstr : string)
    : Store * gmap string string :=
  let '(st, retag) := acc in
  if decide (tagstr = oldstr) then
    (node_set st tagstr "isnow" newstr, retag)
  else
    let newtag := renamed oldstr newstr tagstr in
    let st := (addNode st newtag).1 in
    let st := match node_get st tagstr "doc" with
              | Some olddoc => node_set st newtag "doc" olddoc
              | None => st
              end in
    let st := match node_get st tagstr "title" with
              | Some oldtitle => node_set st newtag "title" oldtitle
              | None => st
              end in
    (node_set st tagstr "isnow" newtag, <[tagstr := newtag]> retag).

(** [tags.sort(reverse=True)] on the (name, value) pairs: the names of one
    node are pairwise different, so the order is that of the names. *)
Definition name_ge (a b : string * TagValu) : Prop := String.le b.1 a.1.

#[global] Instance name_ge_dec a b : Decision (name_ge a b).
Proof. unfold name_ge. apply _. Defined.

Definition sorted_tags (tags : gmap string TagValu) : list (string * TagValu) :=
  merge_sort name_ge (map_to_list tags).

(** The inner loop of the second loop, on one node's tags. *)
Definition retag_step (retag : gmap string string) (cur : gmap string TagValu)
    (tag : string * TagValu) : gmap string TagValu :=
  match retag !! tag.1 with
  | None => cur
  | Some newt => addTag newt tag.2 (delTag tag.1 cur)
  end.

Definition retag_tags (retag : gmap string string) (tags : gmap string TagValu)
    : gmap string TagValu :=
  foldl (retag_step retag) tags (sorted_tags tags).

Definition retag_node (retag : gmap string string) (st : Store) (b : N) : Store :=
  {| tagdefs := tagdefs st; nodes := alter (retag_tags retag) b (nodes st) |}.

(** The two [addNode] calls and the first loop. *)
Definition set_isnow (oldtag newtag : string) (st : Store)
    : Store * gmap string string * string * string :=
  let '(st, oldstr) := addNode st oldtag in
  let '(st, newstr) := addNode st newtag in
  let '(st, retag) :=
    foldl (isnow_step oldstr newstr) (st, {[oldstr := newstr]})
          (tags_by_prefix st oldtag) in
  (st, retag, oldstr, newstr).

(** [runStormCmd] up to its report; after it the command forwards [genr]
    unchanged. *)
Definition runStormCmd (oldtag newtag : string) (st : Store) : Store * list string :=
  let '(st, retag, oldstr, newstr) := set_isnow oldtag newtag st in
  let found := nodes_by_tag st oldstr in
  (foldl (retag_node retag) st found,
   ["moved tags on " +:+ pretty (length found) +:+ " nodes."]).

Definition movetag (oldtag newtag : string) (st : Store) : Store :=
  (runStormCmd oldtag newtag st).1.

(** *** Vocabulary of the properties *)

(** A tag-definition of that name exists. *)
Definition has_def (st : Store) (t : string) : Prop := is_Some (tagdefs st !! t).

(** The two trees are apart when neither tag lies under the other. *)
Definition apart (old new : string) : Prop :=
  ¬ tag_under old new ∧ ¬ tag_under new old.

(** [t] lies properly under [old]: it is [old] followed by a dotted
    suffix. *)
Definition tag_below (old t : string) : Prop :=
  ∃ suffix, t = old +:+ "." +:+ suffix.

(** The store when the first loop starts, and the definitions it visits. *)
Definition before_loop (oldtag newtag : string) (st : Store) : Store :=
  (addNode (addNode st oldtag).1 newtag).1.

Definition matched (oldtag newtag : string) (st : Store) : list string :=
  tags_by_prefix (before_loop oldtag newtag st) oldtag.

(** A store on which [movetag oldtag newtag] has nothing left to do. *)
Record settled (oldtag newtag : string) (st : Store) : Prop := {
  settled_old : has_def st oldtag;
  settled_new : has_def st newtag;
  settled_isnow : ∀ t, has_def st t → tag_under oldtag t →
      node_get st t "isnow" = Some (renamed oldtag newtag t);
  settled_renamed : ∀ t, has_def st t → tag_under oldtag t → has_def st (renamed oldtag newtag t);
  settled_copy : ∀ t p d, has_def st t → tag_under oldtag t → t ≠ oldtag →
      p = "doc" ∨ p = "title" →
      node_get st t p = Some d → node_get st (renamed oldtag newtag t) p = Some d;
  settled_nodes : ∀ b tags t, nodes st !! b = Some tags →
      has_def st t → tag_under oldtag t → tags !! t = None;
}.

(** *** Stores to run [movetag] on *)

(** The tags [foo.bar] (null) and [foo.bar.baz] ((100, 200)) on node 1,
    and the tag [foo.barbaz], which is no child of [foo.bar], on node 2. *)
Definition foo_store : Store :=
  {| tagdefs := {[ "foo" := ∅; "foo.bar" := {[ "doc" := "a bar" ]};
                   "foo.bar.baz" := {[ "title" := "Baz" ]};
                   "foo.barbaz" := {[ "doc" := "no child" ]} ]};
     nodes := {[ 1%N := {[ "foo.bar" := None; "foo.bar.baz" := Some (100, 200)%Z ]};
                 2%N := {[ "foo.barbaz" := None ]} ]} |}.

(** A node tagged below [foo.bar.bar]. *)
Definition deep_store : Store :=
  {| tagdefs := {[ "foo" := ∅; "foo.bar" := ∅; "foo.bar.bar" := ∅;
                   "foo.bar.bar.x" := ∅ ]};
     nodes := {[ 1%N := {[ "foo.bar.bar.x" := Some (100, 200)%Z ]} ]} |}.

(** The tree [a] with the subtree [a.b] already in use, on node 1. *)
Definition nested_store : Store :=
  {| tagdefs := {[ "a" := ∅; "a.b" := ∅; "a.c" := ∅; "a.b.c" := ∅ ]};
     nodes := {[ 1%N := {[ "a" := None; "a.b" := None;
                           "a.c" := Some (100, 200)%Z;
                           "a.b.c" := Some (300, 400)%Z ]} ]} |}.

End MoveTagCmd.

(** ** A small graph to run [noderefs] on

    An address, a DNS A record that refers to the address and to a domain,
    and the domain.  The record carries the tag [omit.nopiv]. *)

Module Graph.
Import NoderefsCmd.

Definition t_ipv4 : Type_ := {| tname := "inet:ipv4"; tclass := IsOther |}.
Definition t_fqdn : Type_ := {| tname := "inet:fqdn"; tclass := IsOther |}.
Definition t_dnsa : Type_ := {| tname := "inet:dns:a"; tclass := IsOther |}.

Definition p_dnsa_ipv4 : Prop_ :=
  {| pname := "ipv4"; full := "inet:dns:a:ipv4"; ptype := t_ipv4 |}.
Definition p_dnsa_fqdn : Prop_ :=
  {| pname := "fqdn"; full := "inet:dns:a:fqdn"; ptype := t_fqdn |}.

Definition f_ipv4 : Form := {| fname := "inet:ipv4"; ftype := t_ipv4; fprops := ∅ |}.
Definition f_fqdn : Form := {| fname := "inet:fqdn"; ftype := t_fqdn; fprops := ∅ |}.
Definition f_dnsa : Form :=
  {| fname := "inet:dns:a"; ftype := t_dnsa;
     fprops := {[ "ipv4" := p_dnsa_ipv4; "fqdn" := p_dnsa_fqdn ]} |}.

Definition mdl : Model :=
  {| forms := {[ "inet:ipv4" := f_ipv4; "inet:fqdn" := f_fqdn; "inet:dns:a" := f_dnsa ]};
     propsbytype := {[ "inet:ipv4" := [p_dnsa_ipv4]; "inet:fqdn" := [p_dnsa_fqdn] ]};
     model_props := [p_dnsa_ipv4; p_dnsa_fqdn] |}.

Definition addr : Node :=
  {| buid := 1; ndef := ("inet:ipv4", VStr "1.2.3.4"); props := []; tags := ∅;
     form := f_ipv4 |}.
Definition rec : Node :=
  {| buid := 2;
     ndef := ("inet:dns:a", VTuple (VStr "vertex.link") (VStr "1.2.3.4"));
     props := [("fqdn", VStr "vertex.link"); ("ipv4", VStr "1.2.3.4")];
     tags := {[ "omit.nopiv" := None ]};
     form := f_dnsa |}.
Definition dom : Node :=
  {| buid := 3; ndef := ("inet:fqdn", VStr "vertex.link"); props := []; tags := ∅;
     form := f_fqdn |}.

(** A storage session over a list of nodes: a node is found by its ndef,
    and by the full name and value of one of its secondary properties. *)
Definition has_prop (n : Node) (prop : string) (v : Valu) : bool :=
  existsb (λ '(name, valu),
             match fprops (form n) !! name with
             | Some p => bool_decide (full p = prop ∧ valu = v)
             | None => false
             end) (props n).

Definition snap_of (m : Model) (nodes : list Node) : Snap :=
  {| model := m;
     getNodeByNdef v := snd <$> list_find (λ n, ndef_valu n = v) nodes;
     getNodesBy prop v := filter (λ n, has_prop n prop v = true) nodes |}.

Definition sn : Snap := snap_of mdl [addr; rec; dom].

Definition default_opts : Opts :=
  {| degrees := 1; traverse_edge := false; join := false;
     omit_traversal_form := []; omit_traversal_tag := [];
     omit_form := []; omit_tag := []; unique := false |}.

Definition with_degrees (d : Z) (o : Opts) : Opts :=
  {| degrees := d; traverse_edge := traverse_edge o; join := join o;
     omit_traversal_form := omit_traversal_form o;
     omit_traversal_tag := omit_traversal_tag o;
     omit_form := omit_form o; omit_tag := omit_tag o; unique := unique o |}.

(** noderefs --omit-traversal-form inet:dns:a *)
Definition otf_opts : Opts :=
  {| degrees := 2; traverse_edge := false; join := false;
     omit_traversal_form := ["inet:dns:a"]; omit_traversal_tag := [];
     omit_form := []; omit_tag := []; unique := false |}.

(** noderefs --omit-traversal-form inet:dns:a --omit-tag omit.nopiv *)
Definition otf_ot_opts : Opts :=
  {| degrees := 2; traverse_edge := false; join := false;
     omit_traversal_form := ["inet:dns:a"]; omit_traversal_tag := [];
     omit_form := []; omit_tag := ["omit.nopiv"]; unique := false |}.

(** noderefs --join --unique *)
Definition join_unique_opts : Opts :=
  {| degrees := 1; traverse_edge := false; join := true;
     omit_traversal_form := []; omit_traversal_tag := [];
     omit_form := []; omit_tag := []; unique := true |}.

(** noderefs --degrees 2 --omit-traversal-form inet:ipv4 *)
Definition otf_source_opts : Opts :=
  {| degrees := 2; traverse_edge := false; join := false;
     omit_traversal_form := ["inet:ipv4"]; omit_traversal_tag := [];
     omit_form := []; omit_tag := []; unique := false |}.

End Graph.

(** ** Python strings: the [str] methods that the sources call *)

Module PyStr.

(** [s.split(sep)] for a separator of one character: the pieces between
    the separators, always at least one piece. *)
Fixpoint split (sep : Ascii.ascii) (s : string) : list string :=
  match s with
  | EmptyString => [EmptyString]
  | String c s' =>
      if decide (c = sep) then EmptyString :: split sep s'
      else
        match split sep s' with
        | w :: ws => String c w :: ws
        | [] => [String c EmptyString]
        end
  end.

(** [s[:n]]; ['%.20s' % s] prints [s[:20]]. *)
Fixpoint take (n : nat) (s : string) : string :=
  match n, s with
  | S n', String c s' => String c (take n' s')
  | _, _ => EmptyString
  end.

(** [c.isspace()] for the code points below 256. *)
Definition isspace (c : Ascii.ascii) : bool :=
  let n := Ascii.nat_of_ascii c in
  ((9 <=? n) && (n <=? 13)) || ((28 <=? n) && (n <=? 32))
  || (n =? 133) || (n =? 160).

Fixpoint lstrip (s : string) : string :=
  match s with
  | EmptyString => EmptyString
  | String c s' => if isspace c then lstrip s' else s
  end.

Fixpoint rstrip (s : string) : string :=
  match s with
  | EmptyString => EmptyString
  | String c s' =>
      match rstrip s' with
      | EmptyString => if isspace c then EmptyString else String c EmptyString
      | rest => String c rest
      end
  end.

(** [s.strip()] *)
Definition strip (s : string) : string := rstrip (lstrip s).

(** The truth value of a string or [None]: empty and [None] are false. *)
Definition truthy (s : option string) : bool :=
  match s with
  | Some (String _ _) => true
  | _ => false
  end.

Definition newline : ascii := "010"%char.

(** [c in s] for a character [c]. *)
Fixpoint has_char (c : ascii) (s : string) : bool :=
  match s with
  | EmptyString => false
  | String c' s' => bool_decide (c' = c) || has_char c s'
  end.

End PyStr.

(** ** Exceptions outside the query runtime

    What the command-line helpers and the Python runtime raise:
    [s_exc.BadSyntaxError] with its [mesg], the built-in TypeError,
    AttributeError and IndexError, and the error of [s_common.uhex] on text
    that is no hexadecimal string. *)

Inductive pyexc :=
| BadSyntaxError (mesg : option string)
| TypeError
| AttributeError
| IndexError
| UhexError.

Inductive outcome (A : Type) :=
| Returns (a : A)
| Fails (e : pyexc).
Arguments Returns {A} a.
Arguments Fails {A} e.

(** ** class Parser *)

Module Parser.

(** [printf] is [None] until [Cmd.hasValidOpts] stores the session's
    [printf] in it ([has_printf]); what that function prints is the list
    [printed]. *)
Record t := {
  prog : string;
  has_printf : bool;
  exited : bool;
}.

Definition _print_message (self : t) (text : string) (printed : list string)
    : list string :=
  if has_printf self then printed ++ PyStr.split PyStr.newline text else printed.

(** [exit] never returns: it gives the exception raised, the parser and the
    lines printed. *)
Definition exit (self : t) (message : option string) (printed : list string)
    : pyexc * t * list string :=
  let printed :=
    match message with
    | Some text =>
        if PyStr.truthy message then _print_message self text printed else printed
    | None => printed
    end in
  (BadSyntaxError message,
   {| prog := prog self; has_printf := has_printf self; exited := true |},
   printed).

End Parser.

(** ** class Cmd *)

Module Cmd.

(** [cls.__doc__.strip().split('\n')[0]]; the docstring of a class that
    has none is [None]. *)
Definition getCmdBrief (doc : option string) : outcome string :=
  match doc with
  | None => Fails AttributeError
  | Some text =>
      match PyStr.split PyStr.newline (PyStr.strip text) with
      | line :: _ => Returns line
      | [] => Fails IndexError
      end
  end.

(** [runStormCmd] of the base class: [yield from genr]. *)
Definition runStormCmd {A} (genr : list A) : list A := genr.

End Cmd.

(** ** class HelpCmd *)

Module HelpCmd.

(** [sorted] compares the (name, ctor) pairs by their names, which are
    pairwise different. *)
Definition name_le (a b : string * option string) : Prop := String.le a.1 b.1.

#[global] Instance name_le_dec a b : Decision (name_le a b).
Proof. unfold name_le. apply _. Defined.

(** Modelled from the spec: the command registry behind
    [snap.core.getStormCmds()] is missing from the sources.  In it "each
    command has a unique name, a one-line brief, and a parameter schema";
    it is a map from the name to the command's class, and the class is
    represented by its [__doc__], the only attribute that [help] reads. *)
Definition listing (cmds : gmap string (option string))
    : list (string * option string) :=
  merge_sort name_le (map_to_list cmds).

(** ['%.20s: %s' % (name, ctor.getCmdBrief())] *)
Definition brief_line (name brief : string) : string :=
  PyStr.take 20 name +:+ ": " +:+ brief.

(** The [for name, ctor in sorted(...)] loop: the exception that ended it,
    if one did, and the lines printed. *)
Fixpoint print_briefs (l : list (string * option string)) (printed : list string)
    : option pyexc * list string :=
  match l with
  | [] => (None, printed)
  | (name, doc) :: rest =>
      match Cmd.getCmdBrief doc with
      | Fails e => (Some e, printed)
      | Returns brief => print_briefs rest (printed ++ [brief_line name brief])
      end
  end.

(** [lines] holds one listing line for each entry of [l], in order. *)
Definition briefs (l : list (string * option string)) (lines : list string) : Prop :=
  Forall2 (λ nd line, ∃ text brief, nd.2 = Some text ∧
             Cmd.getCmdBrief (Some text) = Returns brief ∧
             line = brief_line nd.1 brief) l lines.

Definition footer : list string :=
  [""; "For detailed help on any command, use <cmd> --help"].

(** The items yielded, the exception raised after them (if any), and the
    lines printed.  [command] is [self.opts.command]. *)
Definition runStormCmd {A} (cmds : gmap string (option string))
    (command : option string) (genr : list A)
    : list A * option pyexc * list string :=
  let '(e, printed) :=
    if negb (PyStr.truthy command) then print_briefs (listing cmds) []
    else (None, []) in
  match e with
  | Some e => (genr, Some e, printed)
  | None => (genr, None, printed ++ footer)
  end.

End HelpCmd.

(** ** class UniqCmd *)

Module UniqCmd.
Import NoderefsCmd.

(** The [for node, path in genr] loop with its [buidset]. *)
Fixpoint uniq (genr : list (Node * Path)) (buidset : gset N) : list (Node * Path) :=
  match genr with
  | [] => []
  | (node, path) :: rest =>
      if decide (buid node ∈ buidset) then uniq rest buidset
      else (node, path) :: uniq rest ({[buid node]} ∪ buidset)
  end.

Definition runStormCmd (genr : list (Node * Path)) : list (Node * Path) :=
  uniq genr ∅.

End UniqCmd.

(** ** Generators that run against the runtime

    A command that overrides [execStormCmd] is handed the runtime.  One
    [next()] on such a generator may raise, and may change the runtime;
    [Ok None] is StopIteration. *)

Definition rnext (A U : Type) : Type :=
  U → Runtime.t → result (option (A * U)) * Runtime.t.

(** A list as such a generator: it leaves the runtime alone. *)
Definition list_rnext {A} : rnext A (list A) :=
  λ l rt, (Ok (list_next l), rt).

(** ** class SudoCmd *)

Module SudoCmd.

(** The frame of the generator [execStormCmd]: not yet started, or inside
    [yield from genr]. *)
Inductive state (U : Type) :=
| Created (genr : U)
| Forwarding (genr : U).
Arguments Created {U} genr.
Arguments Forwarding {U} genr.

(** [yield from genr] *)
Definition forward {A U} (unext : rnext A U) (g : U) (rt : Runtime.t)
    : result (option (A * state U)) * Runtime.t :=
  match unext g rt with
  | (Ok (Some (item, g')), rt') => (Ok (Some (item, Forwarding g')), rt')
  | (Ok None, rt') => (Ok None, rt')
  | (Raise e, rt') => (Raise e, rt')
  end.

(** [runt.elevate()] runs on the first [next()]. *)
Definition execStormCmd {A U} (unext : rnext A U) : rnext A (state U) :=
  λ st rt,
    match st with
    | Created g =>
        match Runtime.elevate rt with
        | Raise e => (Raise e, rt)
        | Ok rt' => forward unext g rt'
        end
    | Forwarding g => forward unext g rt
    end.

End SudoCmd.

(** ** class DelNodeCmd *)

Module DelNodeCmd.
Import NoderefsCmd.

(** The argument tuples of the calls to [runt.allowed] for one node: one
    per tag, then the one for the node. *)
Definition tag_perm (tag : string) : list string :=
  "tag:del" :: PyStr.split "." tag.

Definition node_perm (node : Node) : list string :=
  ["node:del"; fname (form node)].

Definition perms (node : Node) : list (list string) :=
  (tag_perm <$> (map_to_list (tags node)).*1) ++ [node_perm node].

(** The calls in order, up to the first that raises. *)
Fixpoint allow_all (rt : Runtime.t) (ps : list (list string))
    : result unit * Runtime.t :=
  match ps with
  | [] => (Ok (), rt)
  | p :: rest =>
      match Runtime.allowed rt p with
      | (Ok _, rt') => allow_all rt' rest
      | (Raise e, rt') => (Raise e, rt')
      end
  end.

(** How a run of the command ended: with StopIteration or an exception,
    the runtime and the upstream generator it left, and the calls
    [node.delete(force=...)] that it made. *)
Record run (U : Type) := {
  ended : result unit;
  runt : Runtime.t;
  genr : U;
  deleted : list (Node * bool);
}.
Arguments ended {U} _.
Arguments runt {U} _.
Arguments genr {U} _.
Arguments deleted {U} _.

(** The test on [--force]: it is given and the principal is no admin. *)
Definition force_denied (force : bool) (rt : Runtime.t) : bool :=
  force && match Runtime.user rt with
           | Some u => negb (Runtime.admin u)
           | None => false
           end.

Section exec.
Context {U : Type} (unext : rnext (Node * Path) U).

(** [node.delete], a method of the storage layer that may raise. *)
Context (delete : Node → bool → result unit).

(** The [for node, path in genr] loop; [None] when [fuel] turns of it did
    not exhaust the upstream generator. *)
Fixpoint loop (force : bool) (fuel : nat) (g : U) (rt : Runtime.t)
    (dels : list (Node * bool)) : option (run U) :=
  match fuel with
  | 0 => None
  | S fuel' =>
      match unext g rt with
      | (Raise e, rt') =>
          Some {| ended := Raise e; runt := rt'; genr := g; deleted := dels |}
      | (Ok None, rt') =>
          Some {| ended := Ok (); runt := rt'; genr := g; deleted := dels |}
      | (Ok (Some ((node, path), g')), rt') =>
          match allow_all rt' (perms node) with
          | (Raise e, rt'') =>
              Some {| ended := Raise e; runt := rt''; genr := g'; deleted := dels |}
          | (Ok _, rt'') =>
              let dels := dels ++ [(node, force)] in
              match delete node force with
              | Raise e =>
                  Some {| ended := Raise e; runt := rt''; genr := g'; deleted := dels |}
              | Ok _ => loop force fuel' g' rt'' dels
              end
          end
      end
  end.

(** The whole generator runs on its first [next()] and yields nothing. *)
Definition execStormCmd (force : bool) (fuel : nat) (g : U) (rt : Runtime.t)
    : option (run U) :=
  if force_denied force rt
  then Some {| ended := Raise (AuthDeny (Some "--force requires admin privs.") None None);
               runt := rt; genr := g; deleted := [] |}
  else loop force fuel g rt [].

End exec.

(** Whether [runt.allowed] passes for the path [p]: it is cached, or no
    principal is attached, or the runtime is elevated, or the rules allow
    it. *)
Definition permitted (rt : Runtime.t) (p : list string) : bool :=
  bool_decide (p ∈ Runtime.memo rt)
  || match Runtime.user rt with
     | None => true
     | Some u => Runtime.elevated rt || Runtime.rules u p
     end.

(** Every check that the command makes for the node passes. *)
Definition clear (rt : Runtime.t) (y : Node * Path) : Prop :=
  Forall (λ p, permitted rt p = true) (perms y.1).

#[global] Instance clear_dec rt y : Decision (clear rt y).
Proof. unfold clear. apply _. Defined.

(** Two runtimes between which the permission checks cannot tell. *)
Definition same_rights (rt rt' : Runtime.t) : Prop :=
  Runtime.user rt' = Runtime.user rt ∧
  Runtime.elevated rt' = Runtime.elevated rt ∧
  ∀ q, permitted rt' q = permitted rt q.

(** [... | delnode] and [... | sudo | delnode] over a list of nodes. *)
Definition delnode (delete : Node → bool → result unit) (force : bool)
    (rt : Runtime.t) (nodes : list (Node * Path)) : option (run (list (Node * Path))) :=
  execStormCmd list_rnext delete force (S (length nodes)) nodes rt.

Definition sudo_delnode (delete : Node → bool → result unit) (force : bool)
    (rt : Runtime.t) (nodes : list (Node * Path))
    : option (run (SudoCmd.state (list (Node * Path)))) :=
  execStormCmd (SudoCmd.execStormCmd list_rnext) delete force
    (S (length nodes)) (SudoCmd.Created nodes) rt.

End DelNodeCmd.

(** ** class Runtime: options, inputs and the query loop *)

Module Query.
Import NoderefsCmd.

(** A value of the [opts] dict: a plain value or a sequence of values. *)
Inductive OptValu :=
| OValu (v : Valu)
| OSeq (l : list Valu).

(** What a [for] loop over such a value runs through; [None] when the
    value cannot be iterated over (TypeError).  A string gives its
    characters, a tuple its two components. *)
Definition py_iter (o : OptValu) : option (list Valu) :=
  match o with
  | OSeq l => Some l
  | OValu (VStr s) => Some ((λ c, VStr (String c EmptyString)) <$> String.list_ascii_of_string s)
  | OValu (VTuple a b) => Some [a; b]
  | OValu (VInt _) => None
  end.

(** The runtime of [Runtime] together with [self.opts], [self.inputs] and
    [self.snap]. *)
Record t := {
  runt : Runtime.t;
  opts : gmap string OptValu;
  inputs : list Node;
  snap : Snap;
}.

Definition getOpt (self : t) (name : string) (defval : option OptValu)
    : option OptValu :=
  match opts self !! name with
  | Some valu => Some valu
  | None => defval
  end.

Definition setOpt (self : t) (name : string) (valu : OptValu) : t :=
  {| runt := runt self; opts := <[name := valu]> (opts self);
     inputs := inputs self; snap := snap self |}.

Definition addInput (self : t) (node : Node) : t :=
  {| runt := runt self; opts := opts self;
     inputs := inputs self ++ [node]; snap := snap self |}.

(** [initPath(node)]: the path that holds only [node]; the variables that
    a path carries are not part of the model of [Path]. *)
Definition initPath (node : Node) : Path := [node].

Section getInput.

(** [s_common.uhex] and [snap.getNodeByBuid], which are not part of these
    sources; [uhex] gives [None] where it raises. *)
Context (uhex : Valu → option N) (getNodeByBuid : N → option Node).

Definition lifted (node : option Node) : list (Node * Path) :=
  match node with
  | Some node => [(node, initPath node)]
  | None => []
  end.

(** The third loop of [getInput]: the pairs yielded and the exception that
    ended the generator, if one did. *)
Fixpoint by_idens (idens : list Valu) : list (Node * Path) * option pyexc :=
  match idens with
  | [] => ([], None)
  | iden :: rest =>
      match uhex iden with
      | None => ([], Some UhexError)
      | Some buid =>
          let '(found, e) := by_idens rest in
          (lifted (getNodeByBuid buid) ++ found, e)
      end
  end.

Definition getInput (self : t) : list (Node * Path) * option pyexc :=
  let first := (λ node, (node, initPath node)) <$> inputs self in
  match from_option py_iter (Some []) (opts self !! "ndefs") with
  | None => (first, Some TypeError)
  | Some ndefs =>
      let second := ndefs ≫= (λ ndef, lifted (getNodeByNdef (snap self) ndef)) in
      match from_option py_iter (Some []) (opts self !! "idens") with
      | None => (first ++ second, Some TypeError)
      | Some idens =>
          let '(third, e) := by_idens idens in
          (first ++ second ++ third, e)
      end
  end.

End getInput.

(** [self.opts.setdefault(name, valu)] *)
Definition setdefault (name : string) (valu : OptValu) (o : gmap string OptValu)
    : gmap string OptValu :=
  match o !! name with
  | Some _ => o
  | None => <[name := valu]> o
  end.

(** The first loop of [iterStormQuery], over [query.opts.items()]. *)
Definition init_opts (self : t) (query_opts : gmap string OptValu) : t :=
  {| runt := runt self;
     opts := foldl (λ o kv, setdefault kv.1 kv.2 o) (opts self) (map_to_list query_opts);
     inputs := inputs self; snap := snap self |}.

(** [query.iterNodePaths(self)]: a generator that is handed the runtime. *)
Definition qnext (A U : Type) : Type := U → t → result (option (A * U)) * t.

Inductive state (U : Type) :=
| Created (genr : U)
| Running (genr : U).
Arguments Created {U} genr.
Arguments Running {U} genr.

(** One turn of the second loop: pull, [self.tick()], yield. *)
Definition pull {A U} (unext : qnext A U) (g : U) (self : t)
    : result (option (A * state U)) * t :=
  match unext g self with
  | (Raise e, self') => (Raise e, self')
  | (Ok None, self') => (Ok None, self')
  | (Ok (Some (item, g')), self') =>
      match Runtime.tick (runt self') with
      | Raise e => (Raise e, self')
      | Ok _ => (Ok (Some (item, Running g')), self')
      end
  end.

Definition iterStormQuery {A U} (query_opts : gmap string OptValu)
    (unext : qnext A U) : qnext A (state U) :=
  λ st self,
    match st with
    | Created g => pull unext g (init_opts self query_opts)
    | Running g => pull unext g self
    end.

(** The loop of [execStormQuery]; [None] when [fuel] turns of it did not
    exhaust the query. *)
Fixpoint count_loop {A U} (next : qnext A U) (fuel : nat) (g : U) (self : t)
    (count : nat) : option (result nat * t) :=
  match fuel with
  | 0 => None
  | S fuel' =>
      match next g self with
      | (Raise e, self') => Some (Raise e, self')
      | (Ok None, self') => Some (Ok count, self')
      | (Ok (Some (_, g')), self') => count_loop next fuel' g' self' (S count)
      end
  end.

Definition execStormQuery {A U} (query_opts : gmap string OptValu)
    (unext : qnext A U) (fuel : nat) (g : U) (self : t)
    : option (result nat * t) :=
  count_loop (iterStormQuery query_opts unext) fuel (Created g) self 0.

(** A query whose node stream is a list and leaves the runtime alone. *)
Definition list_qnext {A} : qnext A (list A) :=
  λ l self, (Ok (list_next l), self).

Definition cancel (self : t) : t :=
  {| runt := Runtime.cancel (runt self); opts := opts self;
     inputs := inputs self; snap := snap self |}.

(** [execStormQuery] on a query that yields the items of a list. *)
Definition exec_list {A} (query_opts : gmap string OptValu) (l : list A) (self : t)
    : option (result nat * t) :=
  execStormQuery query_opts list_qnext (S (length l)) l self.

End Query.

(** ** class IdenCmd *)

Module IdenCmd.
Import NoderefsCmd.

Section exec.
Context (uhex : Valu → option N) (getNodeByBuid : N → option Node).

(** The [for iden in self.opts.iden] loop: the pairs yielded and the
    warnings given. *)
Fixpoint by_idens (idens : list string) : list (Node * Path) * list string :=
  match idens with
  | [] => ([], [])
  | iden :: rest =>
      let '(found, warned) := by_idens rest in
      match uhex (VStr iden) with
      | None => (found, ("Failed to decode iden: [" +:+ iden +:+ "]") :: warned)
      | Some buid => (Query.lifted (getNodeByBuid buid) ++ found, warned)
      end
  end.

Definition execStormCmd (opts_iden : list string) (genr : list (Node * Path))
    : list (Node * Path) * list string :=
  let '(found, warned) := by_idens opts_iden in
  (genr ++ found, warned).

End exec.

End IdenCmd.

(** ** class AuthCmd (synapse/cmds/auth.py) *)

Module AuthCmd.

(** The values of the options dict that the command line parser hands
    over: [None], a flag, a number or text. *)
Inductive pyval :=
| PNone
| PBool (b : bool)
| PInt (z : Z)
| PStr (s : string).

#[global] Instance pyval_eq_dec : EqDecision pyval.
Proof. solve_decision. Defined.

(** The truth value that [if] and [not] see. *)
Definition truthy (v : pyval) : bool :=
  match v with
  | PNone => false
  | PBool b => b
  | PInt z => negb (z =? 0)%Z
  | PStr s => negb (bool_decide (s = ""))
  end.

(** [opts.get(key)], and the value of [opts.pop(key, None)]. *)
Definition get (opts : gmap string pyval) (key : string) : pyval :=
  default PNone (opts !! key).

(** A call [s_tufo.tufo(name, **props)] is kept as its arguments: the
    name and the keyword arguments, which is also the shape of the literal
    tuple in [runCmdOpts].  A rule is named by the value of [--rule]; a
    message is named by text and may carry a rule. *)
Record rulefo := {
  rtype : pyval;
  rprops : gmap string pyval;
}.

Inductive arg :=
| AVal (v : pyval)
| ARule (r : rulefo).

Record mesg := {
  mtype : string;
  margs : gmap string arg;
}.

(** ['enum:vals'] of [--type]. *)
Inductive kind := user | role.

#[global] Instance kind_eq_dec : EqDecision kind.
Proof. solve_decision. Defined.

Definition kind_name (typ : kind) : string :=
  match typ with
  | user => "user"
  | role => "role"
  end.

Definition getmap : gmap string string := {[ "user" := "users"; "role" := "roles" ]}.
Definition typmap : gmap string string := {[ "user" := "user"; "role" := "role" ]}.
Definition modmap : gmap string string := {[ "user" := "urule"; "role" := "rrule" ]}.

(** The result and the options dict that the call leaves. *)
Definition formRulefo (opts : gmap string pyval)
    : outcome (option rulefo) * gmap string pyval :=
  let rtype := get opts "rule" in
  let opts := delete "rule" opts in
  if negb (truthy rtype) then (Returns None, opts)
  else
    let form := get opts "form" in
    let prop := get opts "prop" in
    let tag := get opts "tag" in
    if truthy tag then
      if truthy form || truthy prop
      then (Fails (BadSyntaxError (Some "Cannot form rulefo with tag and (form OR prop)")),
            opts)
      else (Returns (Some {| rtype := rtype; rprops := {[ "tag" := tag ]} |}), opts)
    else if truthy form && truthy prop
    then (Returns (Some {| rtype := rtype;
                           rprops := {[ "form" := form; "prop" := prop ]} |}), opts)
    else if truthy form && negb (truthy prop)
    then (Returns (Some {| rtype := rtype; rprops := {[ "form" := form ]} |}), opts)
    else if negb (truthy form || truthy prop || truthy tag)
    then (Returns None, opts)
    else (Fails (BadSyntaxError (Some "Failed to form rulefo")), opts).

Definition getMsg (stub : string) (name : pyval) (typ : kind)
    (opts : gmap string pyval) : outcome mesg * gmap string pyval :=
  if negb (truthy name)
  then (Fails (BadSyntaxError (Some "Addition requires a name")), opts)
  else
    let args : gmap string arg := {[ kind_name typ := AVal name ]} in
    let admin := get opts "admin" in
    let opts := delete "admin" opts in
    if truthy admin && bool_decide (kind_name typ = "user")
    then (Returns {| mtype := String.concat ":" [stub; "admin"]; margs := args |}, opts)
    else
      let role := get opts "role" in
      let opts := delete "role" opts in
      if truthy role && bool_decide (kind_name typ = "user")
      then (Returns {| mtype := String.concat ":" [stub; "urole"];
                       margs := <["role" := AVal role]> args |}, opts)
      else
        match formRulefo opts with
        | (Fails e, opts) => (Fails e, opts)
        | (Returns None, opts) =>
            (Returns {| mtype := String.concat ":" [stub; kind_name typ];
                        margs := args |}, opts)
        | (Returns (Some rule), opts) =>
            match modmap !! kind_name typ with
            | Some (String _ _ as mod_) =>
                (Returns {| mtype := String.concat ":" [stub; mod_];
                            margs := <["rule" := ARule rule]> args |}, opts)
            | _ => (Fails (BadSyntaxError (Some "wut")), opts)
            end
        end.

(** The part of [runCmdOpts] that forms the message to send.  [act] and
    [typ] are the values under ['act'] and ['type'], which the parser always
    supplies; the three [pop] calls take them and ['name'] out of [opts]. *)
Definition runCmdOpts_mesg (act : string) (typ : kind) (opts : gmap string pyval)
    : outcome mesg * gmap string pyval :=
  let opts := delete "type" (delete "act" opts) in
  let name := get opts "name" in
  let opts := delete "name" opts in
  if bool_decide (act = "get") then
    if truthy name then
      match typmap !! kind_name typ with
      | Some key =>
          (Returns {| mtype := "auth:req:" +:+ kind_name typ;
                      margs := {[ key := AVal name ]} |}, opts)
      | None => (Fails TypeError, opts)
      end
    else
      (Returns {| mtype := "auth:get:" +:+ default "None" (getmap !! kind_name typ);
                  margs := ∅ |}, opts)
  else if bool_decide (act = "add") then getMsg "auth:add" name typ opts
  else if bool_decide (act = "del") then getMsg "auth:del" name typ opts
  else (Fails (BadSyntaxError (Some "Unknown action provided")), opts).

End AuthCmd.

(** ** Options to run [noderefs] with *)

Module Runs.
Import NoderefsCmd Graph.

(** noderefs --unique *)
Definition unique_opts : Opts :=
  {| degrees := 2; traverse_edge := false; join := false;
     omit_traversal_form := []; omit_traversal_tag := [];
     omit_form := []; omit_tag := []; unique := true |}.

(** A principal that may delete addresses and nothing else. *)
Definition visi : Runtime.User :=
  {| Runtime.name := "visi"; Runtime.admin := false;
     Runtime.rules := λ p, bool_decide (p = ["node:del"; "inet:ipv4"]) |}.

(** A storage layer in which every deletion succeeds. *)
Definition delete_ok : Node → bool → result unit := λ _ _, Ok ().

(** The idens ["01"], ["02"] and ["03"] decode to the buids of the three
    nodes of the small graph; no other text decodes. *)
Definition hexes (iden : Valu) : option N :=
  if decide (iden = VStr "01") then Some 1%N
  else if decide (iden = VStr "02") then Some 2%N
  else if decide (iden = VStr "03") then Some 3%N
  else None.

Definition node_of_buid (b : N) : option Node :=
  snd <$> list_find (λ n, buid n = b) [addr; rec; dom].

(** A runtime with one attached input, two ndefs (the second names no
    node) and three idens (the second does not decode). *)
Definition lifting : Query.t :=
  {| Query.runt := Runtime.init None;
     Query.opts := {[ "ndefs" := Query.OSeq [ndef_valu dom; VStr "nope"];
                      "idens" := Query.OSeq [VStr "01"; VStr "zz"; VStr "03"] ]};
     Query.inputs := [rec];
     Query.snap := sn |}.

End Runs.

(* ===================================================================== *)
(** * Part II: properties                                                 *)
(* ===================================================================== *)

(** ** Lists *)

Lemma filter_none {A} (P : A → Prop) `{∀ x, Decision (P x)} (l : list A) :
  (∀ x, x ∈ l → ¬ P x) → filter P l = [].
Proof.
  induction l as [|x l IH]; intros Hl; [done|].
  rewrite filter_cons_False by (apply Hl; by left).
  apply IH. intros y Hy. apply Hl. by right.
Qed.

(** In a list without two elements of the same key, each element is the
    only one with its key. *)
Lemma filter_key_once {A} `{EqDecision K} (f : A → K) (l : list A) (x : A) :
  NoDup (f <$> l) → x ∈ l → length (filter (λ y, f y = f x) l) = 1.
Proof.
  induction l as [|y l IH]; [by intros _ ?%elem_of_nil|].
  simpl. intros [Hny Hnd]%NoDup_cons [->|Hin]%elem_of_cons.
  - rewrite filter_cons_True by done. simpl. f_equal.
    rewrite filter_none; [done|].
    intros z Hz Hfz. apply Hny. rewrite <-Hfz. by apply list_elem_of_fmap_2.
  - rewrite filter_cons_False; [by apply IH|].
    intros Hfy. apply Hny. rewrite Hfy. by apply list_elem_of_fmap_2.
Qed.

(** ** Runtime: permission checks and elevation *)

Section RuntimeProps.
Import Runtime.

Lemma step_elevated rt ev : elevated rt = true → elevated (step rt ev) = true.
Proof.
  intros H. destruct ev as [args| | |adm r]; simpl; try done.
  - unfold allowed, memoize. case_decide; [done|].
    unfold allowed_body. destruct (user rt); rewrite ?H; done.
  - unfold elevate. destruct (user rt) as [u|]; [destruct (admin u)|]; done.
Qed.

Lemma run_elevated evs rt : elevated rt = true → elevated (run evs rt) = true.
Proof.
  revert rt. induction evs as [|ev evs IH]; intros rt H; [done|].
  apply IH, step_elevated, H.
Qed.

Lemma step_memo rt ev : memo rt ⊆ memo (step rt ev).
Proof.
  destruct ev as [args| | |adm r]; simpl; try done.
  - unfold allowed, memoize. case_decide; [done|].
    unfold allowed_body.
    destruct (user rt) as [u|]; [destruct (elevated rt); [|destruct (rules u args)]|];
      simpl; set_solver.
  - unfold elevate. destruct (user rt) as [u|]; [destruct (admin u)|]; done.
Qed.

Lemma run_memo evs rt : memo rt ⊆ memo (run evs rt).
Proof.
  revert rt. induction evs as [|ev evs IH]; intros rt; [done|].
  simpl. etrans; [apply step_memo|apply IH].
Qed.

Lemma allowed_elevated rt args :
  elevated rt = true → (allowed rt args).1 = Ok ().
Proof.
  intros H. unfold allowed, memoize. case_decide; [done|].
  unfold allowed_body. destruct (user rt); rewrite ?H; done.
Qed.

Lemma allowed_cached rt args :
  args ∈ memo rt → allowed rt args = (Ok (), rt).
Proof. intros H. unfold allowed, memoize. by rewrite decide_True. Qed.

Lemma allowed_ok_memo rt args rt' :
  allowed rt args = (Ok (), rt') → memo rt' = memo rt ∨ memo rt' = {[args]} ∪ memo rt.
Proof.
  unfold allowed, memoize. case_decide; [intros [= <-]; by left|].
  unfold allowed_body.
  destruct (user rt) as [u|]; [destruct (elevated rt); [|destruct (rules u args)]|];
    intros [= <-]; by right.
Qed.

(** C9. [elevate] fails with AuthDeny whenever the attached principal is
    not administrative, and only then: for an administrative principal, and
    when no principal is attached, it succeeds, sets the elevation flag and
    changes nothing else.  When it succeeds the elevation flag is set, and
    from then on every permission check of the query succeeds, whatever
    else happens to the runtime in between. *)
Theorem elevate_requires_admin (rt : t) :
  (∀ u, user rt = Some u → admin u = false →
        raises_AuthDeny (elevate rt) = true) ∧
  ((∀ u, user rt = Some u → admin u = true) →
        ∃ rt', elevate rt = Ok rt' ∧ elevated rt' = true ∧
               user rt' = user rt ∧ canceled rt' = canceled rt ∧
               memo rt' = memo rt ∧ evals rt' = evals rt) ∧
  (∀ rt', elevate rt = Ok rt' →
        (∀ u, user rt = Some u → admin u = true) ∧
        elevated rt' = true ∧
        ∀ evs args, (allowed (run evs rt') args).1 = Ok ()).
Proof.
  split_and!.
  - intros u Hu Hadm. unfold elevate. by rewrite Hu, Hadm.
  - intros Hadm. unfold elevate.
    destruct (user rt) as [u|] eqn:Hu.
    + rewrite (Hadm u eq_refl). simpl. eexists. split; [done|]. simpl.
      by rewrite ?Hu.
    + eexists. split; [done|]. simpl. by rewrite ?Hu.
  - intros rt' Hok. unfold elevate in Hok.
    assert (elevated rt' = true ∧ ∀ u, user rt = Some u → admin u = true)
      as [Hel Hadm].
    { destruct (user rt) as [u|] eqn:Hu.
      - destruct (admin u) eqn:Ha; simpl in Hok; [|done].
        injection Hok as <-. split; [done|]. by intros ? [= <-].
      - injection Hok as <-. by split. }
    split_and!; [done..|].
    intros evs args. by apply allowed_elevated, run_elevated.
Qed.

Lemma elevate_requires_admin_witness :
  let visi := {| name := "visi"; admin := false; rules := λ _, false |} in
  let root := {| name := "root"; admin := true; rules := λ _, false |} in
  (* a principal that is no admin is denied *)
  raises_AuthDeny (elevate (init (Some visi))) = true ∧
  (* an admin is elevated, and then passes a check that the rules deny,
     also after losing the admin flag *)
  (∃ rt', elevate (init (Some root)) = Ok rt' ∧ elevated rt' = true ∧
          (allowed rt' ["node"; "del"]).1 = Ok () ∧
          (allowed (run [PrincipalChanged false (λ _, false)] rt') ["node"; "del"]).1
          = Ok ()) ∧
  (* without a principal the runtime is elevated as well *)
  (∃ rt', elevate (init None) = Ok rt' ∧ elevated rt' = true).
Proof.
  intros visi root. split_and!.
  - apply (proj1 (elevate_requires_admin (init (Some visi))) visi); reflexivity.
  - destruct (proj1 (proj2 (elevate_requires_admin (init (Some root)))))
      as (rt' & Hok & Hel & _).
    { intros u [= <-]. reflexivity. }
    destruct (proj2 (proj2 (elevate_requires_admin (init (Some root)))) rt' Hok)
      as (_ & _ & Hall).
    exists rt'. split_and!; [exact Hok|exact Hel|exact (Hall [] _)|exact (Hall _ _)].
  - destruct (proj1 (proj2 (elevate_requires_admin (init None))))
      as (rt' & Hok & Hel & _).
    { intros u Hu. discriminate Hu. }
    exists rt'. split; [exact Hok|exact Hel].
Defined.

(** C3. A denied [allowed] call is not cached: it raises AuthDeny after
    consulting the principal's rules, leaves the cache unchanged, and an
    identical call right after it consults the rules again and raises
    AuthDeny again.  A successful call is cached under its exact ordered
    path: the same path keeps succeeding for the rest of the query, even if
    the principal's rules change, while no other path enters the cache. *)
Theorem allowed_caches_success_only (rt : t) (args : list string) :
  (∀ e rt1, allowed rt args = (Raise e, rt1) →
      is_AuthDeny e = true ∧
      memo rt1 = memo rt ∧ (args ∉ memo rt1) ∧ evals rt1 = S (evals rt) ∧
      ∃ e2 rt2, allowed rt1 args = (Raise e2, rt2) ∧ is_AuthDeny e2 = true ∧
                memo rt2 = memo rt ∧ evals rt2 = S (S (evals rt))) ∧
  (∀ rt1, allowed rt args = (Ok (), rt1) →
      args ∈ memo rt1 ∧
      (∀ other, other ∈ memo rt1 → other = args ∨ other ∈ memo rt) ∧
      ∀ evs, allowed (run evs rt1) args = (Ok (), run evs rt1)).
Proof.
  split.
  - intros e rt1. unfold allowed, memoize. case_decide as Hin; [done|].
    unfold allowed_body at 1.
    destruct (user rt) as [u|] eqn:Hu; [|done].
    destruct (elevated rt) eqn:Hel; [done|].
    destruct (rules u args) eqn:Hr; [done|].
    intros [= <- <-]. simpl. split_and!; [done..|].
    rewrite decide_False by done.
    unfold allowed_body. simpl. rewrite ?Hu, ?Hel, ?Hr. simpl. eauto 10.
  - intros rt1 Hok.
    assert (args ∈ memo rt1) as Hin.
    { revert Hok. unfold allowed, memoize. case_decide; [by intros [= <-]|].
      unfold allowed_body.
      destruct (user rt) as [u|]; [destruct (elevated rt); [|destruct (rules u args)]|];
        intros [= <-]; simpl; set_solver. }
    split_and!; [done| |].
    + intros other. destruct (allowed_ok_memo _ _ _ Hok) as [Hm|Hm];
        rewrite Hm; rewrite ?elem_of_union, ?elem_of_singleton; tauto.
    + intros evs. apply allowed_cached. by apply run_memo.
Qed.

Lemma allowed_caches_success_only_witness :
  let visi := {| name := "visi"; admin := false;
                 rules := λ p, bool_decide (p = ["foo"; "bar"]) |} in
  let rt := init (Some visi) in
  (* denied twice, evaluated twice *)
  (∃ e2 rt2, allowed (allowed rt ["hehe"; "haha"]).2 ["hehe"; "haha"] = (Raise e2, rt2)
             ∧ is_AuthDeny e2 = true ∧ evals rt2 = 2) ∧
  (* granted once, then kept although the rule is withdrawn *)
  (allowed (run [PrincipalChanged false (λ _, false)] (allowed rt ["foo"; "bar"]).2)
           ["foo"; "bar"]).1 = Ok ().
Proof.
  intros visi rt. split.
  - destruct (proj1 (allowed_caches_success_only rt ["hehe"; "haha"])
                _ _ eq_refl) as (_ & _ & _ & _ & e2 & rt2 & H2 & Hd & _ & Hev).
    exists e2, rt2. split_and!; [exact H2|exact Hd|exact Hev].
  - destruct (proj2 (allowed_caches_success_only rt ["foo"; "bar"])
                (allowed rt ["foo"; "bar"]).2 eq_refl) as (_ & _ & Hkeep).
    exact (f_equal fst (Hkeep [PrincipalChanged false (λ _, false)])).
Defined.

End RuntimeProps.

(** ** limit *)

Section LimitProps.
Import LimitCmd.
Context {A U : Type} (unext : U → option (A * U)) (n : Z).

(** Every demand forwards an item or ends the stream, and whenever an item
    is pulled without being forwarded the stream ends with the report. *)
Lemma consume_pulls fuel (st : state U) :
  let r := consume unext n fuel st in
  pulled r.2 ≤ pulled st + length r.1 + 1 ∧
  (pulled r.2 = pulled st + length r.1 + 1 →
     finished r.2 = true ∧
     printed r.2 = printed st ++ ["limit reached: " +:+ pretty n]).
Proof.
  revert st. induction fuel as [|fuel IH]; intros st; simpl; [lia|].
  unfold next.
  destruct (finished st); simpl; [lia|].
  destruct (unext (genr st)) as [[item g']|]; simpl; [|lia].
  destruct (n <=? count st)%Z; simpl; [split; [lia|done]|].
  specialize (IH {| genr := g'; count := (count st + 1)%Z; finished := false;
                    printed := printed st; pulled := S (pulled st) |}).
  destruct (consume _ _ _ _) as [items st'']. simpl in *.
  destruct IH as [IH1 IH2]. split; [lia|]. intros H. apply IH2. lia.
Qed.

Lemma consume_length fuel (st : state U) :
  length (consume unext n fuel st).1 ≤ Z.to_nat (n - count st).
Proof.
  revert st. induction fuel as [|fuel IH]; intros st; simpl; [lia|].
  unfold next.
  destruct (finished st); simpl; [lia|].
  destruct (unext (genr st)) as [[item g']|]; simpl; [|lia].
  destruct (Z.leb_spec n (count st)); simpl; [lia|].
  specialize (IH {| genr := g'; count := (count st + 1)%Z; finished := false;
                    printed := printed st; pulled := S (pulled st) |}).
  destruct (consume _ _ _ _) as [items st'']. simpl in *. lia.
Qed.

End LimitProps.

Section LimitListProps.
Import LimitCmd.
Context {A : Type} (n : Z).

(** Over a list the run of the generator has a closed form. *)
Lemma consume_list (l : list A) : ∀ fuel c out p,
  length l < fuel →
  let k := Z.to_nat (n - c) in
  let r := consume list_next n fuel
             {| genr := l; count := c; finished := false; printed := out; pulled := p |} in
  r.1 = take k l ∧
  genr r.2 = drop (S k) l ∧
  pulled r.2 = p + length l `min` S k ∧
  finished r.2 = true ∧
  printed r.2 = out ++ (if decide (k < length l)
                         then ["limit reached: " +:+ pretty n] else []).
Proof.
  induction l as [|x l IH]; intros fuel c out p Hfuel k r.
  - subst r. destruct fuel as [|fuel]; [simpl in Hfuel; lia|]. simpl.
    rewrite take_nil, app_nil_r. split_and!; try done; lia.
  - subst r. destruct fuel as [|fuel]; [simpl in Hfuel; lia|].
    simpl in Hfuel. simpl consume. unfold next. simpl.
    destruct (Z.leb_spec n c) as [Hle|Hlt]; simpl.
    + assert (k = 0) as -> by (subst k; lia). simpl.
      rewrite drop_0. split_and!; try done; lia.
    + assert (k = S (Z.to_nat (n - (c + 1)))) as Hk by (subst k; lia).
      specialize (IH fuel (c + 1)%Z out (S p) ltac:(lia)). simpl in IH.
      destruct (consume _ _ _ _) as [items st'']. simpl in *.
      destruct IH as (-> & -> & -> & -> & ->). rewrite Hk. simpl.
      split_and!; [done|done|lia|done|].
      f_equal. repeat case_decide; try done; lia.
Qed.

(** A consumer that stops early has received a prefix of the same items. *)
Lemma consume_take fuel : ∀ (l : list A) c out p,
  (consume list_next n fuel
     {| genr := l; count := c; finished := false; printed := out; pulled := p |}).1
  = take (fuel `min` Z.to_nat (n - c)) l.
Proof.
  induction fuel as [|fuel IH]; intros l c out p; simpl; [done|].
  unfold next; simpl. destruct l as [|x l]; simpl.
  { by rewrite take_nil. }
  destruct (Z.leb_spec n c) as [Hle|Hlt]; simpl.
  { replace (Z.to_nat (n - c)) with 0 by lia. done. }
  specialize (IH l (c + 1)%Z out (S p)).
  destruct (consume _ _ _ _) as [items st'']. simpl in *.
  replace (Z.to_nat (n - c)) with (S (Z.to_nat (n - (c + 1)))) by lia.
  simpl. by rewrite IH.
Qed.

Lemma runStormCmd_list (l : list A) :
  let k := Z.to_nat n in
  let r := runStormCmd n l in
  r.1 = take k l ∧
  pulled r.2 = length l `min` S k ∧
  genr r.2 = drop (S k) l ∧
  finished r.2 = true ∧
  printed r.2 = if decide (k < length l)
                then ["limit reached: " +:+ pretty n] else [].
Proof.
  intros k r. subst r. unfold runStormCmd, start.
  destruct (consume_list l (S (length l)) 0%Z [] 0 ltac:(lia))
    as (H1 & H2 & H3 & H4 & H5).
  replace (Z.to_nat (n - 0)) with k in * by (subst k; f_equal; lia).
  by rewrite H1, H2, H3, H4, H5.
Qed.

End LimitListProps.

Section LimitClaim.
Import LimitCmd.

(** C2, as the code has it.  Over any upstream, [limit n] forwards at most
    [n] items and pulls at most one item more than it forwards; when it has
    pulled one more, the stream has ended with the report.  That extra pull
    is what the next demand does once [n] items are through: it takes a
    further item from upstream if there is one, drops it, prints the report
    and ends.  Over a list, the drained command forwards the first [n]
    items (all of them when there are fewer, none when [n] is negative) and
    has pulled [n+1] items, or all when there are not that many: [limit 2]
    over five items forwards two and pulls three. *)
Theorem limit_forwards_count_pulls_one_more {A : Type} (n : Z) :
  (∀ (U : Type) (unext : U → option (A * U)) (g : U) (fuel : nat),
     let r := consume unext n fuel (start g) in
     length r.1 ≤ Z.to_nat n ∧
     pulled r.2 ≤ length r.1 + 1 ∧
     (pulled r.2 = length r.1 + 1 →
        finished r.2 = true ∧ printed r.2 = ["limit reached: " +:+ pretty n])) ∧
  (∀ (U : Type) (unext : U → option (A * U)) (st : state U) item g',
     finished st = false → (n ≤ count st)%Z →
     unext (genr st) = Some (item, g') →
     next unext n st =
       (None, {| genr := g'; count := count st; finished := true;
                 printed := printed st ++ ["limit reached: " +:+ pretty n];
                 pulled := S (pulled st) |})) ∧
  (∀ (l : list A) (fuel : nat),
     (consume list_next n fuel (start l)).1 = take (fuel `min` Z.to_nat n) l) ∧
  (∀ l : list A,
     let k := Z.to_nat n in
     let r := runStormCmd n l in
     r.1 = take k l ∧
     pulled r.2 = length l `min` S k ∧
     genr r.2 = drop (S k) l ∧
     printed r.2 = if decide (k < length l)
                   then ["limit reached: " +:+ pretty n] else []).
Proof.
  split_and!.
  - intros U unext g fuel r.
    pose proof (consume_length unext n fuel (start g)) as Hlen.
    pose proof (consume_pulls unext n fuel (start g)) as [Hle Hrep].
    fold r in Hlen, Hle, Hrep. simpl in *.
    split_and!; [lia|lia|]. intros H. by apply Hrep.
  - intros U unext st item g' Hfin Hcount Hnext. unfold next.
    rewrite Hfin, Hnext. by destruct (Z.leb_spec n (count st)); [|lia].
  - intros l fuel. unfold start. rewrite consume_take. do 2 f_equal. lia.
  - intros l k r. destruct (runStormCmd_list n l) as (H1 & H2 & H3 & _ & H5).
    done.
Qed.

Lemma limit_forwards_count_pulls_one_more_witness :
  let r := LimitCmd.runStormCmd 2 [10; 20; 30; 40; 50] in
  r.1 = [10; 20] ∧ LimitCmd.pulled r.2 = 3 ∧ LimitCmd.genr r.2 = [40; 50] ∧
  LimitCmd.printed r.2 = ["limit reached: 2"].
Proof.
  destruct (limit_forwards_count_pulls_one_more (A := nat) 2) as (_ & _ & _ & H).
  exact (H [10; 20; 30; 40; 50]).
Defined.

End LimitClaim.

(** C2, as the claim states it, fails: draining [limit 2] over five items
    forwards two of them and has by then taken a third from upstream. *)
Lemma limit_pulls_a_third_item :
  let r := LimitCmd.runStormCmd 2 [10; 20; 30; 40; 50] in
  r.1 = [10; 20] ∧
  LimitCmd.genr r.2 = [40; 50] ∧
  ¬ (LimitCmd.pulled r.2 ≤ 2).
Proof. vm_compute. split_and!; [done..|lia]. Qed.

(** ** count *)

Section CountProps.
Import CountCmd.
Context {A U : Type} (unext : U → option (A * U)).

(** C10. Over an upstream that yields nothing, [count] yields nothing and
    prints exactly one line, "Counted 0 nodes.". *)
Theorem count_empty_reports_zero (g : U) (fuel : nat) :
  unext g = None →
  let r := consume unext (S fuel) (start g) in
  r.1 = [] ∧ printed r.2 = ["Counted 0 nodes."] ∧ finished r.2 = true ∧ i r.2 = 0%Z.
Proof. intros Hg. simpl. unfold next. simpl. by rewrite Hg. Qed.

End CountProps.

Lemma count_empty_reports_zero_witness :
  (CountCmd.runStormCmd (@nil nat)).1 = [] ∧
  CountCmd.printed (CountCmd.runStormCmd (@nil nat)).2 = ["Counted 0 nodes."].
Proof.
  destruct (count_empty_reports_zero list_next (@nil nat) 0 eq_refl) as (H1 & H2 & _).
  split; [exact H1|exact H2].
Defined.

Section CountListProps.
Import CountCmd.
Context {A : Type}.

Lemma count_consume_list (l : list A) : ∀ fuel c out,
  length l < fuel →
  let r := consume list_next fuel
             {| genr := l; i := c; finished := false; printed := out |} in
  r.1 = l ∧ finished r.2 = true ∧
  printed r.2 = out ++ ["Counted " +:+ pretty (c + Z.of_nat (length l))%Z +:+ " nodes."].
Proof.
  induction l as [|x l IH]; intros fuel c out Hfuel;
    (destruct fuel as [|fuel]; [simpl in Hfuel; lia|]); simpl.
  - by rewrite Z.add_0_r.
  - unfold next. simpl. simpl in Hfuel.
    specialize (IH fuel (c + 1)%Z out ltac:(lia)). simpl in IH.
    destruct (consume _ _ _) as [items st'']. simpl in *.
    destruct IH as (-> & -> & ->). split_and!; try done.
    replace (c + 1 + Z.of_nat (length l))%Z with (c + Z.of_nat (S (length l)))%Z by lia.
    done.
Qed.

(** X19. Over any list, [count] forwards every item, unchanged and in order,
    and then reports how many there were. *)
Lemma count_forwards_and_reports (l : list A) :
  (runStormCmd l).1 = l ∧
  printed (runStormCmd l).2 = ["Counted " +:+ pretty (Z.of_nat (length l)) +:+ " nodes."].
Proof.
  unfold runStormCmd, start.
  destruct (count_consume_list l (S (length l)) 0%Z [] ltac:(lia)) as (H1 & _ & H3).
  split; [done|]. by rewrite H3.
Qed.

End CountListProps.

(** ** noderefs *)

Section NoderefsProps.
Import NoderefsCmd.
Context (self : Cmd).

Lemma elem_of_candidates c srcs :
  c ∈ candidates self srcs ↔ ∃ m, m ∈ srcs ∧ c ∈ getRefs self m.1 m.2.
Proof. unfold candidates. rewrite list_elem_of_bind. naive_solver. Qed.

Lemma elem_of_buids b l : b ∈ buids l ↔ ∃ y, y ∈ l ∧ buid y.1 = b.
Proof. unfold buids. rewrite list_elem_of_fmap. naive_solver. Qed.

Lemma refs_loop_spec cands : ∀ vis queue,
  loop_spec self cands vis queue (refs_loop self cands vis queue).
Proof.
  induction cands as [|[pnode ppath] rest IH]; intros vis queue.
  { split; simpl; try set_solver.
    - constructor.
    - by rewrite filter_nil, app_nil_r. }
  simpl. destruct (decide (buid pnode ∈ vis)) as [Hin|Hnin].
  - (* already visited: continue *)
    destruct (IH vis queue) as [H1 H2 H3 H4 H5 H6 H7 H8].
    split; try done.
    + intros c [->|Hc]%elem_of_cons; [by apply H1|by apply H2].
    + intros b Hb. destruct (H3 b Hb) as [?|(c & ? & ?)]; [by left|].
      right. exists c. split; [by apply elem_of_cons; right|done].
    + intros y Hy. destruct (H5 y Hy) as (? & ? & ?).
      split_and!; [by apply elem_of_cons; right|done..].
    + intros c [->|Hc]%elem_of_cons Hv; [done|].
      destruct (H7 c Hc Hv) as (c' & ? & ? & ?).
      exists c'. split_and!; [by apply elem_of_cons; right|done..].
  - destruct (omitted self pnode) eqn:Hom.
    + (* marked visited, then omitted: continue *)
      destruct (IH ({[buid pnode]} ∪ vis) queue) as [H1 H2 H3 H4 H5 H6 H7 H8].
      split; try done.
      * set_solver.
      * intros c [->|Hc]%elem_of_cons; [set_solver|by apply H2].
      * intros b Hb. destruct (H3 b Hb) as [[Hb'|?]%elem_of_union|(c & ? & ?)].
        -- right. exists (pnode, ppath). split; [by left|]. set_solver.
        -- by left.
        -- right. exists c. split; [by apply elem_of_cons; right|done].
      * intros y Hy. destruct (H5 y Hy) as (? & ? & ?).
        split_and!; [by apply elem_of_cons; right|set_solver|done].
      * intros c [->|Hc]%elem_of_cons Hv.
        -- exists (pnode, ppath). split_and!; [by left|done|]. simpl. congruence.
        -- destruct (decide (buid c.1 = buid pnode)) as [Heq|Hne].
           ++ exists (pnode, ppath). split_and!; [by left|done|]. simpl. congruence.
           ++ destruct (H7 c Hc) as (c' & ? & ? & ?); [set_solver|].
              exists c'. split_and!; [by apply elem_of_cons; right|done..].
    + (* yielded, and queued unless traversal is omitted *)
      set (queue' := if no_traversal self pnode then queue
                     else queue ++ [(pnode, ppath)]).
      destruct (IH ({[buid pnode]} ∪ vis) queue') as [H1 H2 H3 H4 H5 H6 H7 H8].
      split; simpl; try done.
      * set_solver.
      * intros c [->|Hc]%elem_of_cons; [set_solver|by apply H2].
      * intros b Hb. destruct (H3 b Hb) as [[Hb'|?]%elem_of_union|(c & ? & ?)].
        -- right. exists (pnode, ppath). split; [by left|]. set_solver.
        -- by left.
        -- right. exists c. split; [by apply elem_of_cons; right|done].
      * unfold buids. simpl. apply NoDup_cons. split; [|done].
        fold (buids (yielded (refs_loop self rest ({[buid pnode]} ∪ vis) queue'))).
        intros (y & Hy & Hb)%elem_of_buids.
        destruct (H5 y Hy) as (_ & Hv & _). set_solver.
      * intros y [->|Hy]%elem_of_cons; [split_and!; [by left|done..]|].
        destruct (H5 y Hy) as (? & ? & ?).
        split_and!; [by apply elem_of_cons; right|set_solver|done].
      * rewrite H6. subst queue'. rewrite filter_cons. simpl.
        destruct (no_traversal self pnode); simpl; [done|].
        by rewrite <-app_assoc.
      * intros c [->|Hc]%elem_of_cons Hv.
        -- exists (pnode, ppath). split_and!; [by left|done|]. intros _. by left.
        -- destruct (decide (buid c.1 = buid pnode)) as [Heq|Hne].
           ++ exists (pnode, ppath). split_and!; [by left|done|]. intros _. by left.
           ++ destruct (H7 c Hc) as (c' & ? & ? & Hy); [set_solver|].
              exists c'. split_and!; [by apply elem_of_cons; right|done|].
              intros ?. apply elem_of_cons. right. by apply Hy.
Qed.

Lemma refs_loop_app cands1 : ∀ cands2 vis queue,
  refs_loop self (cands1 ++ cands2) vis queue =
  let w1 := refs_loop self cands1 vis queue in
  let w2 := refs_loop self cands2 (visited w1) (newqueue w1) in
  {| yielded := yielded w1 ++ yielded w2; visited := visited w2;
     newqueue := newqueue w2; pivoted := pivoted w2 |}.
Proof.
  induction cands1 as [|[pnode ppath] rest IH]; intros cands2 vis queue; simpl.
  { by destruct (refs_loop self cands2 vis queue). }
  destruct (decide (buid pnode ∈ vis)); [apply IH|].
  destruct (omitted self pnode); [apply IH|].
  rewrite IH. done.
Qed.

(** A round is one pass over the candidates of everything in [srcqueue]. *)
Lemma queue_loop_flat stack : ∀ vis queue,
  queue_loop self stack vis queue =
  let w := refs_loop self (candidates self stack) vis queue in
  {| yielded := yielded w; visited := visited w; newqueue := newqueue w;
     pivoted := stack |}.
Proof.
  induction stack as [|[snode spath] rest IH]; intros vis queue; simpl; [done|].
  rewrite IH. unfold candidates at 3. simpl.
  fold (candidates self rest). rewrite refs_loop_app. done.
Qed.

Lemma reach_trans a b s m c :
  reach self a s m → reach self b m c → reach self (b + a) s c.
Proof.
  intros Ha Hb. induction Hb as [|k m n c Hk IH Hc]; [done|].
  simpl. econstructor; [by apply IH|done].
Qed.

Lemma reach_one m c : c ∈ getRefs self m.1 m.2 → reach self 1 m c.
Proof. intros. econstructor; [constructor|done]. Qed.

(** Each hop forks the path by one node. *)
Lemma getRefs_path m c : c ∈ getRefs self m.1 m.2 → c.2 = fork m.2 c.1.
Proof.
  assert (∀ (l : list Node), c ∈ pivot m.2 <$> l → c.2 = fork m.2 c.1) as Hpiv.
  { intros l (n & -> & _)%list_elem_of_fmap. done. }
  unfold getRefs. rewrite !elem_of_app. intros [H|[H|H]].
  - unfold refs_out in H. apply list_elem_of_bind in H as ([name valu] & H & _).
    destruct (fprops (form m.1) !! name) as [prop|]; [|by apply elem_of_nil in H].
    destruct (tclass (ptype prop)); try by eapply Hpiv.
    all: apply elem_of_app in H as [H|H];
      [|destruct (forms _ !! _); [by eapply Hpiv|by apply elem_of_nil in H]].
    all: try by apply elem_of_nil in H.
    destruct valu as [| |[] ?]; try by apply elem_of_nil in H.
    by eapply Hpiv.
  - unfold refs_in in H. apply list_elem_of_bind in H as (prop & H & _).
    by eapply Hpiv.
  - unfold refs_ndef in H. apply list_elem_of_bind in H as (prop & H & _).
    apply list_elem_of_bind in H as (pivo & H & _).
    destruct (_ && _).
    + repeat case_decide; try by eapply Hpiv. by apply elem_of_nil in H.
    + apply list_elem_of_singleton in H as ->. done.
Qed.

Lemma reach_path k s c :
  reach self k s c → length c.2 = length s.2 + k.
Proof.
  induction 1 as [|k s m c Hk IH Hc]; [lia|].
  rewrite (getRefs_path _ _ Hc). unfold fork. rewrite length_app. simpl. lia.
Qed.

Lemma rounds_ok degs : ∀ srcqueue vis,
  rounds_spec self degs srcqueue vis (rounds self degs srcqueue vis).
Proof.
  induction degs as [|degs IH]; intros srcqueue vis.
  { split; simpl; try set_solver; [constructor|lia]. }
  simpl. rewrite queue_loop_flat. simpl.
  set (cands := candidates self (reverse srcqueue)).
  destruct (refs_loop_spec cands vis []) as [L1 L2 L3 L4 L5 L6 L7 _].
  set (w1 := refs_loop self cands vis []) in *.
  destruct (IH (newqueue w1) (visited w1)) as [R1 R2 R3 R4 R5 _].
  set (w2 := rounds self degs (newqueue w1) (visited w1)) in *.
  assert (∀ c, c ∈ cands ↔ ∃ m, m ∈ srcqueue ∧ c ∈ getRefs self m.1 m.2) as Hcands.
  { intros c. subst cands. rewrite elem_of_candidates.
    by setoid_rewrite elem_of_reverse. }
  assert (∀ s, s ∈ newqueue w1 → s ∈ yielded w1 ∧ no_traversal self s.1 = false)
    as Hqueue.
  { intros s. rewrite L6. simpl. rewrite list_elem_of_filter. tauto. }
  split; simpl.
  - by etrans.
  - unfold buids. rewrite fmap_app. apply NoDup_app. split_and!; [done| |done].
    intros b (y1 & Hy1 & <-)%elem_of_buids (y2 & Hy2 & Hb)%elem_of_buids.
    destruct (R3 y2 Hy2) as (Hnv & _). apply Hnv. rewrite Hb.
    apply L2. by apply L5.
  - intros y [Hy|Hy]%elem_of_app.
    + destruct (L5 y Hy) as (Hc & Hv & Hom).
      split_and!; [done|by apply R1, L2|done|].
      apply Hcands in Hc as (m & Hm & Hc).
      exists 1, m. split_and!; [lia|lia|done|by apply reach_one].
    + destruct (R3 y Hy) as (Hv & Hin & Hom & k & s & Hk & Hs & Hr).
      split_and!; [set_solver|done|done|].
      apply Hqueue in Hs as [Hs _]. apply L5 in Hs as (Hc & _).
      apply Hcands in Hc as (m & Hm & Hc).
      exists (S k), m. split_and!; [lia|lia|done|].
      replace (S k) with (k + 1) by lia.
      eapply reach_trans; [by apply reach_one|done].
  - intros m [Hm|Hm]%elem_of_app.
    + left. by apply elem_of_reverse.
    + right. destruct (R4 m Hm) as [Hq|[Hy Hnt]].
      * apply Hqueue in Hq as [? ?]. split; [apply elem_of_app; by left|done].
      * split; [apply elem_of_app; by right|done].
  - assert (∀ c, c ∈ cands → buid c.1 ∉ vis →
        ∃ m' c', m' ∈ reverse srcqueue ++ pivoted w2 ∧
                 c' ∈ getRefs self m'.1 m'.2 ∧ buid c'.1 = buid c.1 ∧
                 (omitted self c'.1 = false → c' ∈ yielded w1 ++ yielded w2))
      as Hfirst.
    { intros c Hc Hv. destruct (L7 c Hc Hv) as (c' & Hc' & Hb & Hy).
      apply Hcands in Hc' as (m' & Hm' & Hc').
      exists m', c'. split_and!; [|done|done|].
      - apply elem_of_app. left. by apply elem_of_reverse.
      - intros ?. apply elem_of_app. left. by apply Hy. }
    intros m c [Hm|Hm]%elem_of_app Hc.
    + assert (c ∈ cands) as Hcc.
      { apply Hcands. exists m. split; [by apply elem_of_reverse|done]. }
      split; [by apply R1, L2|]. by apply Hfirst.
    + destruct (R5 m c Hm Hc) as [Hin Hnew]. split; [done|]. intros Hv.
      destruct (decide (buid c.1 ∈ visited w1)) as [Hv1|Hv1].
      * destruct (L3 _ Hv1) as [?|(c0 & Hc0 & Hb0)]; [done|].
        destruct (Hfirst c0 Hc0) as (m' & c' & ? & ? & ? & ?); [by rewrite Hb0|].
        exists m', c'. split_and!; [done|done|congruence|done].
      * destruct (Hnew Hv1) as (m' & c' & ? & ? & ? & Hy).
        exists m', c'. split_and!; [apply elem_of_app; by right|done|done|].
        intros ?. apply elem_of_app. right. by apply Hy.
  - intros _ s Hs. apply elem_of_app. left. by apply elem_of_reverse.
Qed.

(** Whatever [getRefs] yields was handed out by the storage. *)
Lemma getRefs_stored m c :
  c ∈ getRefs self m.1 m.2 → stored (snap self) c.1.
Proof.
  assert (∀ o, c ∈ pivot m.2 <$> option_list o → o = Some c.1) as Hopt.
  { intros [n|]; simpl; [|by intros ?%elem_of_nil].
    by intros ->%list_elem_of_singleton. }
  assert (∀ l : list Node, c ∈ pivot m.2 <$> l → c.1 ∈ l) as Hlist.
  { intros l (n & -> & ?)%list_elem_of_fmap. done. }
  unfold getRefs. rewrite !elem_of_app. intros [H|[H|H]].
  - unfold refs_out in H. apply list_elem_of_bind in H as ([name valu] & H & _).
    destruct (fprops (form m.1) !! name) as [prop|]; [|by apply elem_of_nil in H].
    assert (c ∈ match forms (model (snap self)) !! tname (ptype prop) with
                | Some form' =>
                    pivot m.2 <$> option_list
                      (getNodeByNdef (snap self) (VTuple (VStr (fname form')) valu))
                | None => []
                end → stored (snap self) c.1) as Hform.
    { destruct (forms _ !! _); [|by intros ?%elem_of_nil].
      intros ?%Hopt. left. eauto. }
    destruct (tclass (ptype prop)).
    + apply Hopt in H. left. eauto.
    + apply elem_of_app in H as [H|H]; [|by apply Hform].
      destruct valu as [| |[] ?]; try by apply elem_of_nil in H.
      apply Hlist in H. right. eauto.
    + apply elem_of_app in H as [H|H]; [by apply elem_of_nil in H|by apply Hform].
    + apply elem_of_app in H as [H|H]; [by apply elem_of_nil in H|by apply Hform].
  - unfold refs_in in H. apply list_elem_of_bind in H as (prop & H & _).
    apply Hlist in H. right. eauto.
  - unfold refs_ndef in H. apply list_elem_of_bind in H as (prop & H & _).
    apply list_elem_of_bind in H as (pivo & H & Hpivo).
    destruct (_ && _).
    + repeat case_decide; try (apply Hopt in H; left);
        try by apply elem_of_nil in H.
      * destruct (node_get pivo "n2") as [v|]; [|done]. simpl in H. eauto.
      * destruct (node_get pivo "n1") as [v|]; [|done]. simpl in H. eauto.
    + apply list_elem_of_singleton in H as ->. right. eauto.
Qed.


(** The traversal from one source, started as [runStormCmd] starts it. *)
Lemma doRefs_ok srcnode srcpath vis :
  rounds_spec self (Z.to_nat (degrees (opts self))) [(srcnode, srcpath)] vis
    (doRefs self srcnode srcpath vis).
Proof. apply rounds_ok. Qed.

Lemma run_sources_ok genr : ∀ vis,
  let runs := run_sources self genr vis in
  source <$> runs = genr ∧
  Forall (λ r, NoDup (buids (source r :: yielded (found r))) ∧ hops_bounded self r) runs ∧
  (unique (opts self) = true →
     NoDup (buids (traversal_yields runs)) ∧
     (∀ b, b ∈ buids (traversal_yields runs) → b ∉ vis) ∧
     ∀ i j ri rj, i ≤ j → runs !! i = Some ri → runs !! j = Some rj →
       buid (source ri).1 ∉ buids (yielded (found rj))).
Proof.
  induction genr as [|[node path] rest IH]; intros vis; simpl.
  { split_and!; [done|constructor|]. intros _. split_and!.
    - constructor.
    - by intros b ?%elem_of_nil.
    - intros ???? _ ?. done. }
  set (vis0 := if unique (opts self) then vis else ∅).
  set (vis1 := {[buid node]} ∪ vis0).
  destruct (doRefs_ok node path vis1) as [D1 D2 D3 D4 D5 D6].
  set (w := doRefs self node path vis1) in *.
  destruct (IH (visited w)) as (I1 & I2 & I3).
  split_and!.
  - f_equal. exact I1.
  - constructor; [|done]. simpl. split.
    + unfold buids. simpl. apply NoDup_cons. split; [|done].
      intros (y & Hy & Hb)%elem_of_buids.
      destruct (D3 y Hy) as (Hv & _). apply Hv. rewrite Hb. set_solver.
    + intros y Hy. simpl in *.
      destruct (D3 y Hy) as (_ & _ & _ & k & s & Hk & ->%list_elem_of_singleton & Hr).
      exists k. split_and!; [lia|lia|done|]. by apply reach_path in Hr.
  - intros Hu. destruct (I3 Hu) as (N1 & N2 & N3).
    assert (vis0 = vis) as Hvis0 by (subst vis0; by rewrite Hu).
    unfold traversal_yields in *. simpl.
    split_and!.
    + unfold buids. rewrite fmap_app. apply NoDup_app. split_and!; [done| |done].
      intros b (y & Hy & <-)%elem_of_buids Hb.
      apply N2 in Hb. apply Hb. by apply D3.
    + intros b. unfold buids. rewrite fmap_app, elem_of_app.
      intros [(y & Hy & <-)%elem_of_buids|Hb].
      * destruct (D3 y Hy) as (Hv & _). set_solver.
      * apply N2 in Hb. set_solver.
    + intros i j ri rj Hij Hi Hj.
      destruct i as [|i]; simpl in Hi.
      * injection Hi as <-. simpl.
        destruct j as [|j]; simpl in Hj.
        -- injection Hj as <-. simpl.
           intros (y & Hy & Hb)%elem_of_buids.
           destruct (D3 y Hy) as (Hv & _). apply Hv. rewrite Hb. set_solver.
        -- intros (y & Hy & Hb)%elem_of_buids.
           assert (buid y.1 ∈ buids (run_sources self rest (visited w) ≫=
                                       λ r, yielded (found r))) as Hin.
           { apply elem_of_buids. exists y. split; [|done].
             apply list_elem_of_bind. exists rj. split; [done|].
             by eapply list_elem_of_lookup_2. }
           apply N2 in Hin. apply Hin. rewrite Hb. set_solver.
      * destruct j as [|j]; [lia|]. simpl in Hj.
        apply (N3 i j); [lia|done..].
Qed.

Lemma run_sources_joined genr : ∀ vis,
  Forall (λ r, joined r = if join (opts self) then [source r] else [])
         (run_sources self genr vis).
Proof.
  induction genr as [|[node path] rest IH]; intros vis; simpl; [constructor|].
  constructor; [done|apply IH].
Qed.

Lemma output_without_join (runs : list source_run) :
  Forall (λ r, joined r = []) runs → output runs = traversal_yields runs.
Proof.
  unfold output, traversal_yields.
  induction 1 as [|r runs Hr _ IH]; [done|]. simpl. rewrite Hr. simpl.
  f_equal. exact IH.
Qed.

(** Every traversal of the command starts from a visited set that holds
    its source. *)
Lemma run_sources_doRefs genr : ∀ vis r,
  r ∈ run_sources self genr vis →
  ∃ v, buid (source r).1 ∈ v ∧ found r = doRefs self (source r).1 (source r).2 v.
Proof.
  induction genr as [|[node path] rest IH]; intros vis r; simpl.
  { by intros ?%elem_of_nil. }
  intros [->|Hr]%elem_of_cons; [|by eapply IH].
  simpl. eexists. split; [|done]. set_solver.
Qed.

End NoderefsProps.

Section NoderefsClaims.
Import NoderefsCmd.

(** C8. [noderefs] fails with BadOperArg for every [degrees] below 1 (before
    it asks upstream for anything), and for every [degrees] of at least 1
    it raises nothing and yields its stream. *)
Theorem noderefs_degrees_checked (o : Opts) (sn : Snap) (genr : list (Node * Path)) :
  ((degrees o < 1)%Z → raises_BadOperArg (runStormCmd o sn genr) = true) ∧
  ((1 ≤ degrees o)%Z →
     runStormCmd o sn genr = Ok (output (run_sources (setup o sn) genr ∅)) ∧
     raises_BadOperArg (runStormCmd o sn genr) = false).
Proof.
  unfold runStormCmd. split; intros H.
  - destruct (Z.ltb_spec (degrees o) 1); [done|lia].
  - destruct (Z.ltb_spec (degrees o) 1); [lia|done].
Qed.


(** C7, as the code has it.  Let [c] be a candidate of a traversal: a node
    that [getRefs] hands out for an entry popped from the queue.
    If [c] is omitted (its form is in omit-form or it carries a tag of
    omit-tag), the traversal never yields it, and pops it from the queue
    only if it is the source itself.
    If [c] is not omitted and was not visited before the traversal began,
    the traversal yields it exactly once; if moreover traversal of [c] is
    omitted (omit-traversal-form, omit-traversal-tag), it is never popped
    from the queue, so its neighbours are never asked for. *)
Theorem noderefs_omit_rules
    (self : Cmd) (srcnode : Node) (srcpath : Path) (vis : gset N) :
  buid_identifies (snap self) →
  buid srcnode ∈ vis →
  let w := doRefs self srcnode srcpath vis in
  ∀ m c, m ∈ pivoted w → c ∈ getRefs self m.1 m.2 →
    (omitted self c.1 = true →
       (∀ y, y ∈ yielded w → y.1 ≠ c.1) ∧
       (∀ m', m' ∈ pivoted w → m'.1 = c.1 → m' = (srcnode, srcpath))) ∧
    (omitted self c.1 = false → buid c.1 ∉ vis →
       length (filter (λ y, buid y.1 = buid c.1) (yielded w)) = 1 ∧
       (∃ p, (c.1, p) ∈ yielded w) ∧
       (no_traversal self c.1 = true → ∀ m', m' ∈ pivoted w → m'.1 ≠ c.1)).
Proof.
  intros Hid Hsrc w m c Hm Hc.
  destruct (doRefs_ok self srcnode srcpath vis) as [D1 D2 D3 D4 D5 D6].
  fold w in D1, D2, D3, D4, D5, D6.
  split.
  - intros Hom. split.
    + intros y Hy Heq. destruct (D3 y Hy) as (_ & _ & Hy' & _). congruence.
    + intros m' Hm' Heq. destruct (D4 m' Hm') as [Hs|[Hy _]].
      * by apply list_elem_of_singleton in Hs.
      * destruct (D3 m' Hy) as (_ & _ & Hy' & _). congruence.
  - intros Hom Hv.
    destruct (D5 m c Hm Hc) as [_ Hnew].
    destruct (Hnew Hv) as (m' & c' & Hm' & Hc' & Hb & Hy).
    assert (c'.1 = c.1) as Heq.
    { apply Hid; [by eapply getRefs_stored..|done]. }
    rewrite Heq in Hy. specialize (Hy Hom).
    split_and!.
    + rewrite <-Hb. by apply (filter_key_once (λ y : Node * Path, buid y.1)).
    + exists c'.2. rewrite <-Heq. by destruct c'.
    + intros Hnt m'' Hm'' Heq'. destruct (D4 m'' Hm'') as [Hs|[_ Hnt']].
      * apply list_elem_of_singleton in Hs as ->. simpl in Heq'. congruence.
      * congruence.
Qed.

End NoderefsClaims.

(** ** noderefs on the small graph *)

Section GraphProps.
Import NoderefsCmd Graph.

Lemma snap_of_buid_identifies (m : Model) (nodes : list Node) :
  NoDup (buid <$> nodes) → buid_identifies (snap_of m nodes).
Proof.
  intros Hnd.
  assert (∀ n, stored (snap_of m nodes) n → n ∈ nodes) as Hin.
  { intros n [[v Hv]|(prop & v & Hv)]; simpl in *.
    - destruct (list_find _ nodes) as [[i n']|] eqn:Hf; [|done].
      injection Hv as <-. apply list_find_Some in Hf as (Hl & _).
      by eapply list_elem_of_lookup_2.
    - by apply list_elem_of_filter in Hv as [_ ?]. }
  intros n1 n2 H1%Hin H2%Hin Hb.
  clear Hin. induction nodes as [|n nodes IH]; [by apply elem_of_nil in H1|].
  simpl in Hnd. apply NoDup_cons in Hnd as [Hn Hnd].
  apply elem_of_cons in H1 as [->|H1]; apply elem_of_cons in H2 as [->|H2].
  - done.
  - exfalso. apply Hn. rewrite Hb. by apply list_elem_of_fmap_2.
  - exfalso. apply Hn. rewrite <-Hb. by apply list_elem_of_fmap_2.
  - by apply IH.
Qed.

Lemma sn_buid_identifies : buid_identifies sn.
Proof. apply snap_of_buid_identifies. by vm_compute; repeat constructor; set_solver. Qed.

(** One degree from the address: the record that refers to it. *)
Example noderefs_one_degree :
  runStormCmd default_opts sn [(addr, [addr])] = Ok [(rec, [addr; rec])].
Proof. by vm_compute. Qed.

(** Two degrees: the record, then the domain; the address is not yielded
    again although the record refers back to it. *)
Example noderefs_two_degrees :
  runStormCmd (with_degrees 2 default_opts) sn [(addr, [addr])]
  = Ok [(rec, [addr; rec]); (dom, [addr; rec; dom])].
Proof. by vm_compute. Qed.

Example noderefs_degrees_zero :
  raises_BadOperArg (runStormCmd (with_degrees 0 default_opts) sn [(addr, [addr])]) = true.
Proof. by vm_compute. Qed.

(** [--join] emits each source as it arrives, whether or not the shared
    visited set already holds it: here the record is found from the
    address and then arrives as a source itself. *)
Example noderefs_join_emits_every_source :
  runStormCmd join_unique_opts sn [(addr, [addr]); (rec, [rec])]
  = Ok [(addr, [addr]); (rec, [addr; rec]); (rec, [rec]); (dom, [rec; dom])].
Proof. by vm_compute. Qed.


Lemma noderefs_omit_rules_witness :
  let self := setup otf_opts sn in
  let w := doRefs self addr [addr] {[buid addr]} in
  length (filter (λ y, buid y.1 = buid rec) (yielded w)) = 1 ∧
  (∃ p, (rec, p) ∈ yielded w) ∧
  (∀ m', m' ∈ pivoted w → m'.1 ≠ rec).
Proof.
  intros self w.
  assert ((addr, [addr]) ∈ pivoted w) as Hm
    by (apply (bool_decide_unpack _); vm_compute; exact I).
  assert ((rec, [addr; rec]) ∈ getRefs self addr [addr]) as Hc
    by (apply (bool_decide_unpack _); vm_compute; exact I).
  assert (buid addr ∈ ({[buid addr]} : gset N)) as Hsrc
    by (apply elem_of_singleton; reflexivity).
  destruct (noderefs_omit_rules self addr [addr] {[buid addr]}
              sn_buid_identifies Hsrc _ _ Hm Hc) as [_ H].
  destruct H as (H1 & H2 & H3).
  - reflexivity.
  - apply (bool_decide_unpack _). vm_compute. exact I.
  - split_and!; [exact H1|exact H2|]. apply H3. reflexivity.
Defined.

(** C7, as the claim states it, fails.  With
    [--omit-traversal-form inet:dns:a --omit-tag omit.nopiv] the record is
    a candidate whose form is in omit-traversal-form, yet it is yielded
    zero times: the omit tests come first. *)
Lemma noderefs_omit_precedes_omit_traversal :
  let self := setup otf_ot_opts sn in
  let w := doRefs self addr [addr] {[buid addr]} in
  (addr, [addr]) ∈ pivoted w ∧
  (rec, [addr; rec]) ∈ getRefs self addr [addr] ∧
  (ndef rec).1 ∈ omit_traversal_forms self ∧
  length (filter (λ y, buid y.1 = buid rec) (yielded w)) = 0 ∧
  runStormCmd otf_ot_opts sn [(addr, [addr])] = Ok [].
Proof.
  intros self w. split_and!.
  - apply (bool_decide_unpack _). vm_compute. exact I.
  - apply (bool_decide_unpack _). vm_compute. exact I.
  - apply (bool_decide_unpack _). vm_compute. exact I.
  - vm_compute. reflexivity.
  - vm_compute. reflexivity.
Qed.

(** A candidate that is the source of the traversal was visited before the
    traversal began: with [--omit-traversal-form inet:ipv4] the address is
    handed out again by the record in round two; the traversal does not
    yield it, and it has asked for its neighbours, as the source. *)
Example noderefs_source_met_again :
  let self := setup otf_source_opts sn in
  let w := doRefs self addr [addr] {[buid addr]} in
  (rec, [addr; rec]) ∈ pivoted w ∧
  (addr, [addr; rec; addr]) ∈ getRefs self rec [addr; rec] ∧
  no_traversal self addr = true ∧
  yielded w = [(rec, [addr; rec]); (dom, [addr; rec; dom])] ∧
  (addr, [addr]) ∈ pivoted w.
Proof.
  intros self w. split_and!.
  - apply (bool_decide_unpack _). vm_compute. exact I.
  - apply (bool_decide_unpack _). vm_compute. exact I.
  - vm_compute. reflexivity.
  - vm_compute. reflexivity.
  - apply (bool_decide_unpack _). vm_compute. exact I.
Qed.

End GraphProps.

(** ** movetag: tag names *)

Section TagNames.
Import MoveTagCmd.

Lemma sapp_cons c (a b : string) : String c a +:+ b = String c (a +:+ b).
Proof. reflexivity. Qed.

Lemma sapp_nil_l (a : string) : "" +:+ a = a.
Proof. reflexivity. Qed.

Lemma sapp_nil_r (a : string) : a +:+ "" = a.
Proof. induction a as [|c a IH]; [done|]. by rewrite sapp_cons, IH. Qed.

Lemma sapp_assoc (a b c : string) : (a +:+ b) +:+ c = a +:+ (b +:+ c).
Proof. induction a as [|x a IH]; [done|]. by rewrite !sapp_cons, IH. Qed.

Lemma string_drop_app (a b : string) : string_drop (String.length a) (a +:+ b) = b.
Proof. induction a as [|x a IH]; [by destruct b|]. by rewrite sapp_cons. Qed.

(** Two splittings of one string: one left part is a prefix of the other. *)
Lemma sapp_eq_inv (a x b y : string) :
  a +:+ x = b +:+ y →
  (∃ r, b = a +:+ r ∧ x = r +:+ y) ∨ (∃ r, a = b +:+ r ∧ y = r +:+ x).
Proof.
  revert b. induction a as [|c a IH]; intros b H.
  { left. exists b. by rewrite sapp_nil_l in *. }
  destruct b as [|d b].
  { right. exists (String c a). by rewrite sapp_nil_l in *. }
  rewrite !sapp_cons in H. injection H as -> H.
  destruct (IH b H) as [(r & -> & ->)|(r & -> & ->)]; [left|right]; by exists r.
Qed.

Lemma sprefix_spec (p s : string) :
  String.prefix p s = true ↔ ∃ r, s = p +:+ r.
Proof.
  revert p. induction s as [|d s IH]; intros [|c p]; simpl.
  - split; [intros _; by exists ""|done].
  - split; [done|]. intros [r Hr]. by rewrite sapp_cons in Hr.
  - split; [intros _; by exists (String d s)|done].
  - destruct (Ascii.ascii_dec c d) as [->|Hne].
    + rewrite IH. split; intros [r Hr]; exists r.
      * by rewrite sapp_cons, Hr.
      * rewrite sapp_cons in Hr. by injection Hr.
    + split; [done|]. intros [r Hr]. rewrite sapp_cons in Hr. congruence.
Qed.

Lemma tag_underb_spec (old t : string) : tag_underb old t = true ↔ tag_under old t.
Proof.
  unfold tag_underb, tag_under.
  rewrite orb_true_iff, bool_decide_eq_true, sprefix_spec.
  by setoid_rewrite sapp_assoc.
Qed.

(** A tag under [old] is [old] followed by nothing or by a dotted suffix. *)
Lemma tag_under_split (old t : string) :
  tag_under old t ↔
  ∃ suf, t = old +:+ suf ∧ (suf = "" ∨ ∃ s, suf = "." +:+ s).
Proof.
  split.
  - intros [->|[s ->]].
    + exists "". by rewrite sapp_nil_r; auto.
    + exists ("." +:+ s). eauto.
  - intros (suf & -> & [->|[s ->]]).
    + left. by rewrite sapp_nil_r.
    + right. by exists s.
Qed.

Lemma renamed_app (old new suf : string) :
  renamed old new (old +:+ suf) = new +:+ suf.
Proof. unfold renamed. by rewrite string_drop_app. Qed.

(** An exact match is renamed wholly. *)
Lemma renamed_exact (old new : string) : renamed old new old = new.
Proof.
  rewrite <-(sapp_nil_r old) at 2. by rewrite renamed_app, sapp_nil_r.
Qed.

(** A prefix match keeps its suffix. *)
Lemma renamed_child (old new s : string) :
  renamed old new (old +:+ "." +:+ s) = new +:+ "." +:+ s.
Proof. apply renamed_app. Qed.

Lemma renamed_under (old new t : string) :
  tag_under old t → tag_under new (renamed old new t).
Proof.
  intros [->|[s ->]].
  - left. apply renamed_exact.
  - right. exists s. apply renamed_child.
Qed.

Lemma renamed_inj (old new t1 t2 : string) :
  tag_under old t1 → tag_under old t2 →
  renamed old new t1 = renamed old new t2 → t1 = t2.
Proof.
  intros (s1 & -> & _)%tag_under_split (s2 & -> & _)%tag_under_split.
  rewrite !renamed_app. by intros ->%(inj _).
Qed.

Lemma dotted_prefix (r s y : string) :
  "." +:+ s = r +:+ y → r = "" ∨ ∃ r', r = "." +:+ r'.
Proof.
  destruct r as [|c r]; [by left|]. rewrite sapp_cons.
  intros [= <- _]. right. by exists r.
Qed.

(** Nothing under [new] lies under [old] when the trees are apart. *)
Lemma apart_under (old new t : string) :
  apart old new → tag_under new t → ¬ tag_under old t.
Proof.
  intros [Hon Hno] (x & -> & Hx)%tag_under_split (y & Heq & Hy)%tag_under_split.
  apply sapp_eq_inv in Heq as [(r & -> & ->)|(r & -> & ->)].
  - (* old = new ++ r *)
    apply Hno. apply tag_under_split. exists r. split; [done|].
    destruct Hx as [Hx|[s Hx]].
    + destruct r; [by left|done].
    + by eapply dotted_prefix.
  - (* new = old ++ r *)
    apply Hon. apply tag_under_split. exists r. split; [done|].
    destruct Hy as [Hy|[s Hy]].
    + destruct r; [by left|done].
    + by eapply dotted_prefix.
Qed.

Lemma apart_renamed (old new t : string) :
  apart old new → tag_under old t → ¬ tag_under old (renamed old new t).
Proof. intros Ha Ht. eapply apart_under; [done|]. by apply renamed_under. Qed.

End TagNames.

(** ** movetag: the store operations *)

Section StoreOps.
Import MoveTagCmd.

Lemma node_get_None st t p : ¬ has_def st t → node_get st t p = None.
Proof.
  unfold has_def, node_get. intros H.
  destruct (tagdefs st !! t) eqn:E; [|done]. destruct H. eauto.
Qed.

Lemma node_get_Some st t p v : node_get st t p = Some v → has_def st t.
Proof. unfold has_def, node_get. destruct (tagdefs st !! t); [eauto|done]. Qed.

Lemma has_def_addNode st n x : has_def (addNode st n).1 x ↔ has_def st x ∨ x = n.
Proof.
  unfold has_def, addNode. destruct (tagdefs st !! n) eqn:E; simpl.
  - split; [by left|]. intros [?| ->]; [done|]. by rewrite E.
  - destruct (decide (x = n)) as [->|Hne].
    + rewrite lookup_insert_eq. split; [by right|eauto].
    + rewrite lookup_insert_ne by done. split; [by left|]. by intros [?|?].
Qed.

Lemma node_get_addNode st n x p : node_get (addNode st n).1 x p = node_get st x p.
Proof.
  unfold node_get, addNode. destruct (tagdefs st !! n) eqn:E; simpl; [done|].
  destruct (decide (x = n)) as [->|Hne].
  - by rewrite lookup_insert_eq, E.
  - by rewrite lookup_insert_ne.
Qed.

Lemma nodes_addNode st n : nodes (addNode st n).1 = nodes st.
Proof. unfold addNode. by destruct (tagdefs st !! n). Qed.

Lemma addNode_id st n : has_def st n → addNode st n = (st, n).
Proof. unfold has_def, addNode. by intros [d ->]. Qed.

Lemma has_def_node_set st t p v x : has_def (node_set st t p v) x ↔ has_def st x.
Proof.
  unfold has_def, node_set. simpl. rewrite lookup_alter.
  case_decide; [subst|done]. by rewrite fmap_is_Some.
Qed.

Lemma node_get_node_set st t p v x q :
  has_def st t →
  node_get (node_set st t p v) x q =
  if decide (x = t ∧ q = p) then Some v else node_get st x q.
Proof.
  unfold has_def, node_get, node_set. simpl. intros [d Hd].
  rewrite lookup_alter. destruct (decide (t = x)) as [->|Hne].
  - rewrite Hd. simpl. destruct (decide (q = p)) as [->|Hq].
    + rewrite decide_True by done. by rewrite lookup_insert_eq.
    + rewrite decide_False by naive_solver. by rewrite lookup_insert_ne.
  - by rewrite decide_False by naive_solver.
Qed.

Lemma node_set_id st t p v : node_get st t p = Some v → node_set st t p v = st.
Proof.
  unfold node_get, node_set. intros H. destruct st as [defs nds]. simpl in *.
  f_equal. apply alter_id. intros props Hp. rewrite Hp in H. simpl in H.
  by apply insert_id.
Qed.

(** Two stores with the same definitions, properties and nodes are one. *)
Lemma store_ext (st st' : Store) :
  (∀ x, has_def st x ↔ has_def st' x) →
  (∀ x p, node_get st x p = node_get st' x p) →
  nodes st = nodes st' →
  st = st'.
Proof.
  destruct st as [defs nds], st' as [defs' nds']. unfold has_def, node_get. simpl.
  intros Hd Hg ->. f_equal. apply map_eq. intros x.
  specialize (Hd x). specialize (Hg x).
  destruct (defs !! x) as [props|], (defs' !! x) as [props'|]; simpl in *.
  - f_equal. by apply map_eq.
  - destruct Hd as [Hd _]. by destruct Hd.
  - destruct Hd as [_ Hd]. by destruct Hd.
  - done.
Qed.

End StoreOps.

(** ** movetag: the first loop *)

Section FirstLoop.
Import MoveTagCmd.
Context (oldstr newstr : string).

Abbreviation step := (isnow_step oldstr newstr).
Abbreviation rn := (renamed oldstr newstr).

(** What one turn does to the definitions that exist. *)
Lemma isnow_step_has_def st retag t x :
  has_def (step (st, retag) t).1 x ↔ has_def st x ∨ (t ≠ oldstr ∧ x = rn t).
Proof.
  unfold isnow_step. destruct (decide (t = oldstr)) as [->|Hne]; simpl.
  - rewrite has_def_node_set. naive_solver.
  - rewrite has_def_node_set.
    destruct (node_get _ t "title"); destruct (node_get _ t "doc");
      rewrite ?has_def_node_set, has_def_addNode; naive_solver.
Qed.

(** What one turn does to the properties: [isnow] of the old definition is
    set; [doc] and [title] of the renamed definition are overwritten by
    those of the old one where the old one has them; the rest stays. *)
Lemma isnow_step_get st retag t x p :
  has_def st t →
  node_get (step (st, retag) t).1 x p =
  if decide (x = t ∧ p = "isnow") then Some (rn t)
  else if decide (t ≠ oldstr ∧ x = rn t ∧ (p = "doc" ∨ p = "title"))
       then match node_get st t p with
            | Some d => Some d
            | None => node_get st x p
            end
       else node_get st x p.
Proof.
  intros Ht. unfold isnow_step. destruct (decide (t = oldstr)) as [->|Hne]; simpl.
  { rewrite node_get_node_set by done. rewrite renamed_exact.
    case_decide; [done|]. rewrite decide_False by naive_solver. done. }
  set (st1 := (addNode st (rn t)).1).
  assert (has_def st1 t) as Ht1 by (apply has_def_addNode; by left).
  assert (has_def st1 (rn t)) as Hn1 by (apply has_def_addNode; by right).
  assert (∀ y q, node_get st1 y q = node_get st y q) as Hg1
    by (intros; apply node_get_addNode).
  set (st2 := match node_get st1 t "doc" with
              | Some olddoc => node_set st1 (rn t) "doc" olddoc
              | None => st1
              end).
  assert (∀ y, has_def st2 y ↔ has_def st1 y) as Hd2.
  { intros y. subst st2. destruct (node_get st1 t "doc"); [|done].
    apply has_def_node_set. }
  assert (∀ y q, node_get st2 y q =
            if decide (y = rn t ∧ q = "doc")
            then match node_get st t "doc" with
                 | Some d => Some d | None => node_get st y q end
            else node_get st y q) as Hg2.
  { intros y q. subst st2. rewrite (Hg1 t "doc").
    destruct (node_get st t "doc") as [d|] eqn:Hdoc.
    - rewrite node_get_node_set by done. by rewrite Hg1.
    - rewrite Hg1. by case_decide. }
  set (st3 := match node_get st2 t "title" with
              | Some oldtitle => node_set st2 (rn t) "title" oldtitle
              | None => st2
              end).
  assert (node_get st2 t "title" = node_get st t "title") as Htitle.
  { rewrite Hg2. rewrite decide_False by naive_solver. done. }
  assert (∀ y, has_def st3 y ↔ has_def st1 y) as Hd3.
  { intros y. subst st3. destruct (node_get st2 t "title"); [|by apply Hd2].
    rewrite has_def_node_set. apply Hd2. }
  assert (∀ y q, node_get st3 y q =
            if decide (y = rn t ∧ q = "title")
            then match node_get st t "title" with
                 | Some d => Some d | None => node_get st y q end
            else node_get st2 y q) as Hg3.
  { intros y q. subst st3. rewrite Htitle.
    destruct (node_get st t "title") as [d|] eqn:Ht'.
    - rewrite node_get_node_set by (by apply Hd2). done.
    - case_decide as Hc; [|done]. destruct Hc as [-> ->].
      rewrite Hg2. rewrite decide_False by naive_solver. done. }
  rewrite node_get_node_set by (by apply Hd3).
  case_decide as H1; [done|].
  rewrite Hg3, Hg2.
  repeat case_decide; try done; naive_solver.
Qed.

Lemma isnow_step_nodes st retag t : nodes (step (st, retag) t).1 = nodes st.
Proof.
  unfold isnow_step. destruct (decide (t = oldstr)); simpl; [done|].
  destruct (node_get _ t "title"); destruct (node_get _ t "doc");
    simpl; by rewrite nodes_addNode.
Qed.

Lemma isnow_step_retag st retag t :
  (step (st, retag) t).2 = if decide (t = oldstr) then retag else <[t := rn t]> retag.
Proof. unfold isnow_step. by destruct (decide (t = oldstr)). Qed.

#[local] Arguments isnow_step : simpl never.

(** The loop as a whole. *)
Lemma isnow_loop_has_def l : ∀ st retag x,
  has_def (foldl step (st, retag) l).1 x ↔
  has_def st x ∨ ∃ t, t ∈ l ∧ t ≠ oldstr ∧ x = rn t.
Proof.
  induction l as [|t l IH]; intros st retag x; simpl.
  { split; [by left|]. intros [?|(t & ?%elem_of_nil & _)]; done. }
  destruct (step (st, retag) t) as [st1 retag1] eqn:E.
  rewrite IH. replace st1 with (step (st, retag) t).1 by (by rewrite E).
  rewrite isnow_step_has_def. split.
  - intros [[?|[? ->]]|(t' & ? & ? & ->)]; [by left|right..].
    + exists t. split_and!; [by left|done..].
    + exists t'. split_and!; [by right|done..].
  - intros [?|(t' & [->|?]%elem_of_cons & ? & ->)]; [by left; left|by left; right|].
    right. by exists t'.
Qed.

Lemma isnow_loop_nodes l : ∀ st retag, nodes (foldl step (st, retag) l).1 = nodes st.
Proof.
  induction l as [|t l IH]; intros st retag; simpl; [done|].
  destruct (step (st, retag) t) as [st1 retag1] eqn:E.
  rewrite IH. replace st1 with (step (st, retag) t).1 by (by rewrite E).
  apply isnow_step_nodes.
Qed.

Lemma isnow_loop_retag l : ∀ st retag t,
  (foldl step (st, retag) l).2 !! t =
  if decide (t ∈ l ∧ t ≠ oldstr) then Some (rn t) else retag !! t.
Proof.
  induction l as [|t0 l IH]; intros st retag t; simpl; [done|].
  destruct (step (st, retag) t0) as [st1 retag1] eqn:E.
  rewrite IH. replace retag1 with (step (st, retag) t0).2 by (by rewrite E).
  rewrite isnow_step_retag.
  destruct (decide (t ∈ l ∧ t ≠ oldstr)) as [[? ?]|Hn].
  { rewrite decide_True; [done|]. split; [by right|done]. }
  destruct (decide (t0 = oldstr)) as [->|Hne].
  - rewrite decide_False; [done|]. intros [[->|?]%elem_of_cons ?]; naive_solver.
  - destruct (decide (t = t0)) as [->|Htt].
    + rewrite lookup_insert_eq. rewrite decide_True; [done|]. split; [by left|done].
    + rewrite lookup_insert_ne by done. rewrite decide_False; [done|].
      intros [[->|?]%elem_of_cons ?]; naive_solver.
Qed.

Lemma isnow_loop_isnow l : ∀ st retag x,
  (∀ t, t ∈ l → has_def st t) →
  node_get (foldl step (st, retag) l).1 x "isnow" =
  if decide (x ∈ l) then Some (rn x) else node_get st x "isnow".
Proof.
  induction l as [|t l IH]; intros st retag x Hl; simpl; [done|].
  destruct (step (st, retag) t) as [st1 retag1] eqn:E.
  assert (st1 = (step (st, retag) t).1) as Hst1 by (by rewrite E).
  rewrite IH; last first.
  { intros t' Ht'. rewrite Hst1. apply isnow_step_has_def. left.
    apply Hl. by right. }
  destruct (decide (x ∈ l)) as [Hin|Hnin].
  { rewrite decide_True; [done|by right]. }
  rewrite Hst1, isnow_step_get by (apply Hl; by left).
  destruct (decide (x = t)) as [->|Hne].
  - rewrite decide_True by done. rewrite decide_True; [done|by left].
  - rewrite decide_False by naive_solver.
    rewrite decide_False by (intros (_ & _ & [?|?]); done).
    rewrite decide_False; [done|]. by intros [->|?]%elem_of_cons.
Qed.

(** A property other than [isnow] changes only where [doc] or [title] is
    copied to. *)
Lemma isnow_loop_frame l : ∀ st retag x p,
  (∀ t, t ∈ l → has_def st t) →
  p ≠ "isnow" →
  (p = "doc" ∨ p = "title" → ∀ t, t ∈ l → t ≠ oldstr → x ≠ rn t) →
  node_get (foldl step (st, retag) l).1 x p = node_get st x p.
Proof.
  induction l as [|t l IH]; intros st retag x p Hl Hp Hx; simpl; [done|].
  destruct (step (st, retag) t) as [st1 retag1] eqn:E.
  assert (st1 = (step (st, retag) t).1) as Hst1 by (by rewrite E).
  rewrite IH; [|..|done|].
  - rewrite Hst1, isnow_step_get by (apply Hl; by left).
    rewrite decide_False by naive_solver.
    rewrite decide_False; [done|].
    intros (Hne & -> & Hdt). eapply Hx; [done|by left|done..].
  - intros t' Ht'. rewrite Hst1. apply isnow_step_has_def. left.
    apply Hl. by right.
  - intros Hdt t' Ht'. apply Hx; [done|by right].
Qed.

(** When the two trees are apart, [doc] and [title] of each renamed
    definition end up as those of its old definition where it had them. *)
Lemma isnow_loop_copy l : ∀ st retag t p,
  apart oldstr newstr →
  NoDup l →
  (∀ t, t ∈ l → has_def st t ∧ tag_under oldstr t) →
  t ∈ l → t ≠ oldstr → p = "doc" ∨ p = "title" →
  node_get (foldl step (st, retag) l).1 (rn t) p =
  match node_get st t p with
  | Some d => Some d
  | None => node_get st (rn t) p
  end.
Proof.
  induction l as [|t0 l IH]; intros st retag t p Hap Hnd Hl Ht Hne Hp;
    [by apply elem_of_nil in Ht|].
  simpl. apply NoDup_cons in Hnd as [Ht0 Hnd].
  destruct (step (st, retag) t0) as [st1 retag1] eqn:E.
  assert (st1 = (step (st, retag) t0).1) as Hst1 by (by rewrite E).
  assert (has_def st t0 ∧ tag_under oldstr t0) as [Hd0 Hu0] by (apply Hl; by left).
  assert (∀ t', t' ∈ l → has_def st1 t' ∧ tag_under oldstr t') as Hl1.
  { intros t' Ht'. destruct (Hl t') as [? ?]; [by right|]. split; [|done].
    rewrite Hst1. apply isnow_step_has_def. by left. }
  assert (p ≠ "isnow") as Hpi by (destruct Hp as [->| ->]; done).
  apply elem_of_cons in Ht as [->|Ht].
  - (* this turn copies; the later ones leave the renamed definition alone *)
    rewrite isnow_loop_frame; [| |done|].
    + rewrite Hst1, isnow_step_get by done.
      rewrite decide_False by naive_solver.
      rewrite decide_True by done. done.
    + intros t' Ht'. by apply Hl1.
    + intros _ t' Ht' Hne' Heq.
      apply renamed_inj in Heq; [|done|by apply Hl1]. congruence.
  - destruct (Hl t) as [Hd Hu]; [by right|].
    rewrite IH by done.
    assert (t ≠ t0) as Htt by congruence.
    assert (rn t ≠ t0) as Hrt0.
    { intros Heq. apply (apart_renamed oldstr newstr t); [done..|]. by rewrite Heq. }
    assert (t ≠ rn t0) as Htr0.
    { intros Heq. apply (apart_renamed oldstr newstr t0); [done..|]. by rewrite <-Heq. }
    assert (rn t ≠ rn t0) as Hrr.
    { intros Heq. by apply renamed_inj in Heq. }
    rewrite !Hst1, !isnow_step_get by done.
    rewrite !decide_False by naive_solver. done.
Qed.

End FirstLoop.

Section Lookups.
Import MoveTagCmd.

Lemma elem_of_tags_by_prefix st old t :
  t ∈ tags_by_prefix st old ↔ has_def st t ∧ tag_under old t.
Proof.
  unfold tags_by_prefix, has_def.
  rewrite list_elem_of_filter, tag_underb_spec, list_elem_of_fmap.
  split.
  - intros [? ([k v] & -> & Hkv%elem_of_map_to_list)]. simpl. eauto.
  - intros [[v Hv] ?]. split; [done|]. exists (t, v).
    split; [done|]. by apply elem_of_map_to_list.
Qed.

Lemma NoDup_tags_by_prefix st old : NoDup (tags_by_prefix st old).
Proof. unfold tags_by_prefix. apply NoDup_filter, NoDup_fst_map_to_list. Qed.

Lemma elem_of_nodes_by_tag st old b :
  b ∈ nodes_by_tag st old ↔ ∃ tags, nodes st !! b = Some tags ∧ carries old tags.
Proof.
  unfold nodes_by_tag. rewrite list_elem_of_fmap. split.
  - intros ([k tags] & -> & Hkv%elem_of_map_to_list).
    apply map_lookup_filter_Some in Hkv as [? ?]. eauto.
  - intros (tags & Hb & Hc). exists (b, tags). split; [done|].
    apply elem_of_map_to_list, map_lookup_filter_Some. done.
Qed.

Lemma carries_spec old (tags : gmap string TagValu) :
  carries old tags ↔ ∃ t, is_Some (tags !! t) ∧ tag_under old t.
Proof.
  unfold carries, set_Exists. setoid_rewrite elem_of_dom.
  by setoid_rewrite tag_underb_spec.
Qed.

End Lookups.

(** ** movetag: the definitions after the first loop *)

Section Definitions.
Import MoveTagCmd.
Context (oldtag newtag : string).

Abbreviation rn := (renamed oldtag newtag).

Lemma addNode_snd st n : (addNode st n).2 = n.
Proof. unfold addNode. by destruct (tagdefs st !! n). Qed.

Lemma set_isnow_eq st :
  set_isnow oldtag newtag st =
  let r := foldl (isnow_step oldtag newtag) (before_loop oldtag newtag st, {[oldtag := newtag]})
                 (matched oldtag newtag st) in
  (r.1, r.2, oldtag, newtag).
Proof.
  unfold set_isnow, matched, before_loop.
  destruct (addNode st oldtag) as [sta a] eqn:Ea.
  assert (a = oldtag) as -> by (by rewrite <-(addNode_snd st oldtag), Ea).
  simpl. destruct (addNode sta newtag) as [stb b] eqn:Eb.
  assert (b = newtag) as -> by (by rewrite <-(addNode_snd sta newtag), Eb).
  simpl. by destruct (foldl _ _ _).
Qed.

Lemma has_def_before_loop st x :
  has_def (before_loop oldtag newtag st) x ↔ has_def st x ∨ x = oldtag ∨ x = newtag.
Proof. unfold before_loop. rewrite !has_def_addNode. tauto. Qed.

Lemma node_get_before_loop st x p : node_get (before_loop oldtag newtag st) x p = node_get st x p.
Proof. unfold before_loop. by rewrite !node_get_addNode. Qed.

Lemma nodes_before_loop st : nodes (before_loop oldtag newtag st) = nodes st.
Proof. unfold before_loop. by rewrite !nodes_addNode. Qed.

Lemma elem_of_matched st t :
  t ∈ matched oldtag newtag st ↔ (has_def st t ∨ t = oldtag ∨ t = newtag) ∧ tag_under oldtag t.
Proof. unfold matched. by rewrite elem_of_tags_by_prefix, has_def_before_loop. Qed.

Lemma matched_has_def st t : t ∈ matched oldtag newtag st → has_def (before_loop oldtag newtag st) t.
Proof. unfold matched. rewrite elem_of_tags_by_prefix. tauto. Qed.

Lemma oldtag_matched st : oldtag ∈ matched oldtag newtag st.
Proof. apply elem_of_matched. split; [auto|by left]. Qed.

End Definitions.

Section DefinitionsClaim.
Import MoveTagCmd.

(** C6. The first loop of [movetag] rewrites exactly the tag-definitions
    whose name is [oldtag] or lies under it by whole path components (as
    the lookup, modelled from the spec, hands them out; [oldtag] and
    [newtag] themselves exist by then).  Each gets [isnow] set to its
    renamed name, which is [newtag] for [oldtag] itself and [newtag]
    followed by the unchanged suffix for a name under it; every other
    definition keeps its [isnow].  The renamed definition exists afterwards
    (it is created if absent, and nothing else is created), is recorded in
    the old-to-new mapping, and in the turn of the loop that handles a name
    under [oldtag] it receives the [doc] and [title] of the old definition
    where the old definition has them; when neither tree lies inside the
    other this is also what the store holds when the loop is over.  No
    other property and no data node changes. *)
Theorem movetag_rewrites_definitions
    (oldtag newtag : string) (st st2 : Store) (retag : gmap string string)
    (oldstr newstr : string) :
  set_isnow oldtag newtag st = (st2, retag, oldstr, newstr) →
  let rn := renamed oldtag newtag in
  let rewritten := matched oldtag newtag st in
  (oldstr = oldtag ∧ newstr = newtag) ∧
  (∀ t, t ∈ rewritten ↔
        (has_def st t ∨ t = oldtag ∨ t = newtag) ∧ tag_under oldtag t) ∧
  (rn oldtag = newtag ∧ ∀ s, rn (oldtag +:+ "." +:+ s) = newtag +:+ "." +:+ s) ∧
  (∀ t, node_get st2 t "isnow" =
        if decide (t ∈ rewritten) then Some (rn t) else node_get st t "isnow") ∧
  (∀ x, has_def st2 x ↔
        has_def st x ∨ x = oldtag ∨ x = newtag ∨ ∃ t, t ∈ rewritten ∧ x = rn t) ∧
  (∀ t, retag !! t = if decide (t ∈ rewritten) then Some (rn t) else None) ∧
  (∀ pre t post, rewritten = pre ++ t :: post → t ≠ oldtag →
     let acc := foldl (isnow_step oldtag newtag)
                      (before_loop oldtag newtag st, {[oldtag := newtag]}) pre in
     ∀ p, p = "doc" ∨ p = "title" →
       node_get (isnow_step oldtag newtag acc t).1 (rn t) p =
       match node_get acc.1 t p with
       | Some d => Some d
       | None => node_get acc.1 (rn t) p
       end) ∧
  (apart oldtag newtag → ∀ t p, t ∈ rewritten → t ≠ oldtag → p = "doc" ∨ p = "title" →
     node_get st2 (rn t) p =
     match node_get st t p with
     | Some d => Some d
     | None => node_get st (rn t) p
     end) ∧
  (∀ x p, p ≠ "isnow" → p ≠ "doc" → p ≠ "title" → node_get st2 x p = node_get st x p) ∧
  nodes st2 = nodes st.
Proof.
  intros Heq rn rewritten. rewrite set_isnow_eq in Heq. simpl in Heq.
  injection Heq as <- <- <- <-.
  assert (∀ t, t ∈ rewritten → has_def (before_loop oldtag newtag st) t) as Hdef
    by (intros t; apply matched_has_def).
  split_and!.
  - done.
  - done.
  - intros t. apply elem_of_matched.
  - apply renamed_exact.
  - intros s. apply renamed_child.
  - intros t. rewrite isnow_loop_isnow by done.
    by rewrite (node_get_before_loop oldtag newtag).
  - intros x. rewrite isnow_loop_has_def.
    rewrite has_def_before_loop. split.
    + intros [?|(t & ? & ? & ->)]; [tauto|]. right; right; right. by exists t.
    + intros [?|[?|[?|(t & Ht & ->)]]]; [tauto..|].
      destruct (decide (t = oldtag)) as [->|Hne].
      * left. right. right. apply renamed_exact.
      * right. by exists t.
  - intros t. rewrite isnow_loop_retag.
    destruct (decide (t ∈ rewritten)) as [Hin|Hnin].
    + destruct (decide (t = oldtag)) as [->|Hne].
      * rewrite decide_False by naive_solver.
        rewrite lookup_singleton_eq. f_equal. symmetry. apply renamed_exact.
      * by rewrite decide_True.
    + rewrite decide_False by naive_solver.
      apply lookup_singleton_ne. intros <-. apply Hnin, oldtag_matched.
  - intros pre t post Hsplit Hne acc p Hp.
    destruct acc as [sta reta] eqn:Eacc.
    rewrite isnow_step_get.
    + rewrite decide_False by (destruct Hp as [->| ->]; naive_solver).
      by rewrite decide_True.
    + replace sta with acc.1 by (by rewrite Eacc). subst acc.
      apply isnow_loop_has_def. left. apply Hdef. rewrite Hsplit.
      apply elem_of_app. right. by left.
  - intros Hap t p Ht Hne Hp.
    rewrite isnow_loop_copy; [|done|apply NoDup_tags_by_prefix| |done..].
    + by rewrite !(node_get_before_loop oldtag newtag).
    + intros t' Ht'. split; [by apply Hdef|]. by apply elem_of_matched in Ht' as [_ ?].
  - intros x p ???. rewrite isnow_loop_frame; [|done|done|].
    + apply node_get_before_loop.
    + by intros [?|?].
  - rewrite isnow_loop_nodes. apply nodes_before_loop.
Qed.

(** The turn for [oldtag] itself sets [isnow] and nothing else: [doc] and
    [title] of [newtag] stay as they were. *)
Lemma movetag_exact_match_keeps_metadata
    (oldtag newtag : string) (st : Store) (p : string) :
  p = "doc" ∨ p = "title" →
  node_get (set_isnow oldtag newtag st).1.1.1 newtag p = node_get st newtag p.
Proof.
  intros Hp. rewrite set_isnow_eq. simpl.
  rewrite isnow_loop_frame.
  - apply node_get_before_loop.
  - intros t. apply matched_has_def.
  - by destruct Hp as [->| ->].
  - intros _ t Ht Hne Heq. apply Hne.
    apply (renamed_inj oldtag newtag).
    + by apply elem_of_matched in Ht as [_ ?].
    + by left.
    + by rewrite renamed_exact.
Qed.

End DefinitionsClaim.

(** ** movetag: the second loop *)

Section SecondLoop.
Import MoveTagCmd.
Context (retag : gmap string string).

Lemma elem_of_sorted_tags (tags : gmap string TagValu) name v :
  (name, v) ∈ sorted_tags tags ↔ tags !! name = Some v.
Proof.
  unfold sorted_tags. rewrite merge_sort_Permutation.
  apply elem_of_map_to_list.
Qed.

Lemma NoDup_sorted_tags (tags : gmap string TagValu) : NoDup (sorted_tags tags).*1.
Proof.
  unfold sorted_tags. rewrite merge_sort_Permutation.
  apply NoDup_fst_map_to_list.
Qed.

(** No application is left under a name that the mapping renames, provided
    no renamed name is itself renamed. *)
Lemma retag_loop_clears (l : list (string * TagValu)) : ∀ cur,
  (∀ k m, retag !! k = Some m → retag !! m = None) →
  (∀ k, is_Some (retag !! k) → is_Some (cur !! k) → k ∈ l.*1) →
  ∀ k, is_Some (retag !! k) → foldl (retag_step retag) cur l !! k = None.
Proof.
  induction l as [|[n v] l IH]; intros cur Hrng Hcur k Hk; simpl.
  { destruct (cur !! k) eqn:E; [|done].
    exfalso. eapply elem_of_nil, (Hcur k); [done|]. rewrite E. eauto. }
  apply IH; [done| |done].
  intros k' Hk' Hc. unfold retag_step in Hc. simpl in Hc.
  destruct (retag !! n) as [m|] eqn:En.
  - unfold addTag, delTag in Hc.
    assert (k' ≠ m) as Hm.
    { intros ->. rewrite (Hrng _ _ En) in Hk'. by destruct Hk'. }
    rewrite lookup_insert_ne in Hc by done.
    destruct (decide (k' = n)) as [->|Hn]; [by rewrite lookup_delete_eq in Hc; destruct Hc|].
    rewrite lookup_delete_ne in Hc by done.
    specialize (Hcur k' Hk' Hc). simpl in Hcur.
    by apply elem_of_cons in Hcur as [?|?].
  - specialize (Hcur k' Hk' Hc). simpl in Hcur.
    apply elem_of_cons in Hcur as [->|?]; [|done].
    rewrite En in Hk'. by destruct Hk'.
Qed.

Lemma retag_tags_clears (tags : gmap string TagValu) k :
  (∀ k m, retag !! k = Some m → retag !! m = None) →
  is_Some (retag !! k) → retag_tags retag tags !! k = None.
Proof.
  intros Hrng Hk. unfold retag_tags. apply retag_loop_clears; [done| |done].
  intros k' _ [v Hv]. apply list_elem_of_fmap. exists (k', v).
  split; [done|]. by apply elem_of_sorted_tags.
Qed.

(** A node none of whose tags is renamed keeps its tags. *)
Lemma retag_tags_id (tags : gmap string TagValu) :
  (∀ k, is_Some (retag !! k) → tags !! k = None) → retag_tags retag tags = tags.
Proof.
  intros Hclear. unfold retag_tags.
  assert (∀ n v, (n, v) ∈ sorted_tags tags → retag !! n = None) as Hl.
  { intros n v Hn%elem_of_sorted_tags.
    destruct (retag !! n) eqn:E; [|done].
    rewrite Hclear in Hn by eauto. done. }
  assert (∀ (l : list (string * TagValu)) cur,
            (∀ n v, (n, v) ∈ l → retag !! n = None) →
            foldl (retag_step retag) cur l = cur) as Hfold; [|by apply Hfold].
  clear. intros l. induction l as [|[n v] l IH]; intros cur Hl; simpl; [done|].
  unfold retag_step at 2. simpl. rewrite (Hl n v) by (by left).
  apply IH. intros n' v' ?. apply (Hl n' v'). by right.
Qed.

Lemma retag_node_tagdefs st b : tagdefs (retag_node retag st b) = tagdefs st.
Proof. done. Qed.

Lemma retag_nodes_tagdefs found : ∀ st,
  tagdefs (foldl (retag_node retag) st found) = tagdefs st.
Proof. induction found as [|b l IH]; intros st; simpl; [done|]. by rewrite IH. Qed.

(** After the loop every node it visited is free of renamed names. *)
Lemma retag_nodes_clear found : ∀ st,
  (∀ k m, retag !! k = Some m → retag !! m = None) →
  (∀ b tags, nodes st !! b = Some tags →
     b ∈ found ∨ ∀ k, is_Some (retag !! k) → tags !! k = None) →
  ∀ b tags, nodes (foldl (retag_node retag) st found) !! b = Some tags →
    ∀ k, is_Some (retag !! k) → tags !! k = None.
Proof.
  induction found as [|b0 l IH]; intros st Hrng Hst b tags Hb k Hk; simpl in *.
  { destruct (Hst b tags Hb) as [?%elem_of_nil|Hc]; [done|by apply Hc]. }
  eapply (IH (retag_node retag st b0)); [done| |done..].
  intros b' tags' Hb'. unfold retag_node in Hb'. simpl in Hb'.
  rewrite lookup_alter in Hb'. destruct (decide (b0 = b')) as [->|Hne].
  - right. intros k' Hk'.
    destruct (nodes st !! b') as [tags0|]; [|done]. simpl in Hb'.
    injection Hb' as <-. by apply retag_tags_clears.
  - destruct (Hst b' tags' Hb') as [[?|?]%elem_of_cons|?]; [congruence|by left|by right].
Qed.

(** Nodes free of renamed names are left as they are. *)
Lemma retag_nodes_id found : ∀ st,
  (∀ b tags, nodes st !! b = Some tags →
     ∀ k, is_Some (retag !! k) → tags !! k = None) →
  foldl (retag_node retag) st found = st.
Proof.
  induction found as [|b0 l IH]; intros st Hst; simpl; [done|].
  assert (retag_node retag st b0 = st) as ->; [|by apply IH].
  unfold retag_node. destruct st as [defs nds]. simpl in *. f_equal.
  apply alter_id. intros tags Htags. apply retag_tags_id. by eapply Hst.
Qed.

(** A name that no step deletes or writes keeps its application. *)
Lemma retag_loop_frame (l : list (string * TagValu)) : ∀ cur k,
  (∀ n v m, (n, v) ∈ l → retag !! n = Some m → k ≠ n ∧ k ≠ m) →
  foldl (retag_step retag) cur l !! k = cur !! k.
Proof.
  induction l as [|[n v] l IH]; intros cur k Hk; simpl; [done|].
  rewrite IH.
  - unfold retag_step. simpl. destruct (retag !! n) as [m|] eqn:En; [|done].
    destruct (Hk n v m) as [? ?]; [by left|done|].
    unfold addTag, delTag. by rewrite lookup_insert_ne, lookup_delete_ne.
  - intros n' v' m' ? ?. apply (Hk n' v' m'); [by right|done].
Qed.

(** Each renamed application arrives under its new name with its value,
    provided no renamed name is itself renamed and no two names are renamed
    to the same one. *)
Lemma retag_loop_moves (l : list (string * TagValu)) : ∀ cur n v m,
  (∀ k m, retag !! k = Some m → retag !! m = None) →
  (∀ k1 k2 m, retag !! k1 = Some m → retag !! k2 = Some m → k1 = k2) →
  NoDup l.*1 →
  (n, v) ∈ l → retag !! n = Some m →
  foldl (retag_step retag) cur l !! m = Some v.
Proof.
  induction l as [|[n0 v0] l IH]; intros cur n v m Hrng Hinj Hnd Hin Hn;
    [by apply elem_of_nil in Hin|].
  simpl in *. apply NoDup_cons in Hnd as [Hn0 Hnd].
  apply elem_of_cons in Hin as [[= -> ->]|Hin]; [|by eapply IH].
  rewrite retag_loop_frame.
  - unfold retag_step. simpl. rewrite Hn. unfold addTag. by rewrite lookup_insert_eq.
  - intros n' v' m' Hin' Hn'. split.
    + intros ->. rewrite (Hrng _ _ Hn) in Hn'. done.
    + intros ->. apply Hn0. rewrite (Hinj _ _ _ Hn Hn').
      apply list_elem_of_fmap. by exists (n', v').
Qed.

Lemma retag_tags_moves (tags : gmap string TagValu) n v m :
  (∀ k m, retag !! k = Some m → retag !! m = None) →
  (∀ k1 k2 m, retag !! k1 = Some m → retag !! k2 = Some m → k1 = k2) →
  tags !! n = Some v → retag !! n = Some m →
  retag_tags retag tags !! m = Some v.
Proof.
  intros Hrng Hinj Hv Hn. unfold retag_tags.
  eapply retag_loop_moves; [done|done|apply NoDup_sorted_tags| |done].
  by apply elem_of_sorted_tags.
Qed.

Lemma retag_tags_other (tags : gmap string TagValu) k :
  retag !! k = None →
  (∀ n m, retag !! n = Some m → m ≠ k) →
  retag_tags retag tags !! k = tags !! k.
Proof.
  intros Hk Hrng. unfold retag_tags. apply retag_loop_frame.
  intros n v m _ Hn. split; [|by intros ->; eapply Hrng]. intros ->. congruence.
Qed.

Lemma retag_nodes_lookup found : ∀ st b,
  NoDup found →
  nodes (foldl (retag_node retag) st found) !! b =
  if decide (b ∈ found) then retag_tags retag <$> nodes st !! b else nodes st !! b.
Proof.
  induction found as [|b0 l IH]; intros st b Hnd; simpl; [done|].
  apply NoDup_cons in Hnd as [Hb0 Hnd]. rewrite IH by done.
  unfold retag_node. simpl. rewrite lookup_alter.
  destruct (decide (b0 = b)) as [->|Hne].
  - rewrite decide_False by done. rewrite decide_True; [done|by left].
  - destruct (decide (b ∈ l)) as [Hin|Hnin].
    + rewrite decide_True; [done|by right].
    + rewrite decide_False; [done|]. by intros [?|?]%elem_of_cons.
Qed.

End SecondLoop.

(** ** movetag: running it twice *)

Section Twice.
Import MoveTagCmd.
Context (oldtag newtag : string).

Abbreviation rn := (renamed oldtag newtag).

Lemma movetag_eq st :
  movetag oldtag newtag st =
  let r := foldl (isnow_step oldtag newtag)
                 (before_loop oldtag newtag st, {[oldtag := newtag]})
                 (matched oldtag newtag st) in
  foldl (retag_node r.2) r.1 (nodes_by_tag r.1 oldtag).
Proof. unfold movetag, runStormCmd. by rewrite set_isnow_eq. Qed.

Lemma isnow_step_settled st retag t :
  settled oldtag newtag st → has_def st t → tag_under oldtag t →
  (isnow_step oldtag newtag (st, retag) t).1 = st.
Proof.
  intros Hs Hd Hu. unfold isnow_step.
  destruct (decide (t = oldtag)) as [->|Hne]; simpl.
  { apply node_set_id. rewrite (settled_isnow _ _ _ Hs) by done.
    by rewrite renamed_exact. }
  rewrite addNode_id by (by apply (settled_renamed _ _ _ Hs)). simpl.
  assert (match node_get st t "doc" with
          | Some olddoc => node_set st (rn t) "doc" olddoc
          | None => st
          end = st) as ->.
  { destruct (node_get st t "doc") as [d|] eqn:E; [|done].
    apply node_set_id. apply (settled_copy _ _ _ Hs t); auto. }
  assert (match node_get st t "title" with
          | Some oldtitle => node_set st (rn t) "title" oldtitle
          | None => st
          end = st) as ->.
  { destruct (node_get st t "title") as [d|] eqn:E; [|done].
    apply node_set_id. apply (settled_copy _ _ _ Hs t); auto. }
  apply node_set_id. by apply (settled_isnow _ _ _ Hs).
Qed.

#[local] Arguments isnow_step : simpl never.

Lemma isnow_loop_settled l : ∀ st retag,
  settled oldtag newtag st → (∀ t, t ∈ l → has_def st t ∧ tag_under oldtag t) →
  (foldl (isnow_step oldtag newtag) (st, retag) l).1 = st.
Proof.
  induction l as [|t l IH]; intros st retag Hs Hl; [done|].
  simpl. destruct (isnow_step oldtag newtag (st, retag) t) as [st1 retag1] eqn:E.
  assert (st1 = st) as ->.
  { replace st1 with (isnow_step oldtag newtag (st, retag) t).1 by (by rewrite E).
    apply isnow_step_settled; [done|apply Hl; by left..]. }
  apply IH; [done|]. intros t' ?. apply Hl. by right.
Qed.

(** The mapping built by the first loop renames exactly the definitions
    under [oldtag]. *)
Lemma retag_spec st k :
  is_Some ((foldl (isnow_step oldtag newtag)
              (before_loop oldtag newtag st, {[oldtag := newtag]})
              (matched oldtag newtag st)).2 !! k)
  ↔ k ∈ matched oldtag newtag st.
Proof.
  rewrite isnow_loop_retag. destruct (decide (k = oldtag)) as [->|Hne].
  - rewrite decide_False by naive_solver. rewrite lookup_singleton_eq.
    split; [intros _; apply oldtag_matched|eauto].
  - rewrite lookup_singleton_ne by done.
    destruct (decide (k ∈ matched oldtag newtag st)) as [Hin|Hnin].
    + rewrite decide_True by done. split; eauto.
    + rewrite decide_False by naive_solver. split; [by intros [? ?]|done].
Qed.

Lemma retag_value st k m :
  (foldl (isnow_step oldtag newtag)
     (before_loop oldtag newtag st, {[oldtag := newtag]})
     (matched oldtag newtag st)).2 !! k = Some m →
  m = rn k ∧ k ∈ matched oldtag newtag st.
Proof.
  intros H. assert (k ∈ matched oldtag newtag st) as Hk by (apply retag_spec; eauto).
  split; [|done]. rewrite isnow_loop_retag in H.
  destruct (decide (k = oldtag)) as [->|Hne].
  - rewrite decide_False in H by naive_solver.
    rewrite lookup_singleton_eq in H. injection H as <-. by rewrite renamed_exact.
  - rewrite decide_True in H by done. by injection H.
Qed.

(** On a settled store the command changes nothing. *)
Lemma movetag_settled st : settled oldtag newtag st → movetag oldtag newtag st = st.
Proof.
  intros Hs. rewrite movetag_eq. simpl.
  assert (before_loop oldtag newtag st = st) as Hbl.
  { unfold before_loop. rewrite (addNode_id st oldtag) by apply Hs. simpl.
    rewrite (addNode_id st newtag) by apply Hs. done. }
  assert (∀ t, t ∈ matched oldtag newtag st → has_def st t ∧ tag_under oldtag t) as Hm.
  { intros t Ht. split.
    - rewrite <-Hbl. by apply matched_has_def.
    - by apply elem_of_matched in Ht as [_ ?]. }
  set (r := foldl (isnow_step oldtag newtag) _ _).
  assert (r.1 = st) as Hr1.
  { subst r. rewrite Hbl at 1. by apply isnow_loop_settled. }
  rewrite Hr1. apply retag_nodes_id.
  intros b tags Hb k Hk. subst r. apply retag_spec in Hk.
  destruct (Hm k Hk). by eapply (settled_nodes _ _ _ Hs).
Qed.

(** When neither tree lies inside the other, one run settles the store. *)
Lemma movetag_settles st :
  apart oldtag newtag → settled oldtag newtag (movetag oldtag newtag st).
Proof.
  intros Hap. rewrite movetag_eq. simpl.
  set (st1 := before_loop oldtag newtag st).
  set (l := matched oldtag newtag st).
  set (r := foldl (isnow_step oldtag newtag) (st1, {[oldtag := newtag]}) l).
  set (found := nodes_by_tag r.1 oldtag).
  set (st3 := foldl (retag_node r.2) r.1 found).
  assert (tagdefs st3 = tagdefs r.1) as Hdefs by apply retag_nodes_tagdefs.
  assert (∀ x, has_def st3 x ↔ has_def r.1 x) as Hhd
    by (intros x; unfold has_def; by rewrite Hdefs).
  assert (∀ x p, node_get st3 x p = node_get r.1 x p) as Hng
    by (intros x p; unfold node_get; by rewrite Hdefs).
  assert (∀ t, t ∈ l → has_def st1 t) as Hl1 by (intros t; apply matched_has_def).
  assert (∀ t, t ∈ l → tag_under oldtag t) as Hlu.
  { intros t Ht. by apply elem_of_matched in Ht as [_ ?]. }
  assert (∀ t, has_def r.1 t → tag_under oldtag t → t ∈ l) as Hin.
  { intros t Ht Hu. subst r. apply isnow_loop_has_def in Ht as [Ht|(t' & Ht' & _ & ->)].
    - apply elem_of_tags_by_prefix. done.
    - exfalso. by apply (apart_renamed oldtag newtag t'); [|apply Hlu|]. }
  assert (∀ k m, r.2 !! k = Some m → r.2 !! m = None) as Hrng.
  { intros k m [-> Hk]%retag_value.
    destruct (r.2 !! rn k) eqn:E; [|done].
    assert (rn k ∈ l) as Hrk by (apply retag_spec; eauto).
    exfalso. apply (apart_renamed oldtag newtag k); [done|by apply Hlu|by apply Hlu]. }
  split.
  - apply Hhd. subst r. apply isnow_loop_has_def. left.
    apply has_def_before_loop. auto.
  - apply Hhd. subst r. apply isnow_loop_has_def. left.
    apply has_def_before_loop. auto.
  - intros t Ht%Hhd Hu. rewrite Hng. subst r.
    rewrite isnow_loop_isnow by done. by rewrite decide_True by (by apply Hin).
  - intros t Ht%Hhd Hu. apply Hhd. subst r.
    apply isnow_loop_has_def. destruct (decide (t = oldtag)) as [->|Hne].
    + left. rewrite renamed_exact. apply has_def_before_loop. auto.
    + right. exists t. split_and!; [by apply Hin|done..].
  - intros t p d Ht%Hhd Hu Hne Hp. rewrite !Hng. subst r.
    assert (t ∈ l) as Htl by (by apply Hin).
    rewrite isnow_loop_frame; [|done|by destruct Hp as [->| ->]|].
    + intros Hd. rewrite isnow_loop_copy; [by rewrite Hd|done|..|done|done|done].
      * apply NoDup_tags_by_prefix.
      * intros t' Ht'. split; [by apply Hl1|by apply Hlu].
    + intros _ t' Ht' Hne' Heq.
      apply (apart_renamed oldtag newtag t'); [done|by apply Hlu|].
      by rewrite <-Heq.
  - intros b tags t Hb Ht%Hhd Hu.
    assert (is_Some (r.2 !! t)) as Hk by (apply retag_spec; by apply Hin).
    revert t Ht Hu Hk. change (∀ t, has_def r.1 t → tag_under oldtag t →
      is_Some (r.2 !! t) → tags !! t = None).
    intros t _ _ Hk. revert Hk. revert t.
    eapply (retag_nodes_clear r.2 found r.1); [done| |exact Hb].
    intros b' tags' Hb'.
    destruct (decide (carries oldtag tags')) as [Hc|Hc].
    + left. apply elem_of_nodes_by_tag. eauto.
    + right. intros k Hk. destruct (tags' !! k) eqn:E; [|done].
      exfalso. apply Hc. apply carries_spec. exists k. split; [eauto|].
      apply Hlu. by apply retag_spec.
Qed.

End Twice.

(** ** movetag: renaming a tree to itself *)

Section TwiceSame.
Import MoveTagCmd.
Context (t : string).

Lemma renamed_same x : tag_under t x → renamed t t x = x.
Proof. intros (suf & -> & _)%tag_under_split. apply renamed_app. Qed.

(** A mapping that renames every name to itself leaves the tags alone. *)
Lemma retag_loop_same (retag : gmap string string) (l : list (string * TagValu)) :
  (∀ k m, retag !! k = Some m → m = k) →
  ∀ cur, (∀ n v, (n, v) ∈ l → cur !! n = Some v) →
  foldl (retag_step retag) cur l = cur.
Proof.
  intros Hid. induction l as [|[n v] l IH]; intros cur Hl; simpl; [done|].
  assert (retag_step retag cur (n, v) = cur) as ->.
  { unfold retag_step. simpl. destruct (retag !! n) as [m|] eqn:E; [|done].
    apply Hid in E as ->. unfold addTag, delTag.
    rewrite insert_delete_eq. apply insert_id. apply Hl. left. }
  apply IH. intros n' v' ?. apply Hl. by right.
Qed.

Lemma retag_tags_same (retag : gmap string string) (tags : gmap string TagValu) :
  (∀ k m, retag !! k = Some m → m = k) → retag_tags retag tags = tags.
Proof.
  intros Hid. unfold retag_tags. apply retag_loop_same; [done|].
  intros n v. apply elem_of_sorted_tags.
Qed.

Lemma retag_nodes_same (retag : gmap string string) found : ∀ st,
  (∀ k m, retag !! k = Some m → m = k) →
  foldl (retag_node retag) st found = st.
Proof.
  induction found as [|b l IH]; intros st Hid; simpl; [done|].
  assert (retag_node retag st b = st) as ->; [|by apply IH].
  unfold retag_node. destruct st as [defs nds]. simpl. f_equal.
  apply alter_id. intros tags _. by apply retag_tags_same.
Qed.

(** A turn of the first loop for a definition that already is its own
    [isnow] changes nothing. *)
Lemma isnow_step_same st retag x :
  has_def st x → tag_under t x → node_get st x "isnow" = Some x →
  (isnow_step t t (st, retag) x).1 = st.
Proof.
  intros Hd Hu Hi. unfold isnow_step.
  destruct (decide (x = t)) as [->|Hne]; simpl.
  { by apply node_set_id. }
  rewrite (renamed_same x Hu).
  rewrite addNode_id by done. simpl.
  assert (match node_get st x "doc" with
          | Some olddoc => node_set st x "doc" olddoc
          | None => st
          end = st) as ->.
  { destruct (node_get st x "doc") as [d|] eqn:E; [|done]. by apply node_set_id. }
  assert (match node_get st x "title" with
          | Some oldtitle => node_set st x "title" oldtitle
          | None => st
          end = st) as ->.
  { destruct (node_get st x "title") as [d|] eqn:E; [|done]. by apply node_set_id. }
  by apply node_set_id.
Qed.

#[local] Arguments isnow_step : simpl never.

Lemma isnow_loop_same l : ∀ st retag,
  (∀ x, x ∈ l → has_def st x ∧ tag_under t x ∧ node_get st x "isnow" = Some x) →
  (foldl (isnow_step t t) (st, retag) l).1 = st.
Proof.
  induction l as [|x l IH]; intros st retag Hl; [done|].
  simpl. destruct (isnow_step t t (st, retag) x) as [st1 retag1] eqn:E.
  assert (st1 = st) as ->.
  { replace st1 with (isnow_step t t (st, retag) x).1 by (by rewrite E).
    destruct (Hl x) as (? & ? & ?); [by left|]. by apply isnow_step_same. }
  apply IH. intros x' ?. apply Hl. by right.
Qed.

(** One run leaves the nodes alone: it only sets [isnow]. *)
Lemma movetag_same_eq st :
  movetag t t st =
  (foldl (isnow_step t t) (before_loop t t st, {[t := t]}) (matched t t st)).1.
Proof.
  rewrite movetag_eq. simpl. apply retag_nodes_same.
  intros k m [-> Hk]%retag_value.
  apply renamed_same. by apply elem_of_matched in Hk as [_ ?].
Qed.

Lemma movetag_same_twice st : movetag t t (movetag t t st) = movetag t t st.
Proof.
  rewrite (movetag_same_eq (movetag t t st)).
  rewrite (movetag_same_eq st).
  set (l := matched t t st).
  set (st1 := (foldl (isnow_step t t) (before_loop t t st, {[t := t]}) l).1).
  assert (∀ x, x ∈ l → has_def (before_loop t t st) x) as Hl
    by (intros x; apply matched_has_def).
  assert (∀ x, x ∈ l → tag_under t x) as Hlu.
  { intros x Hx. by apply elem_of_matched in Hx as [_ ?]. }
  assert (∀ x, has_def st1 x ↔ has_def (before_loop t t st) x) as Hhd.
  { intros x. subst st1. rewrite isnow_loop_has_def. split; [|by left].
    intros [?|(x' & Hx' & _ & ->)]; [done|].
    rewrite renamed_same by (by apply Hlu). by apply Hl. }
  assert (has_def st1 t) as Ht.
  { apply Hhd, has_def_before_loop. auto. }
  assert (before_loop t t st1 = st1) as Hbl.
  { unfold before_loop. rewrite (addNode_id st1 t) by done. simpl.
    by rewrite (addNode_id st1 t) by done. }
  rewrite Hbl. apply isnow_loop_same.
  intros x Hx. apply elem_of_matched in Hx as [Hx Hu].
  assert (has_def st1 x) as Hdx by (destruct Hx as [?|[->| ->]]; done).
  split_and!; [done..|].
  assert (x ∈ l) as Hxl.
  { apply elem_of_tags_by_prefix. split; [by apply Hhd|done]. }
  subst st1. rewrite isnow_loop_isnow by done.
  rewrite decide_True by done. by rewrite renamed_same.
Qed.

End TwiceSame.

Section TwiceClaim.
Import MoveTagCmd.

Lemma not_below_apart (oldtag newtag : string) :
  ¬ tag_below oldtag newtag → ¬ tag_below newtag oldtag →
  oldtag = newtag ∨ apart oldtag newtag.
Proof.
  intros H1 H2. destruct (decide (oldtag = newtag)) as [?|Hne]; [by left|].
  right. split; intros [?|?]; unfold tag_below in *; naive_solver.
Qed.

Lemma tag_below_check (old t : string) :
  String.prefix (old +:+ ".") t = false → ¬ tag_below old t.
Proof.
  intros H [s Hs]. assert (String.prefix (old +:+ ".") t = true); [|congruence].
  apply sprefix_spec. exists s. by rewrite sapp_assoc.
Qed.

(** C5, as the code has it.  When [newtag] does not lie properly under
    [oldtag] and [oldtag] does not lie properly under [newtag] (the two may
    be the same tag), running [movetag oldtag newtag] a second time leaves
    the store exactly as the first run left it: no definition, property,
    application or value differs. *)
Theorem movetag_twice_unless_nested (oldtag newtag : string) (st : Store) :
  ¬ tag_below oldtag newtag → ¬ tag_below newtag oldtag →
  movetag oldtag newtag (movetag oldtag newtag st) = movetag oldtag newtag st.
Proof.
  intros H1 H2. destruct (not_below_apart _ _ H1 H2) as [->|Hap].
  - apply movetag_same_twice.
  - by apply movetag_settled, movetag_settles.
Qed.

End TwiceClaim.

(** ** movetag on small stores *)

Section MoveTagRuns.
Import MoveTagCmd.

Lemma apart_check (old new : string) :
  tag_underb old new = false → tag_underb new old = false → apart old new.
Proof.
  intros H1 H2. split; intros H%tag_underb_spec; congruence.
Qed.

Lemma movetag_rewrites_definitions_witness :
  let st2 := (set_isnow "foo.bar" "zar.qux" foo_store).1.1.1 in
  node_get st2 "foo.bar" "isnow" = Some "zar.qux" ∧
  node_get st2 "foo.bar.baz" "isnow" = Some "zar.qux.baz" ∧
  node_get st2 "foo.barbaz" "isnow" = None ∧
  node_get st2 "zar.qux.baz" "title" = Some "Baz" ∧
  has_def st2 "zar.qux.baz".
Proof.
  intros st2.
  assert (set_isnow "foo.bar" "zar.qux" foo_store
          = (st2, (set_isnow "foo.bar" "zar.qux" foo_store).1.1.2,
             (set_isnow "foo.bar" "zar.qux" foo_store).1.2,
             (set_isnow "foo.bar" "zar.qux" foo_store).2)) as E
    by (vm_compute; reflexivity).
  destruct (movetag_rewrites_definitions _ _ _ _ _ _ _ E)
    as (_ & _ & _ & Hisnow & Hdef & _ & _ & Hcopy & _).
  split_and!.
  - rewrite Hisnow. vm_compute. reflexivity.
  - rewrite Hisnow. vm_compute. reflexivity.
  - rewrite Hisnow. vm_compute. reflexivity.
  - assert ("foo.bar.baz" ∈ matched "foo.bar" "zar.qux" foo_store) as Hin
      by (apply (bool_decide_unpack _); vm_compute; exact I).
    exact (Hcopy (apart_check "foo.bar" "zar.qux" eq_refl eq_refl)
             "foo.bar.baz" "title" Hin ltac:(discriminate) (or_intror eq_refl)).
  - apply Hdef. right. right. right. exists "foo.bar.baz". split.
    + apply (bool_decide_unpack _). vm_compute. exact I.
    + vm_compute. reflexivity.
Defined.

(** The run of the spec's example: node 1 ends up tagged [zar.qux] (null)
    and [zar.qux.baz] ((100, 200)); node 2 keeps [foo.barbaz]. *)
Example movetag_foo_bar :
  nodes (movetag "foo.bar" "zar.qux" foo_store)
  = {[ 1%N := {[ "zar.qux" := None; "zar.qux.baz" := Some (100, 200)%Z ]};
       2%N := {[ "foo.barbaz" := None ]} ]} ∧
  (runStormCmd "foo.bar" "zar.qux" foo_store).2 = ["moved tags on 1 nodes."].
Proof. split; vm_compute; reflexivity. Qed.

Lemma movetag_twice_unless_nested_witness :
  (* two trees apart *)
  movetag "foo.bar" "zar.qux" (movetag "foo.bar" "zar.qux" foo_store)
  = movetag "foo.bar" "zar.qux" foo_store ∧
  (* a tree renamed to itself *)
  movetag "a" "a" (movetag "a" "a" nested_store) = movetag "a" "a" nested_store.
Proof.
  split.
  - apply (movetag_twice_unless_nested "foo.bar" "zar.qux" foo_store);
      apply tag_below_check; reflexivity.
  - apply (movetag_twice_unless_nested "a" "a" nested_store);
      apply tag_below_check; reflexivity.
Defined.

(** Renaming a tree to itself leaves every application where it is and
    makes each definition of the tree its own [isnow]. *)
Example movetag_to_itself :
  nodes (movetag "a" "a" nested_store) = nodes nested_store ∧
  node_get (movetag "a" "a" nested_store) "a.b.c" "isnow" = Some "a.b.c".
Proof. split; vm_compute; reflexivity. Qed.

(** C5, as the claim states it, fails when the new name lies under the old
    one: [movetag foo foo.bar] moves [foo.bar] to [foo.bar.bar], and a
    second run finds that tag under [foo] again and moves it once more. *)
Lemma movetag_twice_into_subtree_differs :
  nodes (movetag "foo" "foo.bar" foo_store) !! 1%N
  = Some {[ "foo.bar.bar" := None; "foo.bar.bar.baz" := Some (100, 200)%Z ]} ∧
  nodes (movetag "foo" "foo.bar" (movetag "foo" "foo.bar" foo_store)) !! 1%N
  = Some {[ "foo.bar.bar.bar" := None; "foo.bar.bar.bar.baz" := Some (100, 200)%Z ]} ∧
  movetag "foo" "foo.bar" (movetag "foo" "foo.bar" foo_store)
  ≠ movetag "foo" "foo.bar" foo_store.
Proof.
  split_and!; [vm_compute; reflexivity..|].
  intros H.
  apply (f_equal (λ st, nodes st !! 1%N ≫= (.!! "foo.bar.bar"))) in H.
  vm_compute in H. discriminate.
Qed.

(** The same when the old name lies under the new one:
    [movetag foo.bar foo] moves [foo.bar.bar.x] to [foo.bar.x], which a
    second run moves on to [foo.x]. *)
Example movetag_twice_to_parent_differs :
  nodes (movetag "foo.bar" "foo" deep_store) !! 1%N
  = Some {[ "foo.bar.x" := Some (100, 200)%Z ]} ∧
  nodes (movetag "foo.bar" "foo" (movetag "foo.bar" "foo" deep_store)) !! 1%N
  = Some {[ "foo.x" := Some (100, 200)%Z ]}.
Proof. split; vm_compute; reflexivity. Qed.

(** C4 at the failing input.  [movetag a a.b] on a node tagged [a], [a.b],
    [a.c] ((100, 200)) and [a.b.c] ((300, 400)): the loop handles [a.c]
    first and moves it to [a.b.c]; it then handles the old [a.b.c], whose
    [delTag] removes the application just made.  The interval (100, 200)
    is on no tag of the node afterwards; a rename of the whole tree would
    leave it on [a.b.c]. *)
Example movetag_into_subtree_drops_application :
  sorted_tags {[ "a" := None; "a.b" := None; "a.c" := Some (100, 200)%Z;
                 "a.b.c" := Some (300, 400)%Z ]}
  = [("a.c", Some (100, 200)%Z); ("a.b.c", Some (300, 400)%Z);
     ("a.b", None); ("a", None)] ∧
  nodes (movetag "a" "a.b" nested_store) !! 1%N
  = Some {[ "a.b" := None; "a.b.b" := None; "a.b.b.c" := Some (300, 400)%Z ]} ∧
  (∀ tags t, nodes (movetag "a" "a.b" nested_store) !! 1%N = Some tags →
             tags !! t ≠ Some (Some (100, 200)%Z)).
Proof.
  split_and!; [vm_compute; reflexivity..|].
  intros tags t. 
  replace (nodes (movetag "a" "a.b" nested_store) !! 1%N)
    with (Some ({[ "a.b" := None; "a.b.b" := None;
                   "a.b.b.c" := Some (300, 400)%Z ]} : gmap string TagValu))
    by (vm_compute; reflexivity).
  intros [= <-] Ht.
  apply lookup_insert_Some in Ht as [[_ ?]|[_ Ht]]; [done|].
  apply lookup_insert_Some in Ht as [[_ ?]|[_ Ht]]; [done|].
  apply lookup_singleton_Some in Ht as [_ ?]. done.
Qed.

End MoveTagRuns.

Section ValuesApart.
Import MoveTagCmd.

(** X20. The part of C4 that the code does achieve.  When neither tree lies
    inside the other, every application of a tag whose definition lies
    under [oldtag] ends up under the renamed tag with exactly its value,
    and is gone from the old name; a tag that is neither renamed nor under
    [newtag] keeps its application as it was. *)
Theorem movetag_keeps_values_apart
    (oldtag newtag : string) (st : Store) (b : N) (tags : gmap string TagValu) :
  apart oldtag newtag →
  nodes st !! b = Some tags →
  ∃ tags', nodes (movetag oldtag newtag st) !! b = Some tags' ∧
    (∀ t v, tags !! t = Some v → t ∈ matched oldtag newtag st →
       tags' !! renamed oldtag newtag t = Some v ∧ tags' !! t = None) ∧
    (∀ t, t ∉ matched oldtag newtag st → ¬ tag_under newtag t →
       tags' !! t = tags !! t).
Proof.
  intros Hap Hb. rewrite movetag_eq. simpl.
  set (l := matched oldtag newtag st).
  set (r := foldl (isnow_step oldtag newtag)
                  (before_loop oldtag newtag st, {[oldtag := newtag]}) l).
  assert (nodes r.1 = nodes st) as Hnodes.
  { subst r. rewrite isnow_loop_nodes. apply nodes_before_loop. }
  assert (∀ t, t ∈ l → tag_under oldtag t) as Hlu.
  { intros t Ht. by apply elem_of_matched in Ht as [_ ?]. }
  assert (∀ t, t ∈ l → r.2 !! t = Some (renamed oldtag newtag t)) as Hretag.
  { intros t Ht. apply (retag_spec oldtag newtag) in Ht as [m Hm].
    fold l in Hm. fold r in Hm. rewrite Hm.
    by apply (retag_value oldtag newtag) in Hm as [-> _]. }
  assert (∀ k m, r.2 !! k = Some m → m = renamed oldtag newtag k ∧ k ∈ l) as Hval
    by (intros k m; apply retag_value).
  assert (∀ k m, r.2 !! k = Some m → r.2 !! m = None) as Hrng.
  { intros k m [-> Hk]%Hval.
    destruct (r.2 !! renamed oldtag newtag k) eqn:E; [|done].
    apply Hval in E as [_ E].
    exfalso. apply (apart_renamed oldtag newtag k); [done|by apply Hlu|by apply Hlu]. }
  assert (∀ k1 k2 m, r.2 !! k1 = Some m → r.2 !! k2 = Some m → k1 = k2) as Hinj.
  { intros k1 k2 m [-> H1]%Hval [Heq H2]%Hval.
    apply (renamed_inj oldtag newtag); [by apply Hlu..|done]. }
  rewrite retag_nodes_lookup
    by (unfold nodes_by_tag; apply NoDup_fst_map_to_list).
  rewrite Hnodes, Hb. simpl.
  destruct (decide (b ∈ nodes_by_tag r.1 oldtag)) as [Hfound|Hnot].
  - exists (retag_tags r.2 tags). split_and!; [done| |].
    + intros t v Hv Ht. split.
      * eapply retag_tags_moves; [done..|by apply Hretag].
      * apply retag_tags_clears; [done|]. rewrite Hretag by done. eauto.
    + intros t Ht Hun. apply retag_tags_other.
      * destruct (r.2 !! t) eqn:E; [|done]. by apply Hval in E as [_ ?].
      * intros n m [-> Hn]%Hval <-. apply Hun. apply renamed_under. by apply Hlu.
  - exists tags. split_and!; [done| |done].
    intros t v Hv Ht. exfalso. apply Hnot.
    apply elem_of_nodes_by_tag. exists tags. split; [by rewrite Hnodes|].
    apply carries_spec. exists t. split; [eauto|by apply Hlu].
Qed.

Lemma movetag_keeps_values_apart_witness :
  ∃ tags', nodes (movetag "foo.bar" "zar.qux" foo_store) !! 1%N = Some tags' ∧
           tags' !! "zar.qux.baz" = Some (Some (100, 200)%Z) ∧
           tags' !! "foo.bar.baz" = None.
Proof.
  destruct (movetag_keeps_values_apart "foo.bar" "zar.qux" foo_store 1%N
              {[ "foo.bar" := None; "foo.bar.baz" := Some (100, 200)%Z ]})
    as (tags' & H1 & H2 & _).
  - apply apart_check; reflexivity.
  - vm_compute. reflexivity.
  - exists tags'. split; [exact H1|].
    apply (H2 "foo.bar.baz" (Some (100, 200)%Z)).
    + vm_compute. reflexivity.
    + apply (bool_decide_unpack _). vm_compute. exact I.
Defined.

End ValuesApart.

(** ** Python strings *)

Section PyStrProps.
Import PyStr.

Lemma split_cons_inv sep s : ∃ w ws, split sep s = w :: ws.
Proof.
  destruct s as [|c s]; simpl; [eauto|].
  destruct (decide (c = sep)); [eauto|].
  destruct (split sep s); eauto.
Qed.

Lemma concat_split sep s : String.concat (String sep "") (split sep s) = s.
Proof.
  induction s as [|c s IH]; [done|]. simpl.
  destruct (split_cons_inv sep s) as (w & ws & E). rewrite E in *.
  destruct (decide (c = sep)) as [->|].
  - simpl. simpl in IH. by rewrite IH.
  - simpl in *. destruct ws; simpl in *; by rewrite <-IH.
Qed.

Lemma split_no_sep sep s : Forall (λ w, has_char sep w = false) (split sep s).
Proof.
  induction s as [|c s IH]; simpl; [by repeat constructor|].
  destruct (split_cons_inv sep s) as (w & ws & E). rewrite E in *.
  apply Forall_cons in IH as [Hw Hws].
  destruct (decide (c = sep)) as [->|Hne].
  - constructor; [done|]. by constructor.
  - constructor; [|done]. simpl. rewrite Hw.
    by rewrite bool_decide_eq_false_2.
Qed.

Lemma lstrip_head s :
  match lstrip s with
  | String c _ => isspace c = false
  | EmptyString => True
  end.
Proof.
  induction s as [|c s IH]; simpl; [done|].
  destruct (isspace c) eqn:E; [done|]. simpl. done.
Qed.

Lemma rstrip_head c s :
  isspace c = false → ∃ rest, rstrip (String c s) = String c rest.
Proof.
  intros Hc. simpl. destruct (rstrip s); [|eauto]. rewrite Hc. eauto.
Qed.

Lemma strip_head s :
  match strip s with
  | String c _ => isspace c = false
  | EmptyString => True
  end.
Proof.
  unfold strip. pose proof (lstrip_head s) as H.
  destruct (lstrip s) as [|c t]; [done|].
  destruct (rstrip_head c t H) as [rest ->]. done.
Qed.

Lemma split_head sep s :
  ∃ w ws, split sep s = w :: ws ∧
    (s = w ∧ ws = [] ∨ ∃ rest, s = w +:+ String sep rest).
Proof.
  induction s as [|c s IH]; simpl.
  { exists "", []. eauto. }
  destruct IH as (w & ws & E & H). rewrite E.
  destruct (decide (c = sep)) as [->|Hne].
  - exists "", (w :: ws). split; [done|]. right. by exists s.
  - exists (String c w), ws. split; [done|].
    destruct H as [[-> ->]|[rest ->]]; [by left|]. right. by exists rest.
Qed.

End PyStrProps.

(** ** The argument parser and the briefs *)

Section ParserProps.
Import PyStr.

(** X1. [Parser.exit] always raises BadSyntaxError with the message it was
    given and marks the parser as exited.  It prints the message through
    the session's printf one line at a time: no printed line holds a
    newline, and joining the lines with newlines gives the message back.
    Without a printf, or for an empty or absent message, it prints
    nothing. *)
Theorem parser_exit_prints_message_lines
    (self : Parser.t) (message : option string) (printed : list string) :
  let r := Parser.exit self message printed in
  r.1.1 = BadSyntaxError message ∧
  Parser.exited r.1.2 = true ∧
  ∃ lines, r.2 = printed ++ lines ∧
    Forall (λ l, has_char newline l = false) lines ∧
    (Parser.has_printf self = true →
       String.concat (String newline "") lines = default "" message) ∧
    (Parser.has_printf self = false ∨ truthy message = false → lines = []).
Proof.
  unfold Parser.exit, Parser._print_message. simpl.
  split_and!; [done..|].
  destruct message as [[|c text]|]; simpl.
  - exists []. rewrite app_nil_r. split_and!; [done|constructor|done|done].
  - destruct (Parser.has_printf self) eqn:E.
    + eexists. split_and!; [done|exact (split_no_sep newline (String c text))| |].
      * intros _. apply (concat_split newline (String c text)).
      * by intros [|].
    + exists []. rewrite app_nil_r. split_and!; [done|constructor|done|done].
  - exists []. rewrite app_nil_r. split_and!; [done|constructor|done|done].
Qed.

Lemma getCmdBrief_spec (text : string) :
  ∃ line, Cmd.getCmdBrief (Some text) = Returns line ∧
    has_char newline line = false ∧
    (strip text = line ∨ ∃ rest, strip text = line +:+ String newline rest) ∧
    match line with
    | String c _ => isspace c = false
    | EmptyString => True
    end.
Proof.
  unfold Cmd.getCmdBrief.
  destruct (split_head newline (strip text)) as (w & ws & E & H).
  pose proof (split_no_sep newline (strip text)) as Hno.
  rewrite E in *. apply Forall_cons in Hno as [Hw _].
  exists w. split_and!; [done|done| |].
  - destruct H as [[-> _]|[rest ->]]; eauto.
  - pose proof (strip_head text) as Hh.
    destruct w as [|c w]; [done|].
    destruct H as [[Hs _]|[rest Hs]]; rewrite Hs in Hh; exact Hh.
Qed.

(** X2. The brief of a command with a docstring always exists (the index
    [0] never fails): it is the first line of the stripped docstring, it
    holds no newline and does not begin with white space.  A class without
    a docstring makes [getCmdBrief] raise AttributeError. *)
Theorem getCmdBrief_first_line :
  Cmd.getCmdBrief None = Fails AttributeError ∧
  ∀ text, ∃ line, Cmd.getCmdBrief (Some text) = Returns line ∧
    has_char newline line = false ∧
    (strip text = line ∨ ∃ rest, strip text = line +:+ String newline rest) ∧
    match line with
    | String c _ => isspace c = false
    | EmptyString => True
    end.
Proof. split; [done|]. apply getCmdBrief_spec. Qed.

End ParserProps.

(** ** help *)

Section HelpProps.
Import PyStr HelpCmd.

#[local] Instance name_le_total : Total name_le.
Proof. intros a b. unfold name_le. apply (total String.le). Qed.

#[local] Instance name_le_trans : Transitive name_le.
Proof. intros a b c. unfold name_le. apply (transitivity (R := String.le)). Qed.

#[local] Arguments Cmd.getCmdBrief : simpl never.

Lemma print_briefs_all l : ∀ printed,
  Forall (λ nd, is_Some nd.2) l →
  ∃ lines, print_briefs l printed = (None, printed ++ lines) ∧ briefs l lines.
Proof.
  induction l as [|[name doc] l IH]; intros printed Hl; simpl.
  { exists []. rewrite app_nil_r. split; [done|constructor]. }
  apply Forall_cons in Hl as [Hd Hl]. simpl in Hd. destruct Hd as [text ->]. simpl.
  destruct (getCmdBrief_spec text) as (brief & Hb & _). rewrite Hb.
  destruct (IH (printed ++ [brief_line name brief]) Hl) as (lines & -> & Hlines).
  exists (brief_line name brief :: lines). split.
  - by rewrite <-app_assoc.
  - constructor; [|done]. simpl. eauto.
Qed.

Lemma print_briefs_stops l1 name l2 : ∀ printed,
  Forall (λ nd, is_Some nd.2) l1 →
  ∃ lines, print_briefs (l1 ++ (name, None) :: l2) printed
             = (Some AttributeError, printed ++ lines) ∧ briefs l1 lines.
Proof.
  induction l1 as [|[n doc] l1 IH]; intros printed Hl; simpl.
  { exists []. rewrite app_nil_r. split; [done|constructor]. }
  apply Forall_cons in Hl as [Hd Hl]. simpl in Hd. destruct Hd as [text ->]. simpl.
  destruct (getCmdBrief_spec text) as (brief & Hb & _). rewrite Hb.
  destruct (IH (printed ++ [brief_line n brief]) Hl) as (lines & -> & Hlines).
  exists (brief_line n brief :: lines). split.
  - by rewrite <-app_assoc.
  - constructor; [|done]. simpl. eauto.
Qed.

Lemma first_without_doc (l : list (string * option string)) :
  Forall (λ nd, is_Some nd.2) l ∨
  ∃ l1 name l2, l = l1 ++ (name, None) :: l2 ∧ Forall (λ nd, is_Some nd.2) l1.
Proof.
  induction l as [|[n [text|]] l IH].
  - left. constructor.
  - destruct IH as [IH|(l1 & name & l2 & -> & H1)].
    + left. constructor; [by eexists|done].
    + right. exists ((n, Some text) :: l1), name, l2. split; [done|].
      constructor; [by eexists|done].
  - right. exists [], n, l. split; [done|constructor].
Qed.

(** X3. [help] forwards its input unchanged.  Given a command name it
    prints the two footer lines and nothing about that command.  Given none
    it prints one line per registered command, in the order of the names,
    each with the brief of the command, and then the footer; if a
    registered command has no docstring it raises AttributeError after the
    lines of the commands sorted before the first such command, and prints
    no footer. *)
Theorem help_lists_briefs_sorted {A}
    (cmds : gmap string (option string)) (command : option string) (genr : list A) :
  let r := runStormCmd cmds command genr in
  r.1.1 = genr ∧
  (truthy command = true → r = (genr, None, footer)) ∧
  (truthy command = false → (∀ name, cmds !! name ≠ Some None) →
     ∃ l lines, l ≡ₚ map_to_list cmds ∧ StronglySorted name_le l ∧
       briefs l lines ∧ r = (genr, None, lines ++ footer)) ∧
  (truthy command = false → (∃ name, cmds !! name = Some None) →
     ∃ l l1 name l2 lines, l ≡ₚ map_to_list cmds ∧ StronglySorted name_le l ∧
       l = l1 ++ (name, None) :: l2 ∧ briefs l1 lines ∧
       r = (genr, Some AttributeError, lines)).
Proof.
  unfold runStormCmd. simpl.
  assert (listing cmds ≡ₚ map_to_list cmds) as Hperm
    by apply merge_sort_Permutation.
  assert (StronglySorted name_le (listing cmds)) as Hsort
    by apply (StronglySorted_merge_sort _).
  split_and!.
  - destruct (truthy command); simpl; [done|].
    by destruct (print_briefs _ _) as [[e|] printed].
  - by intros ->.
  - intros -> Hdocs. simpl.
    destruct (print_briefs_all (listing cmds) []) as (lines & E & Hl).
    { apply Forall_forall. intros [n [text|]] Hin; [by eexists|].
      exfalso. apply (Hdocs n).
      rewrite Hperm in Hin. by apply elem_of_map_to_list in Hin. }
    rewrite E. exists (listing cmds), lines. done.
  - intros -> [n Hn]. simpl.
    destruct (first_without_doc (listing cmds)) as [Hall|(l1 & name & l2 & E & H1)].
    + exfalso. apply elem_of_map_to_list in Hn. rewrite <-Hperm in Hn.
      rewrite Forall_forall in Hall. by destruct (Hall _ Hn).
    + destruct (print_briefs_stops l1 name l2 [] H1) as (lines & E' & Hl).
      rewrite E, E'. exists (l1 ++ (name, None) :: l2), l1, name, l2, lines.
      rewrite <-E. done.
Qed.

End HelpProps.

(** ** uniq *)

Section UniqProps.
Import NoderefsCmd UniqCmd.

Lemma uniq_spec genr : ∀ buidset,
  let out := uniq genr buidset in
  NoDup (buids out) ∧
  out `sublist_of` genr ∧
  (∀ y, y ∈ out → buid y.1 ∉ buidset) ∧
  (∀ x, x ∈ genr → buid x.1 ∈ buidset ∨ buid x.1 ∈ buids out) ∧
  (∀ y, y ∈ out → ∃ l1 l2, genr = l1 ++ y :: l2 ∧ buid y.1 ∉ buids l1).
Proof.
  induction genr as [|[node path] rest IH]; intros buidset; simpl.
  { split_and!; [constructor|done|by intros ? ?%elem_of_nil..]. }
  destruct (decide (buid node ∈ buidset)) as [Hin|Hnot].
  - destruct (IH buidset) as (H1 & H2 & H3 & H4 & H5).
    split_and!; [done|by apply sublist_cons|done| |].
    + intros x [->|Hx]%elem_of_cons; [by left|by apply H4].
    + intros y Hy. destruct (H5 y Hy) as (l1 & l2 & -> & Hl1).
      exists ((node, path) :: l1), l2. split; [done|].
      unfold buids. simpl. intros [Heq|Hb]%elem_of_cons; [|done].
      apply (H3 y Hy). by rewrite Heq.
  - destruct (IH ({[buid node]} ∪ buidset)) as (H1 & H2 & H3 & H4 & H5).
    split_and!.
    + unfold buids. simpl. apply NoDup_cons. split; [|done].
      intros (y & Hy & Hb)%elem_of_buids. apply (H3 y Hy). set_solver.
    + by apply sublist_skip.
    + intros y [->|Hy]%elem_of_cons; [done|]. specialize (H3 y Hy). set_solver.
    + intros x [->|Hx]%elem_of_cons.
      * right. unfold buids. simpl. left.
      * destruct (H4 x Hx) as [Hb|Hb].
        -- apply elem_of_union in Hb as [->%elem_of_singleton|Hb]; [|by left].
           right. unfold buids. simpl. left.
        -- right. unfold buids. simpl. by right.
    + intros y [->|Hy]%elem_of_cons.
      * exists [], rest. split; [done|]. by intros ?%elem_of_nil.
      * destruct (H5 y Hy) as (l1 & l2 & -> & Hl1).
        exists ((node, path) :: l1), l2. split; [done|].
        unfold buids. simpl. intros [Heq|Hb]%elem_of_cons; [|done].
        apply (H3 y Hy). rewrite Heq. set_solver.
Qed.

Lemma uniq_id genr : ∀ buidset,
  NoDup (buids genr) → (∀ x, x ∈ genr → buid x.1 ∉ buidset) →
  uniq genr buidset = genr.
Proof.
  induction genr as [|[node path] rest IH]; intros buidset Hnd Hfresh; simpl; [done|].
  unfold buids in Hnd. simpl in Hnd. apply NoDup_cons in Hnd as [Hn Hnd].
  destruct (decide (buid node ∈ buidset)) as [Hin|Hnot].
  - exfalso. apply (Hfresh (node, path)); [left|done].
  - f_equal. apply IH; [done|].
    intros x Hx. apply not_elem_of_union. split.
    + intros Heq%elem_of_singleton. apply Hn. apply elem_of_buids. eauto.
    + apply Hfresh. by right.
Qed.

(** X4. [uniq] lets through exactly the first occurrence of every buid:
    what it yields is a subsequence of its input in which no buid occurs
    twice, every buid of the input occurs in it, and each pair it yields is
    preceded in the input by no pair of the same buid (so the path kept is
    that of the first occurrence). *)
Theorem uniq_keeps_first_occurrences (genr : list (Node * Path)) :
  let out := UniqCmd.runStormCmd genr in
  NoDup (buids out) ∧
  out `sublist_of` genr ∧
  (∀ x, x ∈ genr → buid x.1 ∈ buids out) ∧
  (∀ y, y ∈ out → ∃ l1 l2, genr = l1 ++ y :: l2 ∧ buid y.1 ∉ buids l1).
Proof.
  destruct (uniq_spec genr ∅) as (H1 & H2 & _ & H4 & H5).
  split_and!; [done|done| |done].
  intros x Hx. destruct (H4 x Hx) as [Hb|Hb]; [set_solver|done].
Qed.

(** X5. [uniq] is idempotent, and it is the identity on a stream in which
    no buid occurs twice. *)
Theorem uniq_idempotent (genr : list (Node * Path)) :
  UniqCmd.runStormCmd (UniqCmd.runStormCmd genr) = UniqCmd.runStormCmd genr ∧
  (NoDup (buids genr) → UniqCmd.runStormCmd genr = genr).
Proof.
  split.
  - apply uniq_id; [|set_solver]. by destruct (uniq_spec genr ∅) as [? _].
  - intros H. apply uniq_id; [done|set_solver].
Qed.

End UniqProps.

(** ** noderefs: sources, degrees and [uniq] *)

Section NoderefsMore.
Import NoderefsCmd.

Lemma run_sources_fresh self genr : ∀ vis vis',
  unique (opts self) = false →
  run_sources self genr vis = run_sources self genr vis'.
Proof.
  induction genr as [|[node path] rest IH]; intros vis vis' Hu; simpl; [done|].
  rewrite Hu. f_equal.
Qed.

Lemma run_sources_app self g1 : ∀ g2 vis,
  unique (opts self) = false →
  run_sources self (g1 ++ g2) vis = run_sources self g1 vis ++ run_sources self g2 vis.
Proof.
  induction g1 as [|[node path] rest IH]; intros g2 vis Hu; simpl; [done|].
  rewrite Hu. f_equal. rewrite IH by done. f_equal.
  by apply run_sources_fresh.
Qed.

Lemma runStormCmd_Ok o sn genr out :
  runStormCmd o sn genr = Ok out →
  (1 ≤ degrees o)%Z ∧ out = output (run_sources (setup o sn) genr ∅).
Proof.
  unfold runStormCmd. destruct (Z.ltb_spec (degrees o) 1); [done|].
  intros [= <-]. done.
Qed.

(** X6. Without [--unique] the sources are treated independently of each
    other: running [noderefs] over the concatenation of two input streams
    yields the output for the first followed by the output for the
    second. *)
Theorem noderefs_sources_independent
    (o : Opts) (sn : Snap) (g1 g2 out1 out2 : list (Node * Path)) :
  unique o = false →
  runStormCmd o sn g1 = Ok out1 →
  runStormCmd o sn g2 = Ok out2 →
  runStormCmd o sn (g1 ++ g2) = Ok (out1 ++ out2).
Proof.
  intros Hu [Hd ->]%runStormCmd_Ok [_ ->]%runStormCmd_Ok.
  unfold runStormCmd. destruct (Z.ltb_spec (degrees o) 1); [lia|].
  f_equal. rewrite run_sources_app by done.
  unfold output. by rewrite bind_app.
Qed.

(** X7. With [--unique] and without [--join], no buid occurs twice in the
    output of [noderefs], so a following [uniq] changes nothing. *)
Theorem noderefs_unique_then_uniq
    (o : Opts) (sn : Snap) (genr out : list (Node * Path)) :
  unique o = true → join o = false →
  runStormCmd o sn genr = Ok out →
  NoDup (buids out) ∧ UniqCmd.runStormCmd out = out.
Proof.
  intros Hu Hj [_ ->]%runStormCmd_Ok.
  destruct (run_sources_ok (setup o sn) genr ∅) as (_ & _ & H3).
  destruct (H3 Hu) as (Hnd & _).
  rewrite output_without_join.
  - split; [done|]. apply uniq_id; [done|set_solver].
  - eapply Forall_impl; [apply run_sources_joined|].
    intros r Hr. simpl in Hr. by rewrite Hj in Hr.
Qed.

End NoderefsMore.

Section NoderefsDegrees.
Import NoderefsCmd Graph.








End NoderefsDegrees.

(** ** delnode and sudo *)

Section DelNodeProps.
Import NoderefsCmd DelNodeCmd.

Lemma same_rights_refl rt : same_rights rt rt.
Proof. done. Qed.

Lemma same_rights_trans rt1 rt2 rt3 :
  same_rights rt1 rt2 → same_rights rt2 rt3 → same_rights rt1 rt3.
Proof.
  intros (U1 & E1 & P1) (U2 & E2 & P2). split_and!; [congruence..|].
  intros q. by rewrite P2, P1.
Qed.

Lemma allowed_permitted rt p :
  permitted rt p = true →
  ∃ rt', Runtime.allowed rt p = (Ok (), rt') ∧ same_rights rt rt'.
Proof.
  unfold permitted, Runtime.allowed, Runtime.memoize, same_rights.
  intros H. case_decide as Hm.
  { eexists. split; [done|]. done. }
  rewrite bool_decide_eq_false_2 in H by done. simpl in H.
  unfold Runtime.allowed_body.
  assert (∀ rt0 : Runtime.t, Runtime.user rt0 = Runtime.user rt →
            Runtime.elevated rt0 = Runtime.elevated rt →
            Runtime.memo rt0 = {[p]} ∪ Runtime.memo rt →
            ∀ q, permitted rt0 q = permitted rt q) as Hsame.
  { intros rt0 Hu He Hmemo q. unfold permitted. rewrite Hu, He, Hmemo.
    destruct (decide (q = p)) as [->|Hne].
    - rewrite bool_decide_eq_true_2 by set_solver. simpl.
      rewrite bool_decide_eq_false_2 by done. simpl. done.
    - f_equal. apply bool_decide_ext. set_solver. }
  destruct (Runtime.user rt) as [u|] eqn:Hu.
  - destruct (Runtime.elevated rt) eqn:He.
    + eexists. split; [done|]. simpl. split_and!; [done..|].
      apply Hsame; simpl; done.
    + simpl in H. rewrite H.
      eexists. split; [done|]. simpl. split_and!; [done..|].
      apply Hsame; simpl; done.
  - eexists. split; [done|]. simpl. split_and!; [done..|].
    apply Hsame; simpl; done.
Qed.

Lemma allowed_denied rt p :
  permitted rt p = false →
  ∃ u rt', Runtime.user rt = Some u ∧
    Runtime.allowed rt p =
      (Raise (AuthDeny None (Some (String.concat "." p)) (Some (Runtime.name u))), rt') ∧
    same_rights rt rt'.
Proof.
  unfold permitted, Runtime.allowed, Runtime.memoize, same_rights.
  intros H. apply orb_false_iff in H as [Hm H].
  apply bool_decide_eq_false in Hm. rewrite decide_False by done.
  unfold Runtime.allowed_body.
  destruct (Runtime.user rt) as [u|] eqn:Hu; [|done].
  apply orb_false_iff in H as [He Hr]. rewrite He, Hr.
  exists u. eexists. split_and!; [done..|].
  intros q. unfold permitted. simpl. by rewrite Hu, He.
Qed.

Lemma allow_all_clear ps : ∀ rt,
  Forall (λ p, permitted rt p = true) ps →
  ∃ rt', allow_all rt ps = (Ok (), rt') ∧ same_rights rt rt'.
Proof.
  induction ps as [|p ps IH]; intros rt Hps; simpl.
  { exists rt. split; [done|apply same_rights_refl]. }
  apply Forall_cons in Hps as [Hp Hps].
  destruct (allowed_permitted rt p Hp) as (rt1 & -> & Hs1).
  destruct (IH rt1) as (rt2 & -> & Hs2).
  { eapply Forall_impl; [exact Hps|]. intros q Hq. simpl in Hq.
    destruct Hs1 as (_ & _ & Hs1). by rewrite Hs1. }
  exists rt2. split; [done|]. by eapply same_rights_trans.
Qed.

Lemma allow_all_denied ps : ∀ rt,
  ¬ Forall (λ p, permitted rt p = true) ps →
  ∃ p u rt', p ∈ ps ∧ permitted rt p = false ∧ Runtime.user rt = Some u ∧
    allow_all rt ps =
      (Raise (AuthDeny None (Some (String.concat "." p)) (Some (Runtime.name u))), rt') ∧
    same_rights rt rt'.
Proof.
  induction ps as [|p ps IH]; intros rt Hps; simpl.
  { exfalso. apply Hps. constructor. }
  destruct (permitted rt p) eqn:Hp.
  - destruct (allowed_permitted rt p Hp) as (rt1 & -> & Hs1).
    destruct (IH rt1) as (q & u & rt2 & Hq & Hqp & Hu & -> & Hs2).
    { intros Hall. apply Hps. constructor; [done|].
      eapply Forall_impl; [exact Hall|]. intros q Hq. simpl in Hq.
      destruct Hs1 as (_ & _ & Hs1). by rewrite <-Hs1. }
    destruct Hs1 as (U1 & E1 & P1).
    exists q, u, rt2. split_and!; [by right|by rewrite <-P1|congruence|done|].
    by eapply same_rights_trans.
  - destruct (allowed_denied rt p Hp) as (u & rt1 & Hu & -> & Hs1).
    exists p, u, rt1. split_and!; [left|done..].
Qed.

Lemma same_rights_clear rt rt' y : same_rights rt rt' → clear rt y → clear rt' y.
Proof.
  intros (_ & _ & H) Hc. unfold clear in *.
  eapply Forall_impl; [exact Hc|]. intros p Hp. simpl in Hp. by rewrite H.
Qed.

Lemma same_rights_sym_clear rt rt' y : same_rights rt rt' → clear rt' y → clear rt y.
Proof.
  intros (_ & _ & H) Hc. unfold clear in *.
  eapply Forall_impl; [exact Hc|]. intros p Hp. simpl in Hp. by rewrite <-H.
Qed.

Lemma same_rights_all rt rt' l :
  same_rights rt rt' → Forall (clear rt) l ↔ Forall (clear rt') l.
Proof.
  intros Hs. split; intros H; (eapply Forall_impl; [exact H|]); intros y Hy.
  - by eapply same_rights_clear.
  - by eapply same_rights_sym_clear.
Qed.

End DelNodeProps.

Section DelNodeList.
Import NoderefsCmd DelNodeCmd.
Context (delete : Node → bool → result unit) (force : bool).

Abbreviation calls := (fmap (λ y : Node * Path, (y.1, force))).

(** Whatever happens, the calls made are those for a prefix of the nodes,
    all of them clear. *)
Lemma loop_list_safe nodes : ∀ fuel rt dels,
  length nodes < fuel →
  ∃ r k, loop list_rnext delete force fuel nodes rt dels = Some r ∧
    same_rights rt (runt r) ∧
    deleted r = dels ++ calls (take k nodes) ∧
    Forall (clear rt) (take k nodes).
Proof.
  induction nodes as [|[node path] rest IH]; intros fuel rt dels Hfuel;
    (destruct fuel as [|fuel]; [simpl in Hfuel; lia|]); simpl.
  { eexists _, 0. simpl. rewrite app_nil_r.
    split_and!; [done|apply same_rights_refl|done|constructor]. }
  destruct (decide (Forall (λ p, permitted rt p = true) (perms node))) as [Hc|Hc].
  - destruct (allow_all_clear _ rt Hc) as (rt1 & -> & Hs1).
    destruct (delete node force) as [[]|e].
    + destruct (IH fuel rt1 (dels ++ [(node, force)]) ltac:(simpl in Hfuel; lia))
        as (r & k & -> & Hs & Hd & Hk).
      exists r, (S k). split_and!; [done|by eapply same_rights_trans| |].
      * rewrite Hd. simpl. by rewrite <-app_assoc.
      * simpl. constructor; [done|]. by apply (same_rights_all rt rt1).
    + eexists _, 1. simpl. split_and!; [done|done|done|].
      constructor; [done|constructor].
  - destruct (allow_all_denied _ rt Hc) as (p & u & rt1 & _ & _ & _ & -> & Hs1).
    eexists _, 0. simpl. rewrite app_nil_r.
    split_and!; [done|done|done|constructor].
Qed.

(** When every node is clear and every deletion succeeds, every node is
    deleted. *)
Lemma loop_list_all nodes : ∀ fuel rt dels,
  length nodes < fuel →
  Forall (clear rt) nodes →
  (∀ y, y ∈ nodes → delete y.1 force = Ok ()) →
  ∃ r, loop list_rnext delete force fuel nodes rt dels = Some r ∧
    same_rights rt (runt r) ∧ ended r = Ok () ∧
    deleted r = dels ++ calls nodes ∧ genr r = [].
Proof.
  induction nodes as [|[node path] rest IH]; intros fuel rt dels Hfuel Hall Hdel;
    (destruct fuel as [|fuel]; [simpl in Hfuel; lia|]); simpl.
  { eexists. simpl. rewrite app_nil_r.
    split_and!; [done|apply same_rights_refl|done..]. }
  apply Forall_cons in Hall as [Hc Hall]. unfold clear in Hc. simpl in Hc.
  destruct (allow_all_clear _ rt Hc) as (rt1 & -> & Hs1).
  pose proof (Hdel (node, path) ltac:(left)) as Hdn. simpl in Hdn. rewrite Hdn.
  destruct (IH fuel rt1 (dels ++ [(node, force)]) ltac:(simpl in Hfuel; lia))
    as (r & -> & Hs & He & Hd & Hg).
  { by apply (same_rights_all rt rt1). }
  { intros y Hy. apply Hdel. by right. }
  exists r. split_and!; [done|by eapply same_rights_trans|done| |done].
  rewrite Hd. simpl. by rewrite <-app_assoc.
Qed.


End DelNodeList.

Section DelNodeClaims.
Import NoderefsCmd DelNodeCmd.



(** X9. [delnode] calls [delete] only on nodes for which every check
    passed: the permission to delete each tag of the node and the
    permission to delete the node.  The calls it makes are those for the
    first nodes of its input, in order, each with the [--force] flag.  It
    leaves the principal and the elevation of the runtime as they were.
    With [--force] and a principal that is no admin it raises AuthDeny
    before it asks for a node or checks a permission.  Otherwise, when
    every node is clear and every deletion succeeds, it deletes all of
    them. *)
Theorem delnode_deletes_only_permitted
    (delete : Node → bool → result unit) (force : bool)
    (rt : Runtime.t) (nodes : list (Node * Path)) :
  ∃ r k, delnode delete force rt nodes = Some r ∧
    Runtime.user (runt r) = Runtime.user rt ∧
    Runtime.elevated (runt r) = Runtime.elevated rt ∧
    deleted r = (λ y : Node * Path, (y.1, force)) <$> take k nodes ∧
    Forall (clear rt) (take k nodes) ∧
    (force_denied force rt = true →
       r = {| ended := Raise (AuthDeny (Some "--force requires admin privs.") None None);
              runt := rt; genr := nodes; deleted := [] |}) ∧
    (force_denied force rt = false → Forall (clear rt) nodes →
       (∀ y, y ∈ nodes → delete y.1 force = Ok ()) →
       ended r = Ok () ∧ deleted r = (λ y : Node * Path, (y.1, force)) <$> nodes).
Proof.
  unfold delnode, execStormCmd.
  destruct (force_denied force rt) eqn:Hf.
  - eexists _, 0. simpl. split_and!; [done..|constructor|done|done].
  - destruct (loop_list_safe delete force nodes (S (length nodes)) rt [] ltac:(lia))
      as (r & k & Hr & (Hu & He & _) & Hd & Hk).
    exists r, k. split_and!; [done..|].
    intros _ Hall Hdel.
    destruct (loop_list_all delete force nodes (S (length nodes)) rt [] ltac:(lia) Hall Hdel)
      as (r' & Hr' & _ & He' & Hd' & _).
    rewrite Hr in Hr'. injection Hr' as <-. done.
Qed.


End DelNodeClaims.

Section SudoDelNode.
Import NoderefsCmd DelNodeCmd.
Context (delete : Node → bool → result unit) (force : bool).

Lemma elevated_clear rt y : Runtime.elevated rt = true → clear rt y.
Proof.
  intros He. unfold clear. apply Forall_forall. intros p _.
  unfold permitted. rewrite He. destruct (Runtime.user rt); by rewrite orb_true_r.
Qed.

Lemma loop_sudo_forwarding nodes : ∀ fuel rt dels,
  length nodes < fuel →
  Runtime.elevated rt = true →
  (∀ y, y ∈ nodes → delete y.1 force = Ok ()) →
  ∃ r, loop (SudoCmd.execStormCmd list_rnext) delete force fuel
         (SudoCmd.Forwarding nodes) rt dels = Some r ∧
    same_rights rt (runt r) ∧ ended r = Ok () ∧
    deleted r = dels ++ ((λ y : Node * Path, (y.1, force)) <$> nodes).
Proof.
  induction nodes as [|[node path] rest IH]; intros fuel rt dels Hfuel He Hdel;
    (destruct fuel as [|fuel]; [simpl in Hfuel; lia|]); simpl.
  { eexists. simpl. rewrite app_nil_r. split_and!; [done|apply same_rights_refl|done..]. }
  destruct (allow_all_clear (perms node) rt) as (rt1 & -> & Hs1).
  { apply (elevated_clear rt (node, path) He). }
  pose proof (Hdel (node, path) ltac:(left)) as Hdn. simpl in Hdn. rewrite Hdn.
  destruct (IH fuel rt1 (dels ++ [(node, force)]) ltac:(simpl in Hfuel; lia))
    as (r & -> & Hs & Hend & Hd).
  { destruct Hs1 as (_ & -> & _). done. }
  { intros y Hy. apply Hdel. by right. }
  exists r. split_and!; [done|by eapply same_rights_trans|done|].
  rewrite Hd. simpl. by rewrite <-app_assoc.
Qed.

Lemma elevate_Ok rt :
  (∀ u, Runtime.user rt = Some u → Runtime.admin u = true) →
  ∃ rt', Runtime.elevate rt = Ok rt' ∧ Runtime.elevated rt' = true ∧
         Runtime.user rt' = Runtime.user rt.
Proof.
  intros H. unfold Runtime.elevate.
  destruct (Runtime.user rt) as [u|] eqn:Hu.
  - rewrite (H u eq_refl). simpl. eexists. split; [done|]. simpl. done.
  - eexists. split; [done|]. simpl. done.
Qed.

Lemma loop_sudo_created nodes fuel rt rt' :
  length nodes < fuel →
  Runtime.elevate rt = Ok rt' → Runtime.elevated rt' = true →
  (∀ y, y ∈ nodes → delete y.1 force = Ok ()) →
  ∃ r, loop (SudoCmd.execStormCmd list_rnext) delete force fuel
         (SudoCmd.Created nodes) rt [] = Some r ∧
    ended r = Ok () ∧
    deleted r = (λ y : Node * Path, (y.1, force)) <$> nodes ∧
    Runtime.elevated (runt r) = true.
Proof.
  intros Hfuel Hel He Hdel.
  destruct fuel as [|fuel]; [lia|]. simpl. rewrite Hel.
  destruct nodes as [|[node path] rest]; simpl.
  { eexists. simpl. done. }
  destruct (allow_all_clear (perms node) rt') as (rt1 & -> & Hs1).
  { apply (elevated_clear rt' (node, path) He). }
  pose proof (Hdel (node, path) ltac:(left)) as Hdn. simpl in Hdn. rewrite Hdn.
  destruct (loop_sudo_forwarding rest fuel rt1 [(node, force)]
              ltac:(simpl in Hfuel; lia)) as (r & -> & Hs & Hend & Hd).
  { destruct Hs1 as (_ & -> & _). done. }
  { intros y Hy. apply Hdel. by right. }
  exists r. split_and!; [done..|].
  destruct Hs as (_ & -> & _). destruct Hs1 as (_ & -> & _). done.
Qed.

End SudoDelNode.

Section SudoDelNodeClaim.
Import NoderefsCmd DelNodeCmd.

(** X11. [sudo | delnode].  For an admin, or when no principal is
    attached, the pipeline deletes every node, whatever the rules say and
    with or without [--force], and leaves the runtime elevated.  For a
    principal that is no admin it raises AuthDeny and deletes nothing,
    whatever the rules allow. *)
Theorem sudo_delnode_needs_admin_only
    (delete : Node → bool → result unit) (force : bool)
    (rt : Runtime.t) (nodes : list (Node * Path)) :
  ((∀ u, Runtime.user rt = Some u → Runtime.admin u = true) →
   (∀ y, y ∈ nodes → delete y.1 force = Ok ()) →
   ∃ r, sudo_delnode delete force rt nodes = Some r ∧
     ended r = Ok () ∧
     deleted r = (λ y : Node * Path, (y.1, force)) <$> nodes ∧
     Runtime.elevated (runt r) = true) ∧
  (∀ u, Runtime.user rt = Some u → Runtime.admin u = false →
   ∃ r, sudo_delnode delete force rt nodes = Some r ∧
     raises_AuthDeny (ended r) = true ∧ deleted r = [] ∧ runt r = rt).
Proof.
  unfold sudo_delnode, execStormCmd, force_denied. split.
  - intros Hadm Hdel.
    assert (force && match Runtime.user rt with
                     | Some u => negb (Runtime.admin u)
                     | None => false
                     end = false) as ->.
    { destruct (Runtime.user rt) as [u|]; [|by rewrite andb_false_r].
      rewrite (Hadm u eq_refl). by rewrite andb_false_r. }
    destruct (elevate_Ok rt Hadm) as (rt' & Hel & He & Hu).
    apply (loop_sudo_created delete force nodes (S (length nodes)) rt rt'); [lia|done..].
  - intros u Hu Hadm. rewrite Hu, Hadm. simpl.
    destruct force; simpl.
    + eexists. done.
    + unfold Runtime.elevate. rewrite Hu, Hadm. simpl. eexists. done.
Qed.

End SudoDelNodeClaim.

(** ** The runtime: options and the query loop *)

Section QueryProps.
Import NoderefsCmd Query.

Lemma setdefault_lookup name valu (o : gmap string OptValu) k :
  setdefault name valu o !! k =
    match o !! k with
    | Some v => Some v
    | None => if decide (k = name) then Some valu else None
    end.
Proof.
  unfold setdefault. destruct (o !! name) eqn:E.
  - destruct (o !! k) eqn:Ek; [done|]. case_decide; [congruence|done].
  - destruct (decide (k = name)) as [->|Hne].
    + by rewrite lookup_insert_eq, E.
    + rewrite lookup_insert_ne by done. by destruct (o !! k).
Qed.

Lemma foldl_setdefault (l : list (string * OptValu)) : ∀ o k,
  NoDup l.*1 →
  foldl (λ o kv, setdefault kv.1 kv.2 o) o l !! k =
    match o !! k with
    | Some v => Some v
    | None => (list_to_map l : gmap string OptValu) !! k
    end.
Proof.
  induction l as [|[name valu] l IH]; intros o k Hnd; simpl.
  { rewrite lookup_empty. by destruct (o !! k). }
  apply NoDup_cons in Hnd as [Hn Hnd].
  rewrite IH by done. rewrite setdefault_lookup.
  destruct (o !! k) eqn:Ek; [done|].
  destruct (decide (k = name)) as [->|Hne].
  - by rewrite lookup_insert_eq.
  - by rewrite lookup_insert_ne.
Qed.

Lemma init_opts_union (self : t) query_opts :
  opts (init_opts self query_opts) = opts self ∪ query_opts.
Proof.
  apply map_eq. intros k. unfold init_opts. simpl.
  rewrite foldl_setdefault by apply NoDup_fst_map_to_list.
  rewrite list_to_map_to_list, lookup_union.
  destruct (opts self !! k), (query_opts !! k); done.
Qed.

(** X12. The options that a query brings never override the runtime's
    own: after the first loop of [iterStormQuery] the options are the
    runtime's own, completed by those of the query under the names that the
    runtime did not have.  So an option set with [setOpt] reads back with
    [getOpt] whatever the query says, and an option that neither has reads
    as the default. *)
Theorem query_opts_never_override (self : t) (query_opts : gmap string OptValu) :
  opts (init_opts self query_opts) = opts self ∪ query_opts ∧
  (∀ name valu defval,
     getOpt (init_opts (setOpt self name valu) query_opts) name defval = Some valu) ∧
  (∀ name defval, opts self !! name = None →
     getOpt (init_opts self query_opts) name defval =
       match query_opts !! name with
       | Some valu => Some valu
       | None => defval
       end).
Proof.
  split_and!.
  - apply init_opts_union.
  - intros name valu defval. unfold getOpt. rewrite init_opts_union.
    rewrite lookup_union. simpl. rewrite lookup_insert_eq.
    by destruct (query_opts !! name).
  - intros name defval Hn. unfold getOpt. rewrite init_opts_union.
    rewrite lookup_union, Hn. by destruct (query_opts !! name).
Qed.

Lemma count_loop_running {A} q (l : list A) : ∀ fuel self count,
  length l < fuel →
  Runtime.canceled (runt self) = false →
  count_loop (iterStormQuery q list_qnext) fuel (Running l) self count
    = Some (Ok (count + length l), self).
Proof.
  induction l as [|x l IH]; intros fuel self count Hfuel Hc;
    (destruct fuel as [|fuel]; [simpl in Hfuel; lia|]); simpl.
  { by rewrite Nat.add_0_r. }
  unfold pull, list_qnext, Runtime.tick. simpl. rewrite Hc.
  pose proof (IH fuel self (S count) ltac:(simpl in Hfuel; lia) Hc) as H.
  unfold list_qnext in H. rewrite H.
  do 3 f_equal. lia.
Qed.

Lemma count_loop_created {A} q (l : list A) fuel self :
  length l < fuel →
  Runtime.canceled (runt self) = false →
  count_loop (iterStormQuery q list_qnext) fuel (Created l) self 0
    = Some (Ok (length l), init_opts self q).
Proof.
  intros Hfuel Hc. destruct fuel as [|fuel]; [lia|].
  destruct l as [|x l]; simpl; [done|].
  unfold pull, list_qnext, Runtime.tick. simpl. rewrite Hc.
  pose proof (count_loop_running q l fuel (init_opts self q) 1
                ltac:(simpl in Hfuel; lia) Hc) as H.
  unfold list_qnext in H. by rewrite H.
Qed.

(** X13. [execStormQuery] returns the number of nodes of the query when
    the runtime is not canceled.  On a canceled runtime it raises Canceled
    as soon as the query hands out a node, and still returns 0 for a query
    without nodes.  In each case the query's options have been merged into
    the runtime's.  In general, whatever the query does to the runtime,
    [iterStormQuery] yields a node only if the runtime is not canceled once
    the query has produced it. *)
Theorem execStormQuery_counts_until_canceled {A}
    (query_opts : gmap string OptValu) (l : list A) (self : t) :
  (Runtime.canceled (runt self) = false →
     exec_list query_opts l self = Some (Ok (length l), init_opts self query_opts)) ∧
  (Runtime.canceled (runt self) = true → l = [] →
     exec_list query_opts l self = Some (Ok 0, init_opts self query_opts)) ∧
  (Runtime.canceled (runt self) = true → l ≠ [] →
     exec_list query_opts l self = Some (Raise Canceled, init_opts self query_opts)) ∧
  (∀ U (unext : qnext A U) st s item st' s',
     iterStormQuery query_opts unext st s = (Ok (Some (item, st')), s') →
     Runtime.canceled (runt s') = false).
Proof.
  unfold exec_list, execStormQuery. split_and!.
  - intros Hc. apply count_loop_created; [lia|done].
  - by intros Hc ->.
  - intros Hc Hl. destruct l as [|x l]; [done|]. simpl.
    unfold pull, list_qnext, Runtime.tick. simpl. by rewrite Hc.
  - intros U unext st s item st' s'. unfold iterStormQuery, pull.
    destruct st as [g|g].
    + destruct (unext g _) as [[[[i g']|]|e] s1]; try done.
      unfold Runtime.tick. destruct (Runtime.canceled (runt s1)) eqn:Hc; [done|].
      by intros [= _ _ <-].
    + destruct (unext g _) as [[[[i g']|]|e] s1]; try done.
      unfold Runtime.tick. destruct (Runtime.canceled (runt s1)) eqn:Hc; [done|].
      by intros [= _ _ <-].
Qed.

End QueryProps.

(** ** Lifting nodes by iden: [getInput] and [iden] *)

Section LiftProps.
Import NoderefsCmd Query.
Context (uhex : Valu → option N) (getNodeByBuid : N → option Node).

(** What one iden contributes: the node of its buid, if it decodes and the
    node exists. *)
Abbreviation by_buid := (λ iden : Valu, lifted (uhex iden ≫= getNodeByBuid)).

Lemma by_idens_all idens :
  (∀ iden, iden ∈ idens → is_Some (uhex iden)) →
  by_idens uhex getNodeByBuid idens = (idens ≫= by_buid, None).
Proof.
  induction idens as [|iden rest IH]; intros H; simpl; [done|].
  destruct (H iden ltac:(left)) as [buid ->]. simpl.
  rewrite IH by (intros i Hi; apply H; by right). done.
Qed.

Lemma by_idens_bad good : ∀ bad rest,
  (∀ iden, iden ∈ good → is_Some (uhex iden)) →
  uhex bad = None →
  by_idens uhex getNodeByBuid (good ++ bad :: rest) = (good ≫= by_buid, Some UhexError).
Proof.
  induction good as [|iden good IH]; intros bad rest H Hbad; simpl.
  { by rewrite Hbad. }
  destruct (H iden ltac:(left)) as [buid ->]. simpl.
  rewrite IH by (done || intros i Hi; apply H; by right). done.
Qed.

(** X14. [getInput] yields the attached inputs, then the nodes of the
    ndefs of the options that exist, then the nodes of the idens of the
    options; an ndef or a buid without a node is skipped.  An iden that
    does not decode is not skipped: the generator raises at it, after the
    nodes of the idens before it, and yields nothing for the idens after
    it. *)
Theorem getInput_raises_at_bad_iden (self : t) (ndefs idens : list Valu) :
  from_option py_iter (Some []) (opts self !! "ndefs") = Some ndefs →
  from_option py_iter (Some []) (opts self !! "idens") = Some idens →
  let first := (λ node, (node, initPath node)) <$> inputs self in
  let second := ndefs ≫= (λ ndef, lifted (getNodeByNdef (snap self) ndef)) in
  ((∀ iden, iden ∈ idens → is_Some (uhex iden)) →
     getInput uhex getNodeByBuid self = (first ++ second ++ (idens ≫= by_buid), None)) ∧
  (∀ good bad rest, idens = good ++ bad :: rest →
     (∀ iden, iden ∈ good → is_Some (uhex iden)) → uhex bad = None →
     getInput uhex getNodeByBuid self
       = (first ++ second ++ (good ≫= by_buid), Some UhexError)).
Proof.
  intros Hn Hi first second. unfold getInput. rewrite Hn, Hi. split.
  - intros H. by rewrite by_idens_all.
  - intros good bad rest -> H Hbad. by rewrite by_idens_bad.
Qed.

Lemma iden_by_idens (idens : list string) :
  let r := IdenCmd.by_idens uhex getNodeByBuid idens in
  r.1 = idens ≫= (λ iden, by_buid (VStr iden)) ∧
  r.2 = (λ iden, "Failed to decode iden: [" +:+ iden +:+ "]")
          <$> filter (λ iden, uhex (VStr iden) = None) idens.
Proof.
  induction idens as [|iden rest IH]; simpl; [done|].
  destruct (IdenCmd.by_idens uhex getNodeByBuid rest) as [found warned].
  simpl in IH. destruct IH as [-> ->].
  destruct (uhex (VStr iden)) as [buid|] eqn:E; simpl.
  - rewrite filter_cons_False by (rewrite E; done). done.
  - rewrite filter_cons_True by done. done.
Qed.

(** X15. [iden] forwards its input and then lifts the node of every iden
    that decodes to the buid of a node, in the order of the idens; it never
    raises.  An iden that does not decode gives one warning and does not
    keep the idens after it from being lifted; a buid without a node is
    skipped without a warning. *)
Theorem iden_warns_and_goes_on (idens : list string) (genr : list (Node * Path)) :
  let r := IdenCmd.execStormCmd uhex getNodeByBuid idens genr in
  r.1 = genr ++ (idens ≫= (λ iden, by_buid (VStr iden))) ∧
  r.2 = (λ iden, "Failed to decode iden: [" +:+ iden +:+ "]")
          <$> filter (λ iden, uhex (VStr iden) = None) idens ∧
  length r.1 + length r.2 ≤ length genr + length idens.
Proof.
  unfold IdenCmd.execStormCmd.
  pose proof (iden_by_idens idens) as H.
  destruct (IdenCmd.by_idens uhex getNodeByBuid idens) as [found warned].
  simpl in *. destruct H as [-> ->]. split_and!; [done..|].
  rewrite length_app, length_fmap.
  assert (∀ l : list string,
            length (l ≫= (λ iden, by_buid (VStr iden)))
            + length (filter (λ iden, uhex (VStr iden) = None) l) ≤ length l) as Hlen.
  { induction l as [|iden l IH]; simpl; [done|].
    rewrite length_app.
    destruct (uhex (VStr iden)) as [buid|] eqn:E; simpl.
    - rewrite filter_cons_False by (rewrite E; done).
      destruct (getNodeByBuid buid); simpl.
      + apply le_n_S. exact IH.
      + etrans; [exact IH|lia].
    - rewrite filter_cons_True by done. simpl.
      rewrite Nat.add_succ_r. apply le_n_S. exact IH. }
  specialize (Hlen idens). lia.
Qed.

End LiftProps.

(** ** The auth command: the messages it forms *)

Section AuthProps.
Import AuthCmd.

Lemma get_delete_ne (opts : gmap string pyval) k k' :
  k ≠ k' → get (delete k opts) k' = get opts k'.
Proof. intros H. unfold get. by rewrite lookup_delete_ne. Qed.

Lemma modmap_lookup typ :
  modmap !! kind_name typ = Some match typ with user => "urule" | role => "rrule" end.
Proof. destruct typ; vm_compute; reflexivity. Qed.

Lemma typmap_lookup typ : typmap !! kind_name typ = Some (kind_name typ).
Proof. destruct typ; vm_compute; reflexivity. Qed.

Lemma getmap_lookup typ :
  getmap !! kind_name typ = Some match typ with user => "users" | role => "roles" end.
Proof. destruct typ; vm_compute; reflexivity. Qed.

(** X16. [formRulefo] always takes ['rule'] out of the options and
    changes nothing else.  It gives a rule exactly when [--rule] is given
    together with either a tag alone or a form (with or without a prop):
    the rule is named by the value of [--rule] and carries the tag, or the
    form and the prop, or the form.  A tag together with a form or a prop,
    and a prop without a form, are rejected with BadSyntaxError.  Without
    [--rule], or with [--rule] and none of form, prop and tag, it gives no
    rule and raises nothing. *)
Theorem formRulefo_table (opts : gmap string pyval) :
  let rule := get opts "rule" in
  let form := get opts "form" in
  let prop := get opts "prop" in
  let tag := get opts "tag" in
  (formRulefo opts).2 = delete "rule" opts ∧
  match (formRulefo opts).1 with
  | Returns (Some r) =>
      truthy rule = true ∧ rtype r = rule ∧
      (truthy tag = true ∧ truthy form = false ∧ truthy prop = false ∧
         rprops r = {[ "tag" := tag ]}
       ∨ truthy tag = false ∧ truthy form = true ∧
         rprops r = if truthy prop then {[ "form" := form; "prop" := prop ]}
                    else {[ "form" := form ]})
  | Returns None =>
      truthy rule = false
      ∨ truthy tag = false ∧ truthy form = false ∧ truthy prop = false
  | Fails e =>
      truthy rule = true ∧
      (truthy tag = true ∧ (truthy form = true ∨ truthy prop = true) ∧
         e = BadSyntaxError (Some "Cannot form rulefo with tag and (form OR prop)")
       ∨ truthy tag = false ∧ truthy form = false ∧ truthy prop = true ∧
         e = BadSyntaxError (Some "Failed to form rulefo"))
  end.
Proof.
  intros rule form prop tag. unfold formRulefo.
  rewrite !get_delete_ne by done.
  fold rule form prop tag.
  destruct (truthy rule) eqn:Hr; simpl; [|by auto].
  destruct (truthy tag) eqn:Ht; simpl.
  - destruct (truthy form) eqn:Hf, (truthy prop) eqn:Hp; simpl; split; auto 10.
  - destruct (truthy form) eqn:Hf, (truthy prop) eqn:Hp; simpl; split; auto 10.
Qed.

Lemma formRulefo_not_wut opts :
  (formRulefo opts).1 ≠ Fails (BadSyntaxError (Some "wut")).
Proof.
  unfold formRulefo.
  destruct (truthy (get opts "rule")); simpl; [|done].
  destruct (truthy (get (delete "rule" opts) "tag")),
           (truthy (get (delete "rule" opts) "form")),
           (truthy (get (delete "rule" opts) "prop")); simpl; done.
Qed.

(** X17. [getMsg] needs a name: without one it raises BadSyntaxError
    and leaves the options alone.  With a name, for a user [--admin] wins
    over [--role], and [--role] over a rule: the message is [stub:admin]
    for the user, or [stub:urole] for the user and the role, and the
    options after the one that won are not looked at.  For a role, and for
    a user without [--admin] and [--role], the message is decided by
    [formRulefo]: its error, or [stub:user] / [stub:role] with the name when
    there is no rule, or [stub:urule] / [stub:rrule] with the name and the
    rule.  The error ['wut'] for an unknown type is never raised. *)
Theorem getMsg_precedence
    (stub : string) (name : pyval) (typ : kind) (opts : gmap string pyval) :
  let admin := get opts "admin" in
  let role_ := get opts "role" in
  let r := getMsg stub name typ opts in
  (truthy name = false →
     r = (Fails (BadSyntaxError (Some "Addition requires a name")), opts)) ∧
  r.1 ≠ Fails (BadSyntaxError (Some "wut")) ∧
  (truthy name = true → typ = user → truthy admin = true →
     r = (Returns {| mtype := stub +:+ ":admin";
                     margs := {[ "user" := AVal name ]} |},
          delete "admin" opts)) ∧
  (truthy name = true → typ = user → truthy admin = false → truthy role_ = true →
     r = (Returns {| mtype := stub +:+ ":urole";
                     margs := <["role" := AVal role_]> {[ "user" := AVal name ]} |},
          delete "role" (delete "admin" opts))) ∧
  (truthy name = true →
   typ = role ∨ truthy admin = false ∧ truthy role_ = false →
     match formRulefo (delete "role" (delete "admin" opts)) with
     | (Fails e, opts') => r = (Fails e, opts')
     | (Returns None, opts') =>
         r = (Returns {| mtype := stub +:+ ":" +:+ kind_name typ;
                         margs := {[ kind_name typ := AVal name ]} |}, opts')
     | (Returns (Some rule), opts') =>
         r = (Returns {| mtype := stub +:+ match typ with
                                           | user => ":urule"
                                           | role => ":rrule"
                                           end;
                         margs := <["rule" := ARule rule]>
                                    {[ kind_name typ := AVal name ]} |}, opts')
     end).
Proof.
  intros admin role_ r. subst r. unfold getMsg.
  split_and!.
  - by intros ->.
  - destruct (truthy name); simpl; [|done].
    fold admin.
    destruct (truthy admin && bool_decide (kind_name typ = "user")); simpl; [done|].
    destruct (truthy (get (delete "admin" opts) "role")
              && bool_decide (kind_name typ = "user")); simpl; [done|].
    pose proof (formRulefo_not_wut (delete "role" (delete "admin" opts))) as H.
    destruct (formRulefo _) as [[[rule|]|e] opts']; simpl in *.
    + rewrite modmap_lookup. by destruct typ.
    + done.
    + intros [= ->]. by apply H.
  - intros -> -> Ha. simpl. fold admin. rewrite Ha. simpl. done.
  - intros -> -> Ha Hr. simpl. fold admin. rewrite Ha. simpl.
    rewrite get_delete_ne by done. fold role_. rewrite Hr. simpl. done.
  - intros -> Hcase. simpl. fold admin.
    rewrite get_delete_ne by done. fold role_.
    assert (truthy admin && bool_decide (kind_name typ = "user") = false) as ->.
    { destruct Hcase as [->|[-> _]]; [by rewrite andb_false_r|done]. }
    assert (truthy role_ && bool_decide (kind_name typ = "user") = false) as ->.
    { destruct Hcase as [->|[_ ->]]; [by rewrite andb_false_r|done]. }
    destruct (formRulefo _) as [[[rule|]|e] opts']; simpl; [|done..].
    rewrite modmap_lookup. by destruct typ.
Qed.

(** X18. The message of [auth --act get] depends on the name only: with a
    name it asks for that user or role, without one it asks for the list
    of all users or roles, and no other option is read.  [--act add] and
    [--act del] without a name are both rejected with the message
    ['Addition requires a name'], and an action other than the three is
    rejected as unknown.  In every case ['act'], ['type'] and ['name'] have
    been taken out of the options. *)
Theorem runCmdOpts_mesg_by_action (act : string) (typ : kind) (opts : gmap string pyval) :
  let name := get opts "name" in
  let opts' := delete "name" (delete "type" (delete "act" opts)) in
  let r := runCmdOpts_mesg act typ opts in
  (act = "get" → truthy name = true →
     r = (Returns {| mtype := "auth:req:" +:+ kind_name typ;
                     margs := {[ kind_name typ := AVal name ]} |}, opts')) ∧
  (act = "get" → truthy name = false →
     r = (Returns {| mtype := match typ with
                              | user => "auth:get:users"
                              | role => "auth:get:roles"
                              end;
                     margs := ∅ |}, opts')) ∧
  (act = "add" ∨ act = "del" → truthy name = false →
     r = (Fails (BadSyntaxError (Some "Addition requires a name")), opts')) ∧
  (act = "add" → r = getMsg "auth:add" name typ opts') ∧
  (act = "del" → r = getMsg "auth:del" name typ opts') ∧
  (act ≠ "get" → act ≠ "add" → act ≠ "del" →
     r = (Fails (BadSyntaxError (Some "Unknown action provided")), opts')).
Proof.
  intros name opts' r. subst r. unfold runCmdOpts_mesg.
  rewrite !get_delete_ne by done. fold name. fold opts'.
  split_and!.
  - intros -> Hn. simpl. rewrite Hn, typmap_lookup. done.
  - intros -> Hn. simpl. rewrite Hn, getmap_lookup. by destruct typ.
  - intros [-> | ->] Hn; simpl; unfold getMsg; by rewrite Hn.
  - by intros ->.
  - by intros ->.
  - intros H1 H2 H3. by rewrite !bool_decide_eq_false_2 by done.
Qed.

End AuthProps.

(** ** Runs on the small graph *)

Section MoreRuns.
Import NoderefsCmd Graph Runs.

Lemma noderefs_sources_independent_witness :
  runStormCmd default_opts sn ([(addr, [addr])] ++ [(dom, [dom])])
  = Ok ([(rec, [addr; rec])] ++ [(rec, [dom; rec])]).
Proof.
  apply noderefs_sources_independent.
  - reflexivity.
  - vm_compute. reflexivity.
  - vm_compute. reflexivity.
Defined.

Lemma noderefs_unique_then_uniq_witness :
  NoDup (buids [(rec, [addr; rec]); (dom, [addr; rec; dom])]) ∧
  UniqCmd.runStormCmd [(rec, [addr; rec]); (dom, [addr; rec; dom])]
  = [(rec, [addr; rec]); (dom, [addr; rec; dom])].
Proof.
  apply (noderefs_unique_then_uniq unique_opts sn [(addr, [addr]); (dom, [dom])]).
  - reflexivity.
  - reflexivity.
  - vm_compute. reflexivity.
Defined.


Example sudo_delnode_by_visi :
  ∃ r, DelNodeCmd.sudo_delnode delete_ok false (Runtime.init (Some visi))
         [(addr, [addr])] = Some r ∧
       raises_AuthDeny (DelNodeCmd.ended r) = true ∧ DelNodeCmd.deleted r = [].
Proof. eexists. split; [vm_compute; reflexivity|]. done. Qed.

Lemma getInput_raises_at_bad_iden_witness :
  Query.getInput hexes node_of_buid lifting
  = ([(rec, [rec]); (dom, [dom]); (addr, [addr])], Some UhexError).
Proof.
  refine (eq_trans
            (proj2 (getInput_raises_at_bad_iden hexes node_of_buid lifting
                      [ndef_valu dom; VStr "nope"] [VStr "01"; VStr "zz"; VStr "03"]
                      _ _)
                   [VStr "01"] (VStr "zz") [VStr "03"] eq_refl _ _) _).
  - vm_compute. reflexivity.
  - vm_compute. reflexivity.
  - intros iden ->%list_elem_of_singleton. vm_compute. eauto.
  - vm_compute. reflexivity.
  - vm_compute. reflexivity.
Defined.

Example iden_lifts_after_bad_iden :
  IdenCmd.execStormCmd hexes node_of_buid ["01"; "zz"; "03"] []
  = ([(addr, [addr]); (dom, [dom])], ["Failed to decode iden: [zz]"]).
Proof. vm_compute. reflexivity. Qed.

End MoreRuns.
